(** * RtcSession: call signalling over a message transport and a media engine

    A shallow embedding of [js/chat/rtcSession.js].  The JavaScript object
    graph is modelled as one explicit [World]: the statics of [RtcSession]
    (the shared local stream, its player and its reference count), the
    [RtcSession] instances with their connection and jingle registries, the
    closures created by [startMediaCall] and [onIncomingCallRequest], and a
    chronological log of everything the code sends, triggers or calls on its
    collaborators.  Functions of the source become computations in a small
    state-and-exception monad; callbacks that the browser, the transport or
    the user invoke later become [Action]s of an event loop. *)

From Stdlib Require Import ZArith QArith Floats Lia Ascii.
From stdpp Require Import base list strings.

Open Scope string_scope.

(** ** JavaScript values *)

(** The reference count is a JS number that starts out [undefined]: the
    source initialises [gLocalStream], [gLocalVid], [gVolMon] and
    [gVolMonCallback], but [gLocalStreamRefcount] only when a stream is
    obtained.  Integers stay exact far beyond any count a page can reach, so
    a number is a [Z]. *)
Inductive JsNum :=
| JUndefined
| JNaN
| JNum (z : Z).

(** [x++] and [--x]: ToNumber(undefined) is NaN, and NaN stays NaN. *)
Definition js_inc (n : JsNum) : JsNum :=
  match n with JNum z => JNum (z + 1) | _ => JNaN end.

Definition js_dec (n : JsNum) : JsNum :=
  match n with JNum z => JNum (z - 1) | _ => JNaN end.

(** [n > 0]: false for [undefined] and NaN. *)
Definition js_gt0 (n : JsNum) : bool :=
  match n with JNum z => (0 <? z)%Z | _ => false end.

(** Truthiness of an optional string ([undefined], [null] and the empty
    string are falsy). *)
Definition truthy (s : option string) : bool :=
  match s with
  | Some s => negb (String.eqb s "")
  | None => false
  end.

(** ** Identities (the transport library's helpers)

    [Strophe.getBareJidFromJid] is [jid.split("/")[0]];
    [Strophe.getResourceFromJid] is everything after the first slash, or
    [null] when there is none. *)
Fixpoint getBareJidFromJid (jid : string) : string :=
  match jid with
  | EmptyString => EmptyString
  | String c r => if Ascii.eqb c "/"%char then EmptyString else String c (getBareJidFromJid r)
  end.

Fixpoint getResourceFromJid (jid : string) : option string :=
  match jid with
  | EmptyString => None
  | String c r => if Ascii.eqb c "/"%char then Some r else getResourceFromJid r
  end.

(** ** Media *)

Inductive TrackKind := Audio | Video.

Definition is_audio (t : TrackKind) : bool :=
  match t with Audio => true | Video => false end.

Definition is_video (t : TrackKind) : bool :=
  match t with Video => true | Audio => false end.

(** A MediaStream: the capture it belongs to and its tracks. *)
Record MediaStream := mkStream {
  ms_id : nat;
  ms_tracks : list TrackKind
}.

Definition getAudioTracks (s : MediaStream) : list TrackKind :=
  List.filter is_audio (ms_tracks s).

Definition getVideoTracks (s : MediaStream) : list TrackKind :=
  List.filter is_video (ms_tracks s).

Record MediaOptions := mkOptions {
  audio : bool;
  video : bool
}.

(** Modelled from the spec: [MutedState] is declared outside this file; the
    spec gives it as the pair of per-channel mute flags, and [set] stores
    them. *)
Record MutedState := mkMuted {
  audioMuted : bool;
  videoMuted : bool
}.

(** Modelled from the spec: [RTC.cloneMediaStream] belongs to the browser
    adapter; the spec describes the clone as having the same underlying
    tracks with independent enable flags.  The source always asks for both
    kinds. *)
Definition cloneMediaStream (s : MediaStream) (o : MediaOptions) : MediaStream :=
  mkStream (ms_id s)
    (List.filter (fun t => (is_audio t && audio o) || (is_video t && video o)) (ms_tracks s)).

(** [RtcSession.mediaOptionsToMutedState] *)
Definition mediaOptionsToMutedState (options : MediaOptions) (stream : MediaStream) : MutedState :=
  let muteAudio := negb (audio options) && (0 <? List.length (getAudioTracks stream))%nat in
  let muteVideo := negb (video options) && (0 <? List.length (getVideoTracks stream))%nat in
  mkMuted muteAudio muteVideo.

(** ** [RtcSession.xmlUnescape] *)

(** [s.replace(/pat/g, rep)] for a literal pattern: scan left to right, and
    after a match skip the rest of the matched text. *)
Fixpoint replace_from (pat rep : string) (skip : nat) (s : string) : string :=
  match s with
  | EmptyString => EmptyString
  | String c r =>
      match skip with
      | S n => replace_from pat rep n r
      | O =>
          if String.prefix pat s
          then rep +:+ replace_from pat rep (String.length pat - 1) r
          else String c (replace_from pat rep 0 r)
      end
  end.

Definition replace_all (pat rep s : string) : string := replace_from pat rep 0 s.

Definition dquote : string := String (Ascii.ascii_of_nat 34) EmptyString.

Definition xmlUnescape (text : string) : string :=
  replace_all "&quot;" dquote
    (replace_all "&apos;" "'"
      (replace_all "&gt;" ">"
        (replace_all "&lt;" "<"
          (replace_all "&amp;" "&" text)))).

(** ** Messages, stanzas and events *)

(** What [$msg({to, type, by, accepted})] builds. *)
Record Msg := mkMsg {
  m_to : string;
  m_type : string;
  m_by : option string;
  m_accepted : option string
}.

(** The parts of a received message the handlers read: the [from] and
    [reason] attributes and the text of the [body] elements. *)
Record Stanza := mkStanza {
  st_from : option string;
  st_reason : option string;
  st_body : list string
}.

(** The local video player element created in [_onMediaReady]. *)
Record Vid := mkVid { vid_class : string }.

(** A jingle session, as far as this file reads it. *)
Record Session := mkSession {
  sid : string;
  peerjid : string;
  localStream : option MediaStream
}.

(** Events triggered on the RtcSession instance. *)
Inductive RtcEvent :=
| EvLocalMediaFail (error : string)
| EvLocalStreamObtained (stream : MediaStream) (player : Vid)
| EvLocalPlayerRemove (player : option Vid)
| EvCallInit (peer : option string)
| EvCallDeclined (peer : option string) (reason : option string) (text : option string)
| EvCallAnswerTimeout (peer : string)
| EvCallIncomingRequest (peer : string) (request : nat)
| EvRemotePlayerRemove (id : string)
| EvCallEnded (peer : string) (session : string) (reason text : option string).

(** What the answer function hands to jingle's [ansFunc]. *)
Inductive AnsPayload :=
| PDecline (reason : string) (text : option string)
| PAccept (localStream : MediaStream) (muted : MutedState).

(** Everything the code does to its collaborators, in order. *)
Inductive Output :=
| OSend (self : nat) (m : Msg)
| OTrigger (self : nat) (e : RtcEvent)
| OInitiate (self : nat) (peer : option string) (me : string)
    (stream : option MediaStream) (muted : MutedState)
| OVidPause (v : Vid)
| OStreamStop (s : MediaStream)
| OAnsFunc (request : nat) (accept : bool) (p : AnsPayload)
| OSessMute (self : nat) (session : string) (state : bool) (what : MediaOptions).

(** ** The world *)

(** One [RtcSession] instance with its connection and its jingle plugin.
    [handlers] are the tokens handed out by [connection.addHandler] and not
    yet given to [deleteHandler]; [sessions] and [jid2session] are jingle's
    registries, in insertion order (the order [for .. in] walks them). *)
Record Inst := mkInst {
  conn_jid : string;
  _usedLocalStream : bool;
  handlers : list nat;
  next_token : nat;
  sessions : list (string * Session);
  jid2session : list (string * Session)
}.

(** The closure of one [startMediaCall]: its parameters, the variables
    [ansHandler], [declineHandler] and [sessStream] shared by the four
    racing callbacks, and what the platform still owes it (the
    getUserMedia answer, the answer timer). *)
Record Invitation := mkInvitation {
  inv_self : nat;
  targetJid : string;
  inv_options : MediaOptions;
  myJid : option string;
  isBroadcast : bool;
  ansHandler : option nat;
  declineHandler : option nat;
  sessStream : option MediaStream;
  media_pending : bool;
  timer_armed : bool
}.

(** The closure of one [onIncomingCallRequest]; [req_valid] is the state
    behind jingle's [reqStillValid]. *)
Record Incoming := mkIncoming {
  req_self : nat;
  req_from : string;
  req_valid : bool
}.

(** What [answer(accept, obj)] reads of [obj]. *)
Record AnswerObj := mkAnswerObj {
  obj_reason : option string;
  obj_text : option string;
  obj_mediaOptions : option MediaOptions
}.

(** One [answer(true, obj)] waiting for getUserMedia. *)
Record Activation := mkActivation {
  act_request : nat;
  act_obj : AnswerObj;
  act_pending : bool
}.

Record World := mkWorld {
  gLocalStream : option MediaStream;
  gLocalVid : option Vid;
  gLocalStreamRefcount : JsNum;
  insts : list Inst;
  invs : list Invitation;
  reqs : list Incoming;
  acts : list Activation;
  out : list Output
}.

(** The page before any RtcSession exists. *)
Definition init : World :=
  mkWorld None None JUndefined [] [] [] [] [].

(** *** Field updates *)

Definition set_gLocalStream (v : option MediaStream) (w : World) : World :=
  mkWorld v (gLocalVid w) (gLocalStreamRefcount w) (insts w) (invs w) (reqs w) (acts w) (out w).

Definition set_gLocalVid (v : option Vid) (w : World) : World :=
  mkWorld (gLocalStream w) v (gLocalStreamRefcount w) (insts w) (invs w) (reqs w) (acts w) (out w).

Definition set_refcount (v : JsNum) (w : World) : World :=
  mkWorld (gLocalStream w) (gLocalVid w) v (insts w) (invs w) (reqs w) (acts w) (out w).

Definition set_insts (v : list Inst) (w : World) : World :=
  mkWorld (gLocalStream w) (gLocalVid w) (gLocalStreamRefcount w) v (invs w) (reqs w) (acts w) (out w).

Definition set_invs (v : list Invitation) (w : World) : World :=
  mkWorld (gLocalStream w) (gLocalVid w) (gLocalStreamRefcount w) (insts w) v (reqs w) (acts w) (out w).

Definition set_reqs (v : list Incoming) (w : World) : World :=
  mkWorld (gLocalStream w) (gLocalVid w) (gLocalStreamRefcount w) (insts w) (invs w) v (acts w) (out w).

Definition set_acts (v : list Activation) (w : World) : World :=
  mkWorld (gLocalStream w) (gLocalVid w) (gLocalStreamRefcount w) (insts w) (invs w) (reqs w) v (out w).

Definition set_out (v : list Output) (w : World) : World :=
  mkWorld (gLocalStream w) (gLocalVid w) (gLocalStreamRefcount w) (insts w) (invs w) (reqs w) (acts w) v.

Definition set_used (b : bool) (x : Inst) : Inst :=
  mkInst (conn_jid x) b (handlers x) (next_token x) (sessions x) (jid2session x).

Definition set_handlers (h : list nat) (n : nat) (x : Inst) : Inst :=
  mkInst (conn_jid x) (_usedLocalStream x) h n (sessions x) (jid2session x).

Definition set_registry (s j : list (string * Session)) (x : Inst) : Inst :=
  mkInst (conn_jid x) (_usedLocalStream x) (handlers x) (next_token x) s j.

Definition set_handles (a d : option nat) (v : Invitation) : Invitation :=
  mkInvitation (inv_self v) (targetJid v) (inv_options v) (myJid v) (isBroadcast v)
    a d (sessStream v) (media_pending v) (timer_armed v).

Definition set_sessStream (s : option MediaStream) (v : Invitation) : Invitation :=
  mkInvitation (inv_self v) (targetJid v) (inv_options v) (myJid v) (isBroadcast v)
    (ansHandler v) (declineHandler v) s (media_pending v) (timer_armed v).

Definition set_media_pending (b : bool) (v : Invitation) : Invitation :=
  mkInvitation (inv_self v) (targetJid v) (inv_options v) (myJid v) (isBroadcast v)
    (ansHandler v) (declineHandler v) (sessStream v) b (timer_armed v).

Definition set_timer_armed (b : bool) (v : Invitation) : Invitation :=
  mkInvitation (inv_self v) (targetJid v) (inv_options v) (myJid v) (isBroadcast v)
    (ansHandler v) (declineHandler v) (sessStream v) (media_pending v) b.

Definition set_req_valid (b : bool) (r : Incoming) : Incoming :=
  mkIncoming (req_self r) (req_from r) b.

Definition set_act_pending (b : bool) (a : Activation) : Activation :=
  mkActivation (act_request a) (act_obj a) b.

(** ** The monad: state, and exceptions that unwind to the event loop *)

Inductive Res (A : Type) :=
| Ok (a : A) (w : World)
| Throw (e : string) (w : World).
Arguments Ok {A} a w.
Arguments Throw {A} e w.

Definition M (A : Type) : Type := World -> Res A.

Definition ret {A} (a : A) : M A := fun w => Ok a w.

Definition bind {A B} (m : M A) (f : A -> M B) : M B :=
  fun w => match m w with
           | Ok a w' => f a w'
           | Throw e w' => Throw e w'
           end.

Definition throw {A} (e : string) : M A := fun w => Throw e w.

Definition get : M World := fun w => Ok w w.

Definition modify (f : World -> World) : M unit := fun w => Ok tt (f w).

Notation "x <- m ;; k" := (bind m (fun x => k))
  (at level 100, m at level 99, k at level 200, right associativity).
Notation "m ;; k" := (bind m (fun _ => k))
  (at level 100, k at level 200, right associativity).

(** The world a computation leaves behind, whether it returned or threw. *)
Definition final {A} (r : Res A) : World :=
  match r with Ok _ w => w | Throw _ w => w end.

(** The value it returned, if it returned. *)
Definition result {A} (r : Res A) : option A :=
  match r with Ok a _ => Some a | Throw _ _ => None end.

(** *** Primitive effects *)

Definition upd_inst (i : nat) (f : Inst -> Inst) : M unit :=
  modify (fun w => set_insts (alter f i (insts w)) w).

Definition upd_inv (k : nat) (f : Invitation -> Invitation) : M unit :=
  modify (fun w => set_invs (alter f k (invs w)) w).

Definition emit (o : Output) : M unit :=
  modify (fun w => set_out (out w ++ [o]) w).

(** [$(self).trigger(name, payload)] *)
Definition trigger (i : nat) (e : RtcEvent) : M unit := emit (OTrigger i e).

(** [self.connection.send(msg)] *)
Definition send (i : nat) (m : Msg) : M unit := emit (OSend i m).

(** [connection.addHandler(...)]: a fresh handler reference. *)
Definition addHandler (i : nat) : M nat :=
  w <- get ;;
  match insts w !! i with
  | Some x =>
      let t := next_token x in
      upd_inst i (set_handlers (handlers x ++ [t]) (S t)) ;;
      ret t
  | None => ret 0
  end.

(** [connection.deleteHandler(h)] *)
Definition deleteHandler (i : nat) (h : option nat) : M unit :=
  match h with
  | Some t =>
      upd_inst i (fun x =>
        set_handlers (List.filter (fun u => negb (Nat.eqb u t)) (handlers x)) (next_token x) x)
  | None => ret tt
  end.

Definition used_of (w : World) (i : nat) : bool :=
  match insts w !! i with Some x => _usedLocalStream x | None => false end.

Definition sessions_of (w : World) (i : nat) : list (string * Session) :=
  match insts w !! i with Some x => sessions x | None => [] end.

Definition jid2session_of (w : World) (i : nat) : list (string * Session) :=
  match insts w !! i with Some x => jid2session x | None => [] end.

(** ** The local stream and its reference count *)

Definition _refLocalStream (i : nat) : M unit :=
  upd_inst i (set_used true) ;;
  modify (fun w => set_refcount (js_inc (gLocalStreamRefcount w)) w).

Definition _unrefLocalStream (i : nat) : M unit :=
  w <- get ;;
  if negb (used_of w i) then ret tt
  else
    upd_inst i (set_used false) ;;
    let cnt := js_dec (gLocalStreamRefcount w) in
    modify (set_refcount cnt) ;;
    if js_gt0 cnt then ret tt
    else
      match gLocalStream w with
      | None => ret tt
      | Some s =>
          trigger i (EvLocalPlayerRemove (gLocalVid w)) ;;
          match gLocalVid w with
          | None => throw "TypeError: RtcSession.gLocalVid is null"
          | Some v =>
              emit (OVidPause v) ;;
              modify (set_gLocalVid None) ;;
              emit (OStreamStop s) ;;
              modify (set_gLocalStream None)
          end
      end.

Definition _freeLocalStreamIfUnused (i : nat) : M unit :=
  w <- get ;;
  if (0 <? List.length (sessions_of w i))%nat then ret tt
  else _unrefLocalStream i.

(** ** Obtaining the local stream *)

Definition _onMediaReady (i : nat) (localStream : MediaStream) : M unit :=
  w <- get ;;
  let elemClass :=
    if (List.length (getVideoTracks localStream) <? 1)%nat
    then "localViewport localNoVideo" else "localViewport" in
  match gLocalVid w with
  | Some _ => throw "Local stream just obtained, but localVid was not null"
  | None =>
      let vid := mkVid elemClass in
      modify (set_gLocalVid (Some vid)) ;;
      trigger i (EvLocalStreamObtained localStream vid)
  end.

(** [_myGetUserMedia] up to the point where it either calls back at once or
    hands the request to the platform ([request] records that the platform
    owes an answer). *)
Definition _myGetUserMedia (i : nat) (options : MediaOptions)
    (successCallback : MediaStream -> M unit) (request : M unit) : M unit :=
  w <- get ;;
  match gLocalStream w with
  | Some s =>
      let sessStream := cloneMediaStream s options in
      _refLocalStream i ;;
      successCallback sessStream
  | None => request
  end.

(** The success function [_myGetUserMedia] gives to the platform. *)
Definition getUserMedia_onSuccess (i : nat) (options : MediaOptions)
    (successCallback : MediaStream -> M unit) (stream : MediaStream) : M unit :=
  modify (set_gLocalStream (Some stream)) ;;
  modify (set_refcount (JNum 0)) ;;
  let sessStream := cloneMediaStream stream options in
  _refLocalStream i ;;
  _onMediaReady i stream ;;
  successCallback sessStream.

(** The error function: [error] is the name of the error object if there is
    one, [e] the second argument. *)
Definition getUserMedia_onError (i : nat) (errCallback : option (string -> M unit))
    (error : option string) (e : string) : M unit :=
  let msg := match error with Some name => name | None => e end in
  match errCallback with Some cb => cb msg | None => ret tt end ;;
  trigger i (EvLocalMediaFail msg).

(** ** [startMediaCall] and its four racing callbacks *)

Definition bothMedia : MediaOptions := mkOptions true true.

(** [mediaOptionsToMutedState(options, sessStream)] where [sessStream] may
    have been nulled: the stream is only dereferenced for a channel that is
    not requested. *)
Definition mutedStateOf (options : MediaOptions) (stream : option MediaStream) : option MutedState :=
  match stream with
  | Some s => Some (mediaOptionsToMutedState options s)
  | None => if audio options && video options then Some (mkMuted false false) else None
  end.

Definition self_jid (w : World) (i : nat) : string :=
  match insts w !! i with Some x => conn_jid x | None => "" end.

(** The success callback: register both handlers, send the invitation, start
    the answer timer. *)
Definition startMediaCall_onMedia (k : nat) (stream : MediaStream) : M unit :=
  w <- get ;;
  match invs w !! k with
  | None => ret tt
  | Some v =>
      let self := inv_self v in
      upd_inv k (set_sessStream (Some stream)) ;;
      a <- addHandler self ;;
      upd_inv k (set_handles (Some a) None) ;;
      d <- addHandler self ;;
      upd_inv k (set_handles (Some a) (Some d)) ;;
      send self (mkMsg (targetJid v) "megaCall" None None) ;;
      upd_inv k (set_timer_armed true)
  end.

(** The [megaCallAnswer] handler. *)
Definition startMediaCall_onAnswer (k : nat) (stanza : Stanza) : M unit :=
  w <- get ;;
  match invs w !! k with
  | None => ret tt
  | Some v =>
      match ansHandler v with
      | None => ret tt
      | Some _ =>
          let self := inv_self v in
          deleteHandler self (declineHandler v) ;;
          upd_inv k (set_handles None None) ;;
          let fullPeerJid := st_from stanza in
          (if isBroadcast v
           then send self (mkMsg (getBareJidFromJid (targetJid v)) "megaNotifyCallHandled"
                             fullPeerJid (Some "1"))
           else ret tt) ;;
          match mutedStateOf (inv_options v) (sessStream v) with
          | None => throw "TypeError: stream is null"
          | Some muted =>
              emit (OInitiate self fullPeerJid
                      (if truthy (myJid v) then default "" (myJid v) else self_jid w self)
                      (sessStream v) muted) ;;
              trigger self (EvCallInit fullPeerJid)
          end
      end
  end.

(** The [megaCallDecline] handler. *)
Definition startMediaCall_onDecline (k : nat) (stanza : Stanza) : M unit :=
  w <- get ;;
  match invs w !! k with
  | None => ret tt
  | Some v =>
      match ansHandler v with
      | None => ret tt
      | Some a =>
          let self := inv_self v in
          deleteHandler self (Some a) ;;
          upd_inv k (set_handles None None) ;;
          upd_inv k (set_sessStream None) ;;
          _freeLocalStreamIfUnused self ;;
          let body := st_body stanza in
          let fullPeerJid := st_from stanza in
          (if isBroadcast v
           then send self (mkMsg (getBareJidFromJid (targetJid v)) "megaNotifyCallHandled"
                             fullPeerJid (Some "0"))
           else ret tt) ;;
          trigger self (EvCallDeclined fullPeerJid (st_reason stanza)
                          (match body with b :: _ => Some (xmlUnescape b) | [] => None end))
      end
  end.

(** The function given to [setTimeout]. *)
Definition startMediaCall_onTimeout (k : nat) : M unit :=
  w <- get ;;
  match invs w !! k with
  | None => ret tt
  | Some v =>
      match ansHandler v with
      | None => ret tt
      | Some a =>
          let self := inv_self v in
          deleteHandler self (Some a) ;;
          upd_inv k (set_handles None (declineHandler v)) ;;
          deleteHandler self (declineHandler v) ;;
          upd_inv k (set_handles None None) ;;
          upd_inv k (set_sessStream None) ;;
          _freeLocalStreamIfUnused self ;;
          send self (mkMsg (getBareJidFromJid (targetJid v)) "megaCallCancel" None None) ;;
          trigger self (EvCallAnswerTimeout (targetJid v))
      end
  end.

(** The [cancel()] method of the returned object. *)
Definition startMediaCall_cancel (k : nat) : M bool :=
  w <- get ;;
  match invs w !! k with
  | None => ret false
  | Some v =>
      match ansHandler v with
      | None => ret false
      | Some a =>
          let self := inv_self v in
          deleteHandler self (Some a) ;;
          upd_inv k (set_handles None (declineHandler v)) ;;
          deleteHandler self (declineHandler v) ;;
          upd_inv k (set_handles None None) ;;
          _freeLocalStreamIfUnused self ;;
          send self (mkMsg (getBareJidFromJid (targetJid v)) "megaCallCancel" None None) ;;
          ret true
      end
  end.

(** [startMediaCall]: a new closure, then the request for media.  The
    returned number stands for the object with the [cancel()] method. *)
Definition startMediaCall (i : nat) (target : string) (options : MediaOptions)
    (my : option string) : M nat :=
  w <- get ;;
  let k := List.length (invs w) in
  let isBroadcast := negb (truthy (getResourceFromJid target)) in
  modify (set_invs (invs w ++
    [mkInvitation i target options my isBroadcast None None None false false])) ;;
  _myGetUserMedia i bothMedia (startMediaCall_onMedia k)
    (upd_inv k (set_media_pending true)) ;;
  ret k.

(** ** [onIncomingCallRequest] and the answer function *)

(** Modelled from the spec: jingle's [ansFunc] is declared outside this
    file; the spec says that replying succeeds while the request is valid.
    The reply is logged and reported as delivered. *)
Definition ansFunc (r : nat) (accept : bool) (p : AnsPayload) : M bool :=
  emit (OAnsFunc r accept p) ;;
  ret true.

Definition answer_onMedia (r : nat) (obj : AnswerObj) (sessStream : MediaStream) : M unit :=
  match obj_mediaOptions obj with
  | None => throw "TypeError: options is undefined"
  | Some mo =>
      ansFunc r true (PAccept sessStream (mediaOptionsToMutedState mo sessStream)) ;;
      ret tt
  end.

Definition media_error_text (err : string) : string :=
  "There was a problem accessing user's camera or microphone. Error: " +:+ err.

Definition answer_onError (r : nat) (err : string) : M unit :=
  ansFunc r false (PDecline "error" (Some (media_error_text err))) ;;
  ret tt.

(** The [answer] function handed out in the [call-incoming-request] event;
    [reqStillValid()] reads the request's current validity. *)
Definition answer (r : nat) (accept : bool) (obj : AnswerObj) : M bool :=
  w <- get ;;
  match reqs w !! r with
  | None => ret false
  | Some q =>
      if negb (req_valid q) then ret false
      else if negb accept then
        ansFunc r false
          (PDecline (if truthy (obj_reason obj) then default "" (obj_reason obj) else "busy")
                    (obj_text obj))
      else
        _myGetUserMedia (req_self q) bothMedia (answer_onMedia r obj)
          (w' <- get ;; modify (set_acts (acts w' ++ [mkActivation r obj true]))) ;;
        ret true
  end.

Definition onIncomingCallRequest (i : nat) (from : string) : M nat :=
  w <- get ;;
  let r := List.length (reqs w) in
  modify (set_reqs (reqs w ++ [mkIncoming i from true])) ;;
  trigger i (EvCallIncomingRequest from r) ;;
  ret r.

(** ** Sessions *)

Fixpoint assoc_set {A} (k : string) (v : A) (l : list (string * A)) : list (string * A) :=
  match l with
  | [] => [(k, v)]
  | (k', v') :: r =>
      if String.eqb k k' then (k, v) :: r else (k', v') :: assoc_set k v r
  end.

Definition assoc_del {A} (k : string) (l : list (string * A)) : list (string * A) :=
  List.filter (fun p => negb (String.eqb (fst p) k)) l.

Definition assoc_has {A} (k : string) (l : list (string * A)) : bool :=
  existsb (fun p => String.eqb (fst p) k) l.

Definition removeVideo (i : nat) (sess : Session) : M unit :=
  trigger i (EvRemotePlayerRemove ("#remotevideo_" +:+ sid sess)).

Definition onCallTerminated (i : nat) (sess : Session) (reason text : option string) : M unit :=
  match localStream sess with
  | Some s => emit (OStreamStop s)
  | None => ret tt
  end ;;
  removeVideo i sess ;;
  trigger i (EvCallEnded (peerjid sess) (sid sess) reason text) ;;
  _freeLocalStreamIfUnused i.

(** Modelled from the spec: the session registry belongs to jingle.
    Registering a second session for a peer that already has one is
    rejected. *)
Definition jingle_register (i : nat) (sess : Session) : M unit :=
  upd_inst i (fun x =>
    if assoc_has (peerjid sess) (jid2session x) then x
    else set_registry (assoc_set (sid sess) sess (sessions x))
                      (assoc_set (peerjid sess) sess (jid2session x)) x).

(** Modelled from the spec: terminating a session unregisters it and then
    reports it through [onCallTerminated], so that the release that follows
    sees whether it was the last one. *)
Definition jingle_terminate (i : nat) (sess : Session) (reason text : option string) : M unit :=
  upd_inst i (fun x =>
    set_registry (assoc_del (sid sess) (sessions x))
                 (assoc_del (peerjid sess) (jid2session x)) x) ;;
  onCallTerminated i sess reason text.

Fixpoint terminate_each (i : nat) (l : list Session) (reason text : option string) : M unit :=
  match l with
  | [] => ret tt
  | s :: r => jingle_terminate i s reason text ;; terminate_each i r reason text
  end.

(** Modelled from the spec: [jingle.terminateAll] terminates every
    registered session. *)
Definition terminateAll (i : nat) (reason text : option string) : M unit :=
  w <- get ;;
  terminate_each i (List.map snd (sessions_of w i)) reason text.

Definition same_bare (a b : string) : bool :=
  String.eqb (getBareJidFromJid a) (getBareJidFromJid b).

(** Modelled from the spec: [jingle.terminateByJid] terminates every
    session of the peer's bare identity. *)
Definition terminateByJid (i : nat) (jid : string) : M unit :=
  w <- get ;;
  terminate_each i
    (List.map snd (List.filter (fun p => same_bare (fst p) jid) (jid2session_of w i)))
    None None.

Definition hangup (i : nat) (jid : option string) : M unit :=
  if truthy jid then terminateByJid i (default "" jid)
  else terminateAll i None None.

Definition destroy (i : nat) : M unit :=
  hangup i None ;;
  _unrefLocalStream i.

Definition _onPresenceUnavailable (i : nat) (from : string) : M unit :=
  terminateByJid i from.

Inductive Status :=
| ERROR | CONNECTING | CONNFAIL | AUTHENTICATING | AUTHFAIL
| CONNECTED | DISCONNECTED | DISCONNECTING | ATTACHED.

(** [onConnectionEvent] is stored on the jingle plugin and runs with [this]
    bound to it: [terminateAll], [connection] and the relay credentials are
    the plugin's.  [_freeLocalStreamIfUnused] is a method of [RtcSession]
    and is never put on the plugin, so [this._freeLocalStreamIfUnused()]
    calls [undefined]: once the sessions are terminated the handler throws.
    Fetching relay credentials has no effect on the state modelled here. *)
Definition onConnectionEvent (i : nat) (status : Status) : M unit :=
  match status with
  | CONNFAIL | DISCONNECTING =>
      terminateAll i None None ;;
      throw "TypeError: this._freeLocalStreamIfUnused is not a function"
  | CONNECTED =>
      addHandler i ;;
      ret tt
  | _ => ret tt
  end.

(** ** Mute *)

Definition _getSessionsForJid (i : nat) (jid : option string) : M (option (list Session)) :=
  w <- get ;;
  if negb (truthy jid) then
    let sessions := List.map snd (sessions_of w i) in
    if (List.length sessions <? 1)%nat then ret None else ret (Some sessions)
  else
    let bare := getBareJidFromJid (default "" jid) in
    ret (Some (List.map snd
      (List.filter (fun p => String.eqb (getBareJidFromJid (fst p)) bare) (jid2session_of w i)))).

Fixpoint mute_each (i : nat) (state : bool) (what : MediaOptions) (l : list Session) : M unit :=
  match l with
  | [] => ret tt
  | s :: r => emit (OSessMute i (sid s) state what) ;; mute_each i state what r
  end.

Definition muteUnmute (i : nat) (state : bool) (what : MediaOptions) (jid : option string) : M bool :=
  sessions <- _getSessionsForJid i jid ;;
  match sessions with
  | None => ret false
  | Some l => mute_each i state what l ;; ret true
  end.

(** ** The event loop *)

(** What a call from outside returns: nothing, a boolean, or the object with
    the [cancel()] method of invitation [k]. *)
Inductive JsRet :=
| RUndefined
| RBool (b : bool)
| RHandle (k : nat).

(** Which getUserMedia request the platform answers: the one of invitation
    [k], or the one of activation [a] of an answer function. *)
Inductive MediaRequest :=
| ForInvitation (k : nat)
| ForAnswer (a : nat).

(** Everything that can call into the code: the application
    ([ANew], [AStartMediaCall], [ACancel], [AAnswer], [AHangup],
    [AMuteUnmute], [ADestroy], [AUnref]), the platform ([AMediaGranted],
    [AMediaDenied], [ATimeout]), the transport ([ARecvAnswer],
    [ARecvDecline], [AConnection], [APresenceUnavailable]) and jingle
    ([AIncoming], [AExpire], [ASessionAdded], [ASessionEnded]).  A message
    handler may be invoked whether or not it is still registered: the
    transport removes handlers lazily, which is why the source guards them. *)
Inductive Action :=
| ANew (jid : string)
| AStartMediaCall (i : nat) (target : string) (options : MediaOptions) (my : option string)
| AMediaGranted (q : MediaRequest) (stream : MediaStream)
| AMediaDenied (q : MediaRequest) (error : option string) (e : string)
| ARecvAnswer (k : nat) (stanza : Stanza)
| ARecvDecline (k : nat) (stanza : Stanza)
| ATimeout (k : nat)
| ACancel (k : nat)
| AIncoming (i : nat) (from : string)
| AExpire (r : nat)
| AAnswer (r : nat) (accept : bool) (obj : AnswerObj)
| ASessionAdded (i : nat) (sess : Session)
| ASessionEnded (i : nat) (sess : Session) (reason text : option string)
| AConnection (i : nat) (status : Status)
| APresenceUnavailable (i : nat) (from : string)
| AHangup (i : nat) (jid : option string)
| AMuteUnmute (i : nat) (state : bool) (what : MediaOptions) (jid : option string)
| ADestroy (i : nat)
| AUnref (i : nat).

Definition undef (m : M unit) : M JsRet := m ;; ret RUndefined.

Definition boolean (m : M bool) : M JsRet := b <- m ;; ret (RBool b).

(** Run [m] if instance [i] exists. *)
Definition on_inst (i : nat) (m : M JsRet) : M JsRet :=
  w <- get ;;
  match insts w !! i with
  | Some _ => m
  | None => ret RUndefined
  end.

Definition media_granted (q : MediaRequest) (stream : MediaStream) : M unit :=
  w <- get ;;
  match q with
  | ForInvitation k =>
      match invs w !! k with
      | Some v =>
          if media_pending v then
            upd_inv k (set_media_pending false) ;;
            getUserMedia_onSuccess (inv_self v) bothMedia (startMediaCall_onMedia k) stream
          else ret tt
      | None => ret tt
      end
  | ForAnswer a =>
      match acts w !! a with
      | Some c =>
          if act_pending c then
            modify (fun w' => set_acts (alter (set_act_pending false) a (acts w')) w') ;;
            match reqs w !! act_request c with
            | Some rq =>
                getUserMedia_onSuccess (req_self rq) bothMedia
                  (answer_onMedia (act_request c) (act_obj c)) stream
            | None => ret tt
            end
          else ret tt
      | None => ret tt
      end
  end.

Definition media_denied (q : MediaRequest) (error : option string) (e : string) : M unit :=
  w <- get ;;
  match q with
  | ForInvitation k =>
      match invs w !! k with
      | Some v =>
          if media_pending v then
            upd_inv k (set_media_pending false) ;;
            getUserMedia_onError (inv_self v) None error e
          else ret tt
      | None => ret tt
      end
  | ForAnswer a =>
      match acts w !! a with
      | Some c =>
          if act_pending c then
            modify (fun w' => set_acts (alter (set_act_pending false) a (acts w')) w') ;;
            match reqs w !! act_request c with
            | Some rq =>
                getUserMedia_onError (req_self rq) (Some (answer_onError (act_request c))) error e
            | None => ret tt
            end
          else ret tt
      | None => ret tt
      end
  end.

(** The answer timer fires at most once, and only after it was started. *)
Definition timer_fires (k : nat) : M unit :=
  w <- get ;;
  match invs w !! k with
  | Some v =>
      if timer_armed v then
        upd_inv k (set_timer_armed false) ;;
        startMediaCall_onTimeout k
      else ret tt
  | None => ret tt
  end.

Definition step (a : Action) : M JsRet :=
  match a with
  | ANew jid =>
      undef (modify (fun w => set_insts (insts w ++ [mkInst jid false [] 1 [] []]) w))
  | AStartMediaCall i target options my =>
      on_inst i (k <- startMediaCall i target options my ;; ret (RHandle k))
  | AMediaGranted q stream => undef (media_granted q stream)
  | AMediaDenied q error e => undef (media_denied q error e)
  | ARecvAnswer k stanza => undef (startMediaCall_onAnswer k stanza)
  | ARecvDecline k stanza => undef (startMediaCall_onDecline k stanza)
  | ATimeout k => undef (timer_fires k)
  | ACancel k => boolean (startMediaCall_cancel k)
  | AIncoming i from => on_inst i (undef (onIncomingCallRequest i from ;; ret tt))
  | AExpire r =>
      undef (modify (fun w => set_reqs (alter (set_req_valid false) r (reqs w)) w))
  | AAnswer r accept obj => boolean (answer r accept obj)
  | ASessionAdded i sess => on_inst i (undef (jingle_register i sess))
  | ASessionEnded i sess reason text => on_inst i (undef (jingle_terminate i sess reason text))
  | AConnection i status => on_inst i (undef (onConnectionEvent i status))
  | APresenceUnavailable i from => on_inst i (undef (_onPresenceUnavailable i from))
  | AHangup i jid => on_inst i (undef (hangup i jid))
  | AMuteUnmute i state what jid => on_inst i (boolean (muteUnmute i state what jid))
  | ADestroy i => on_inst i (undef (destroy i))
  | AUnref i => on_inst i (undef (_unrefLocalStream i))
  end.

(** One turn of the event loop: an exception is reported and the page goes
    on with the state the throwing code left. *)
Definition exec (a : Action) (w : World) : World := final (step a w).

Fixpoint run (tr : list Action) (w : World) : World :=
  match tr with
  | [] => w
  | a :: r => run r (exec a w)
  end.

(** * Reports and remote media

    The functions below touch none of the state above: they turn what
    jingle and the player report into events. *)

(** ** [onJingleError] *)





(** ** [waitForRemoteMedia] and [onMediaRecv] *)

(** The remote video element that [waitForRemoteMedia] watches. *)
Record Player := mkPlayer {
  player_id : string;
  player_class : string
}.

(** What one call of [waitForRemoteMedia] reads: whether jingle still knows
    the session ([jingle.sessionIsValid(sess)]), the player's [currentTime]
    in seconds, and the session's [remoteStream]. *)
Record Reading := mkReading {
  valid : bool;
  currentTime : Q;
  remoteStream : MediaStream
}.

(** What the two functions do to their collaborators. *)
Inductive RemoteOutput :=
| OMediaRecv (self : nat) (peer : string) (sess : string) (stream : MediaStream) (player : Player)
| OAttachMediaStream (player : Player) (stream : MediaStream)
| OSetTimeout (ms : nat).

(** [playerElem[0].currentTime > 0] *)
Definition playing (r : Reading) : bool := negb (Qle_bool (currentTime r) 0).

(** [onMediaRecv]: the [media-recv] event, or the exception of its error
    branch, which reads a variable [sid] that is not declared. *)
Definition onMediaRecv (i : nat) (playerElem : Player) (sess : Session) (now : Reading)
    (stream : MediaStream) : string + list RemoteOutput :=
  if negb (valid now) then inl "ReferenceError: sid is not defined"
  else inr [OMediaRecv i (peerjid sess) (sid sess) stream playerElem].

(** One call of [waitForRemoteMedia]: what it does, and whether it has
    asked to be called again in 200 ms. *)
Definition waitForRemoteMedia_once (i : nat) (playerElem : Player) (sess : Session)
    (now : Reading) : (string + list RemoteOutput) * bool :=
  if negb (valid now) then (inr [], false)
  else if playing now then
    match onMediaRecv i playerElem sess now (remoteStream now) with
    | inl e => (inl e, false)
    | inr o => (inr (o ++ [OAttachMediaStream playerElem (remoteStream now)])%list, false)
    end
  else (inr [OSetTimeout 200], true).

(** [waitForRemoteMedia] with the timers it sets: [now] is read by the call
    itself, [later] by the calls the timers make, in order.  The result is
    everything done, and whether a timer is still pending when the readings
    are used up. *)
Fixpoint waitForRemoteMedia (i : nat) (playerElem : Player) (sess : Session)
    (now : Reading) (later : list Reading) : (string + list RemoteOutput) * bool :=
  match waitForRemoteMedia_once i playerElem sess now with
  | (inr o, true) =>
      match later with
      | [] => (inr o, true)
      | next :: rest =>
          match waitForRemoteMedia i playerElem sess next rest with
          | (inr o', pending) => (inr (o ++ o')%list, pending)
          | (inl e, pending) => (inl e, pending)
          end
      end
  | r => r
  end.

(** ** The volume monitor *)

(** What [hark(stream, {interval: 400})] is asked to watch. *)
Record VolMon := mkVolMon {
  vm_stream : option MediaStream;
  vm_interval : nat
}.

(** The statics [gVolMon] and [gVolMonCallback]; a callback is known by a
    number. *)
Record VolState := mkVolState {
  gVolMon : option VolMon;
  gVolMonCallback : option nat
}.

(** Both start out [null]. *)
Definition vol_init : VolState := mkVolState None None.

Definition volMonAttachCallback (cb : option nat) (v : VolState) : VolState :=
  mkVolState (gVolMon v) cb.

(** [RtcSession._maybeCreateVolMon]; [hark] tells whether the library is
    loaded. *)
Definition _maybeCreateVolMon (hark : bool) (w : World) (v : VolState) : bool * VolState :=
  match gVolMon v with
  | Some _ => (true, v)
  | None =>
      match gVolMonCallback v with
      | None => (false, v)
      | Some _ =>
          if negb hark then (false, v)
          else (true, mkVolState (Some (mkVolMon (gLocalStream w) 400)) (gVolMonCallback v))
      end
  end.

(** The level in percent that the [volume_change] handler computes from
    the volume in decibels, in the arithmetic of JavaScript numbers. *)
Definition volume_level (volume : float) : float :=
  if PrimFloat.ltb (-35)%float volume then 100%float
  else if PrimFloat.ltb (-60)%float volume
       then PrimFloat.sub
              (PrimFloat.div (PrimFloat.mul (PrimFloat.add volume 100%float) 100%float) 25%float)
              160%float
       else 0%float.

(** The handler itself: it calls the callback that is registered when the
    event arrives. *)
Definition on_volume_change (volume : float) (v : VolState) : string + (nat * float) :=
  match gVolMonCallback v with
  | Some cb => inr (cb, volume_level volume)
  | None => inl "TypeError: RtcSession.gVolMonCallback is not a function"
  end.

(** * What the theorems speak about

    The predicates, the protocol of the specification and the scenarios
    used in the statements below. *)

(** ** Properties of computations *)

(** [m] keeps the property [P] of the world, whether it returns or throws. *)
Definition preserves {A} (P : World -> Prop) (m : M A) : Prop :=
  forall w, P w -> P (final (m w)).

(** [m] takes a world satisfying [Pre] to one satisfying [Post]. *)
Definition hoare {A} (Pre : World -> Prop) (m : M A) (Post : World -> Prop) : Prop :=
  forall w, Pre w -> Post (final (m w)).

(** [m] never throws. *)
Definition returns {A} (m : M A) : Prop := forall w, exists a w', m w = Ok a w'.

(** [m] returns normally from every world that satisfies [P], and keeps
    [P]. *)
Definition safe {A} (P : World -> Prop) (m : M A) : Prop :=
  forall w, P w -> exists a w', m w = Ok a w' /\ P w'.

(** ** The shared stream *)

(** The shared stream is open exactly when the count is positive, and an
    open stream has its player. *)
Definition stream_inv (w : World) : Prop :=
  (is_Some (gLocalStream w) <-> js_gt0 (gLocalStreamRefcount w) = true) /\
  (is_Some (gLocalStream w) -> is_Some (gLocalVid w)).

(** The world after [_refLocalStream]. *)
Definition referenced (i : nat) (w : World) : World :=
  mkWorld (gLocalStream w) (gLocalVid w) (js_inc (gLocalStreamRefcount w))
    (alter (set_used true) i (insts w)) (invs w) (reqs w) (acts w) (out w).

(** The world after the platform delivered [stream] and the player was
    created. *)
Definition granted (i : nat) (stream : MediaStream) (w : World) : World :=
  let vid := mkVid (if (List.length (getVideoTracks stream) <? 1)%nat
                    then "localViewport localNoVideo" else "localViewport") in
  mkWorld (Some stream) (Some vid) (JNum 1)
    (alter (set_used true) i (insts w)) (invs w) (reqs w) (acts w)
    (out w ++ [OTrigger i (EvLocalStreamObtained stream vid)]).

(** What one release by instance [i] makes of the count [n0] when its flag
    was [u0]. *)
Definition count_after_release (u0 : bool) (n0 : JsNum) : JsNum :=
  if u0 then js_dec n0 else n0.

(** Instance [i] has released its reference once. *)
Definition released_once (i : nat) (u0 : bool) (n0 : JsNum) (w : World) : Prop :=
  used_of w i = false /\ gLocalStreamRefcount w = count_after_release u0 n0.

(** Either nothing has been released yet, or instance [i] has released its
    reference once. *)
Definition released_at_most_once (i : nat) (u0 : bool) (n0 : JsNum) (w : World) : Prop :=
  (used_of w i = u0 /\ gLocalStreamRefcount w = n0) \/
  (used_of w i = false /\ gLocalStreamRefcount w = count_after_release u0 n0).

(** Instance [i] holds no reference, and the shared stream is as given. *)
Definition released_holder (i : nat) (s : option MediaStream) (v : option Vid) (n : JsNum)
    (w : World) : Prop :=
  used_of w i = false /\ gLocalStream w = s /\ gLocalVid w = v /\ gLocalStreamRefcount w = n.

(** What C4 asks of the stream once the connection is lost. *)
Definition force_released (w : World) : Prop :=
  gLocalStream w = None /\ gLocalStreamRefcount w = JNum 0.

(** What a teardown does to its observers: the notification while the
    player still exists, then the player is paused and the stream stopped. *)
Definition teardown (i : nat) (s : MediaStream) (v : Vid) : list Output :=
  [OTrigger i (EvLocalPlayerRemove (Some v)); OVidPause v; OStreamStop s].

(** ** Invitations and their closures *)

(** The closure of invitation [k] holds [v]. *)
Definition inv_at (k : nat) (v : Invitation) (w : World) : Prop :=
  invs w !! k = Some v.

Definition invs_length (n : nat) (w : World) : Prop := List.length (invs w) = n.

(** Invitation [k], if it exists, no longer waits for an answer. *)
Definition handles_clear (w : World) (k : nat) : Prop :=
  forall v, invs w !! k = Some v -> ansHandler v = None.

(** The closure as [startMediaCall] creates it. *)
Definition fresh_invitation (i : nat) (target : string) (o : MediaOptions)
    (my : option string) : Invitation :=
  mkInvitation i target o my (negb (truthy (getResourceFromJid target)))
    None None None false false.

(** What a callback that passes the guard leaves in the closure: the two
    handler references cleared, and, for those that drop the stream clone,
    [sessStream] cleared as well. *)
Definition resolved (v : Invitation) : Invitation :=
  set_handles None None v.

Definition released (v : Invitation) : Invitation :=
  set_sessStream None (set_handles None None v).

(** The world in which the platform's answer for invitation [k] arrives. *)
Definition answered (k : nat) (w : World) : World :=
  set_invs (alter (set_media_pending false) k (invs w)) w.

(** The world in which the answer timer of invitation [k] has just fired. *)
Definition expired (k : nat) (w : World) : World :=
  set_invs (alter (set_timer_armed false) k (invs w)) w.


(** The invitation an action addresses, if any. *)
Definition addresses (a : Action) : option nat :=
  match a with
  | AMediaGranted (ForInvitation k) _ => Some k
  | AMediaDenied (ForInvitation k) _ _ => Some k
  | ARecvAnswer k _ => Some k
  | ARecvDecline k _ => Some k
  | ATimeout k => Some k
  | ACancel k => Some k
  | _ => None
  end.

Definition is_start (a : Action) : bool :=
  match a with AStartMediaCall _ _ _ _ => true | _ => false end.

(** ** The invitation protocol, in the words of the specification *)

(** The states of section 4.3, with [NotCreated] for an invitation that
    [startMediaCall] has not been called for yet. *)
Inductive Phase :=
| NotCreated
| Idle
| AwaitingAnswer
| Accepted
| Declined
| Canceled
| TimedOut.

Inductive InvEvent :=
| Started
| MediaAcquired
| MediaFailed
| AcceptReceived
| DeclineReceived
| DeadlineElapsed
| CancelRequested.

(** The transitions as the specification words them: media acquisition
    takes [Idle] to [AwaitingAnswer] (a failure leaves it in [Idle]); from
    [AwaitingAnswer] the first of accept, decline, deadline and cancel
    decides; the four outcomes are terminal. *)
Definition spec_next (ph : Phase) (e : InvEvent) : Phase :=
  match ph, e with
  | NotCreated, Started => Idle
  | Idle, MediaAcquired => AwaitingAnswer
  | AwaitingAnswer, AcceptReceived => Accepted
  | AwaitingAnswer, DeclineReceived => Declined
  | AwaitingAnswer, DeadlineElapsed => TimedOut
  | AwaitingAnswer, CancelRequested => Canceled
  | _, _ => ph
  end.

Definition is_none {A} (o : option A) : bool :=
  match o with None => true | Some _ => false end.

(** What invitation [k] sees of an action that happens at world [w].  The
    world tells what the platform does: whether the stream is already open
    when the call starts, whether it still owes the invitation an answer or
    a timer, and whether the player slot is free when the answer comes. *)
Definition observe (k : nat) (a : Action) (w : World) : list InvEvent :=
  match a with
  | AStartMediaCall i _ _ _ =>
      if Nat.eqb k (List.length (invs w)) && negb (is_none (insts w !! i))
      then Started :: (if is_none (gLocalStream w) then [] else [MediaAcquired])
      else []
  | AMediaGranted (ForInvitation k') _ =>
      match invs w !! k' with
      | Some v =>
          if Nat.eqb k k' && media_pending v
          then [if is_none (gLocalVid w) then MediaAcquired else MediaFailed]
          else []
      | None => []
      end
  | AMediaDenied (ForInvitation k') _ _ =>
      match invs w !! k' with
      | Some v => if Nat.eqb k k' && media_pending v then [MediaFailed] else []
      | None => []
      end
  | ARecvAnswer k' _ => if Nat.eqb k k' then [AcceptReceived] else []
  | ARecvDecline k' _ => if Nat.eqb k k' then [DeclineReceived] else []
  | ATimeout k' =>
      match invs w !! k' with
      | Some v => if Nat.eqb k k' && timer_armed v then [DeadlineElapsed] else []
      | None => []
      end
  | ACancel k' => if Nat.eqb k k' then [CancelRequested] else []
  | _ => []
  end.

(** The protocol state of invitation [k] after the actions [tr], started in
    state [ph] at world [w]. *)
Fixpoint phase_run (k : nat) (tr : list Action) (w : World) (ph : Phase) : Phase :=
  match tr with
  | [] => ph
  | a :: r => phase_run k r (exec a w) (fold_left spec_next (observe k a w) ph)
  end.

Definition phase_of (tr : list Action) (k : nat) : Phase :=
  phase_run k tr init NotCreated.

(** How the closure variables stand for the protocol state. *)
Definition refines (w : World) (k : nat) (ph : Phase) : Prop :=
  match ph with
  | NotCreated => List.length (invs w) <= k
  | Idle => exists v, inv_at k v w /\ ansHandler v = None
  | AwaitingAnswer =>
      exists v, inv_at k v w /\ is_Some (ansHandler v) /\ is_Some (declineHandler v) /\
                media_pending v = false /\ timer_armed v = true /\ is_Some (sessStream v)
  | _ => exists v, inv_at k v w /\ ansHandler v = None /\ media_pending v = false
  end.

Definition settled (ph : Phase) : Prop :=
  ph <> NotCreated /\ ph <> AwaitingAnswer.

(** The four outcomes are final. *)
Definition terminal (ph : Phase) : Prop :=
  ph = Accepted \/ ph = Declined \/ ph = Canceled \/ ph = TimedOut.

(** ** Resolving an invitation *)

(** What the caller and the peer get to see. *)
Definition invitation_message (v : Invitation) : Output :=
  OSend (inv_self v) (mkMsg (targetJid v) "megaCall" None None).

Definition cancel_message (v : Invitation) : Output :=
  OSend (inv_self v) (mkMsg (getBareJidFromJid (targetJid v)) "megaCallCancel" None None).

Definition declined_event (v : Invitation) (st : Stanza) : Output :=
  OTrigger (inv_self v)
    (EvCallDeclined (st_from st) (st_reason st)
       (match st_body st with b :: _ => Some (xmlUnescape b) | [] => None end)).

Definition timeout_event (v : Invitation) : Output :=
  OTrigger (inv_self v) (EvCallAnswerTimeout (targetJid v)).

Definition init_event (v : Invitation) (st : Stanza) : Output :=
  OTrigger (inv_self v) (EvCallInit (st_from st)).

(** Handler [h] is registered on the connection of instance [i]. *)
Definition registered (w : World) (i h : nat) : Prop :=
  exists x, insts w !! i = Some x /\ In h (handlers x).

Definition unregistered (i h : nat) (w : World) : Prop := ~ registered w i h.

(** The four ways an invitation can be resolved, as calls of the four
    callbacks of its closure. *)
Inductive Trigger :=
| Accept (stanza : Stanza)
| Decline (stanza : Stanza)
| Deadline
| Cancel.

Definition fire (k : nat) (t : Trigger) : M JsRet :=
  match t with
  | Accept st => undef (startMediaCall_onAnswer k st)
  | Decline st => undef (startMediaCall_onDecline k st)
  | Deadline => undef (startMediaCall_onTimeout k)
  | Cancel => boolean (startMediaCall_cancel k)
  end.

(** What a callback returns when it takes effect, and when it is stale. *)
Definition effective (t : Trigger) : JsRet :=
  match t with Cancel => RBool true | _ => RUndefined end.

Definition ignored (t : Trigger) : JsRet :=
  match t with Cancel => RBool false | _ => RUndefined end.



Definition tokens (h : option nat) : list nat :=
  match h with Some t => [t] | None => [] end.


(** What C10 promises for an invitation once its media was granted. *)
Definition invitation_proceeds (tr : list Action) (k : nat) (target : string) : Prop :=
  In (OSend 0 (mkMsg target "megaCall" None None)) (out (run tr init)) /\
  phase_of tr k = AwaitingAnswer.

(** ** Answering an incoming call *)

(** The reason sent with a refusal, and the error reported when the
    device cannot be opened. *)
Definition decline_reason (obj : AnswerObj) : string :=
  if truthy (obj_reason obj) then default "" (obj_reason obj) else "busy".

Definition device_error (error : option string) (e : string) : string :=
  match error with Some name => name | None => e end.

(** ** Sessions *)

(** Every registry key names its session. *)
Definition keyed (w : World) (i : nat) : Prop :=
  forall p, In p (sessions_of w i) -> fst p = sid (snd p).

Definition all_keyed (w : World) : Prop := forall i, keyed w i.

(** Every session still registered is among those yet to be terminated. *)
Definition to_terminate (i : nat) (rest : list Session) (w : World) : Prop :=
  forall p, In p (sessions_of w i) -> In (fst p) (List.map sid rest).

Definition emitted (o : Output) (w : World) : Prop := In o (out w).

Definition call_ended (i : nat) (s : Session) (reason text : option string) : Output :=
  OTrigger i (EvCallEnded (peerjid s) (sid s) reason text).


(** The sessions [muteUnmute] addresses: all of them without a jid, those
    registered under the same bare jid otherwise. *)
Definition mute_targets (w : World) (i : nat) (jid : option string) : list Session :=
  if truthy jid
  then List.map snd (List.filter (fun p => same_bare (fst p) (default "" jid)) (jid2session_of w i))
  else List.map snd (sessions_of w i).

(** ** Scenarios *)

Definition alice : string := "alice@example.com/desk".
Definition alice_tablet : string := "alice@example.com/tablet".
Definition bob : string := "bob@example.com".
Definition bob_phone : string := "bob@example.com/phone".
Definition carol : string := "carol@example.com/laptop".
Definition nobody : string := "nobody@example.com/phone".
Definition camera : MediaStream := mkStream 1 [Audio; Video].

(** A decline from Bob's phone that carries no [reason] attribute, one
    that carries the usual reason, and an accept from Bob's phone. *)
Definition bare_decline : Stanza := mkStanza (Some bob_phone) None [].

Definition plain_decline (from : string) : Stanza := mkStanza (Some from) (Some "busy") [].


(** Alice has asked for media to ring Bob; the platform has not answered. *)
Definition acquiring : list Action :=
  [ANew alice; AStartMediaCall 0 bob bothMedia None].

(** Alice rings Bob on all his devices and the camera has been granted. *)
Definition ringing : list Action :=
  [ANew alice; AStartMediaCall 0 bob bothMedia None; AMediaGranted (ForInvitation 0) camera].

(** The invitation has timed out. *)
Definition timed_out : list Action := (ringing ++ [ATimeout 0])%list.

(** Bob's phone calls Alice. *)
Definition called : list Action := [ANew alice; AIncoming 0 bob_phone].

(** Alice rings Bob and Carol before the camera has been granted; both
    requests are outstanding. *)
Definition two_requests : list Action :=
  [ANew alice; AStartMediaCall 0 bob bothMedia None; AStartMediaCall 0 carol bothMedia None].

(** She cancels the call to Carol, then the platform answers both requests. *)
Definition race : list Action :=
  (two_requests ++
   [ACancel 1; AMediaGranted (ForInvitation 0) camera; AMediaGranted (ForInvitation 1) camera])%list.

(** One RtcSession rings Bob, then Carol while the camera is already open;
    both decline. *)
Definition two_declined : list Action :=
  [ANew alice;
   AStartMediaCall 0 bob bothMedia None;
   AMediaGranted (ForInvitation 0) camera;
   AStartMediaCall 0 carol bothMedia None;
   ARecvDecline 0 (plain_decline bob_phone);
   ARecvDecline 1 (plain_decline carol)].

(** Two RtcSession instances on one page, each in a call that uses the
    shared camera. *)
Definition two_holders : list Action :=
  [ANew alice; ANew alice_tablet;
   AStartMediaCall 0 bob_phone bothMedia None;
   AMediaGranted (ForInvitation 0) camera;
   ARecvAnswer 0 (mkStanza (Some bob_phone) None []);
   ASessionAdded 0 (mkSession "sid-bob" bob_phone (Some camera));
   AStartMediaCall 1 carol bothMedia None;
   ARecvAnswer 1 (mkStanza (Some carol) None []);
   ASessionAdded 1 (mkSession "sid-carol" carol (Some camera))].
(** ** The end of a call *)

(** What [onCallTerminated] does to the session's own capture. *)
Definition stopped (sess : Session) : list Output :=
  match localStream sess with Some s => [OStreamStop s] | None => [] end.

(** Whether the end of a call makes instance [i] give its reference back:
    it holds one, and no session is registered on it any more. *)
Definition gives_back (i : nat) (w : World) : bool :=
  used_of w i && (List.length (sessions_of w i) =? 0)%nat.

(** What that release shows to the observers: the teardown, when it takes
    the count from one to zero. *)
Definition last_release (i : nat) (w : World) : list Output :=
  match gives_back i w, gLocalStreamRefcount w, gLocalStream w, gLocalVid w with
  | true, JNum 1, Some s, Some v => teardown i s v
  | _, _, _, _ => []
  end.

(** ** Accepting an incoming call *)

(** The reply that accepts request [r] with the session stream [s]. *)
Definition accept_reply (r : nat) (mo : MediaOptions) (s : MediaStream) : Output :=
  OAnsFunc r true (PAccept s (mediaOptionsToMutedState mo s)).

(** ** Escaped text *)

(** Text without an ampersand. *)
Fixpoint plain (s : string) : bool :=
  match s with
  | EmptyString => true
  | String c r => negb (Ascii.eqb c "&"%char) && plain r
  end.

(** Text that begins like the rest of an entity other than [&amp;]. *)
Definition entity_tail (b : string) : bool :=
  String.prefix "lt;" b || String.prefix "gt;" b || String.prefix "apos;" b ||
  String.prefix "quot;" b.

(** ** Reports *)





(** ** Polling for remote media *)

(** A reading at which [waitForRemoteMedia] goes on waiting. *)
Definition idle (r : Reading) : bool := valid r && negb (playing r).

(** [n] timers of 200 ms. *)
Definition timers (n : nat) : list RemoteOutput := repeat (OSetTimeout 200) n.

(** [waitForRemoteMedia] over the readings of its successive calls, the
    first being the call itself. *)
Definition polled (i : nat) (pl : Player) (sess : Session) (l : list Reading)
    : option ((string + list RemoteOutput) * bool) :=
  match l with
  | [] => None
  | now :: later => Some (waitForRemoteMedia i pl sess now later)
  end.

(** What the player gets when it starts while the session is valid. *)
Definition delivered (i : nat) (pl : Player) (sess : Session) (r : Reading) : list RemoteOutput :=
  if valid r
  then [OMediaRecv i (peerjid sess) (sid sess) (remoteStream r) pl;
        OAttachMediaStream pl (remoteStream r)]
  else [].

(** A remote player, a session with Bob's phone, and two readings. *)
Definition remote_player : Player := mkPlayer "remotevideo_sid-bob" "rmtViewport rmtVideo".

Definition bob_session : Session := mkSession "sid-bob" bob_phone (Some camera).

Definition not_started : Reading := mkReading true 0 camera.

Definition started : Reading := mkReading true (1 # 4) camera.

(** ** What a resolving callback emits, read off its closure *)

(** The notice to the other devices of a callee who was rung on all of
    them. *)
Definition notice (v : Invitation) (st : Stanza) (accepted : string) : list Output :=
  if isBroadcast v
  then [OSend (inv_self v)
          (mkMsg (getBareJidFromJid (targetJid v)) "megaNotifyCallHandled" (st_from st)
                 (Some accepted))]
  else [].

(** The session that an accept hands to jingle. *)
Definition initiation (v : Invitation) (st : Stanza) (w : World) : list Output :=
  match mutedStateOf (inv_options v) (sessStream v) with
  | Some muted =>
      [OInitiate (inv_self v) (st_from st)
         (if truthy (myJid v) then default "" (myJid v) else self_jid w (inv_self v))
         (sessStream v) muted]
  | None => []
  end.

(** Everything a callback does when it resolves the invitation [v] at world
    [w], in order. *)
Definition resolution (v : Invitation) (t : Trigger) (w : World) : list Output :=
  match t with
  | Accept st => notice v st "1" ++ initiation v st w ++ [init_event v st]
  | Decline st => last_release (inv_self v) w ++ notice v st "0" ++ [declined_event v st]
  | Deadline => last_release (inv_self v) w ++ [cancel_message v; timeout_event v]
  | Cancel => last_release (inv_self v) w ++ [cancel_message v]
  end%list.

(** ** Notices to the other devices *)

(** A [megaNotifyCallHandled] message. *)
Definition is_notice (o : Output) : bool :=
  match o with
  | OSend _ m => String.eqb (m_type m) "megaNotifyCallHandled"
  | _ => false
  end.

Definition notices (w : World) : list Output := List.filter is_notice (out w).

(** Whether the invitation was answered by the callee, one way or the
    other. *)
Definition handled (ph : Phase) : bool :=
  match ph with Accepted | Declined => true | _ => false end.

(** The parameters of an invitation: who calls whom, and whether on all
    devices. *)
Definition addressed (k : nat) (self : nat) (target : string) (b : bool) (w : World) : Prop :=
  exists v, inv_at k v w /\ inv_self v = self /\ targetJid v = target /\ isBroadcast v = b.

Definition is_reply (a : Action) : bool :=
  match a with ARecvAnswer _ _ | ARecvDecline _ _ => true | _ => false end.

(** ** Calls and their closures *)

(** One call of [startMediaCall(targetJid, options, myJid)] on instance
    [call_self]. *)
Record Call := mkCall {
  call_self : nat;
  call_target : string;
  call_options : MediaOptions;
  call_myJid : option string
}.

(** The call an action makes, if its instance exists. *)
Definition new_call (a : Action) (w : World) : list Call :=
  match a with
  | AStartMediaCall i target options my =>
      match insts w !! i with
      | Some _ => [mkCall i target options my]
      | None => []
      end
  | _ => []
  end.

(** The calls of [startMediaCall] in a history, in order: the [k]-th one
    created invitation [k]. *)
Fixpoint calls_from (tr : list Action) (w : World) : list Call :=
  match tr with
  | [] => []
  | a :: r => (new_call a w ++ calls_from r (exec a w))%list
  end.

Definition calls (tr : list Action) : list Call := calls_from tr init.

(** The target is a bare JID: the call rings every device of the callee. *)
Definition to_bare_jid (c : Call) : bool :=
  negb (truthy (getResourceFromJid (call_target c))).

(** The closure [v] holds the arguments of the call [c]. *)
Definition closure_of (c : Call) (v : Invitation) : Prop :=
  inv_self v = call_self c /\ targetJid v = call_target c /\
  inv_options v = call_options c /\ myJid v = call_myJid c /\
  isBroadcast v = to_bare_jid c.

Definition holds_call (k : nat) (c : Call) (w : World) : Prop :=
  exists v, inv_at k v w /\ closure_of c v.

(** ** What a resolution emits, in terms of the call *)

(** The notice to the other devices of a callee who was rung at a bare
    JID; nothing for a call to one device. *)
Definition call_notice (c : Call) (peer : option string) (accepted : string) : list Output :=
  if to_bare_jid c
  then [OSend (call_self c)
          (mkMsg (getBareJidFromJid (call_target c)) "megaNotifyCallHandled" peer
                 (Some accepted))]
  else [].

(** Everything a callback does when it resolves the invitation of the call
    [c], whose closure holds the stream clone [s], at world [w]: in order,
    and in terms of the arguments of the call. *)
Definition call_resolution (c : Call) (s : MediaStream) (t : Trigger) (w : World)
    : list Output :=
  let i := call_self c in
  let cancel := OSend i (mkMsg (getBareJidFromJid (call_target c)) "megaCallCancel" None None) in
  match t with
  | Accept st =>
      call_notice c (st_from st) "1" ++
      [OInitiate i (st_from st)
         (if truthy (call_myJid c) then default "" (call_myJid c) else self_jid w i)
         (Some s) (mediaOptionsToMutedState (call_options c) s);
       OTrigger i (EvCallInit (st_from st))]
  | Decline st =>
      last_release i w ++ call_notice c (st_from st) "0" ++
      [OTrigger i
         (EvCallDeclined (st_from st) (st_reason st)
            (match st_body st with b :: _ => Some (xmlUnescape b) | [] => None end))]
  | Deadline => last_release i w ++ [cancel; OTrigger i (EvCallAnswerTimeout (call_target c))]
  | Cancel => last_release i w ++ [cancel]
  end%list.

(** ** Replies that find their invitation waiting *)

(** The guard of the message handlers passes: [ansHandler] is set. *)
Definition awaiting (w : World) (k : nat) : bool :=
  match invs w !! k with
  | Some v => negb (is_none (ansHandler v))
  | None => false
  end.

(** An accept or a decline from the callee, for invitation [reply_inv]. *)
Record Reply := mkReply {
  reply_inv : nat;
  reply_stanza : Stanza;
  reply_accepts : bool
}.

(** The reply an action delivers to an invitation that awaits it. *)
Definition reply_of (a : Action) (w : World) : list Reply :=
  match a with
  | ARecvAnswer k st => if awaiting w k then [mkReply k st true] else []
  | ARecvDecline k st => if awaiting w k then [mkReply k st false] else []
  | _ => []
  end.

(** The replies of a history that found their invitation waiting, in
    order. *)
Fixpoint replies_from (tr : list Action) (w : World) : list Reply :=
  match tr with
  | [] => []
  | a :: r => (reply_of a w ++ replies_from r (exec a w))%list
  end.

Definition replies (tr : list Action) : list Reply := replies_from tr init.

(** The notice that a reply causes, given the calls made. *)
Definition reply_notice (cs : list Call) (r : Reply) : list Output :=
  match cs !! reply_inv r with
  | Some c => call_notice c (st_from (reply_stanza r)) (if reply_accepts r then "1" else "0")
  | None => []
  end.

Definition reply_outcome (r : Reply) : Phase :=
  if reply_accepts r then Accepted else Declined.

(** ** Exceptions *)


Definition player_exists_error : string :=
  "Local stream just obtained, but localVid was not null".


Definition plugin_method_error : string :=
  "TypeError: this._freeLocalStreamIfUnused is not a function".




(** ** The volume monitor over time *)

(** What happens to the monitor over time. *)
Inductive VolOp :=
| VAttach (cb : option nat)
| VMaybeCreate (hark : bool) (w : World).

Definition vol_step (op : VolOp) (v : VolState) : VolState :=
  match op with
  | VAttach cb => volMonAttachCallback cb v
  | VMaybeCreate hark w => snd (_maybeCreateVolMon hark w v)
  end.

Definition vol_run (ops : list VolOp) (v : VolState) : VolState :=
  fold_left (fun v op => vol_step op v) ops v.

(** A whole number of decibels as a JavaScript number. *)
Definition decibels (z : Z) : float :=
  if (z <? 0)%Z then PrimFloat.opp (PrimFloat.of_uint63 (Uint63.of_Z (- z)))
  else PrimFloat.of_uint63 (Uint63.of_Z z).

(** The level in exact arithmetic. *)
Definition exact_level (z : Z) : Z :=
  if (-35 <? z)%Z then 100%Z else if (-60 <? z)%Z then (4 * z + 240)%Z else 0%Z.

(** ** Handler references *)

(** Instance [i] exists. *)
Definition exists_inst (i : nat) (w : World) : Prop := is_Some (insts w !! i).

(** The player that [_onMediaReady] creates for a stream. *)
Definition local_player (s : MediaStream) : Vid :=
  mkVid (if (List.length (getVideoTracks s) <? 1)%nat
         then "localViewport localNoVideo" else "localViewport").

(** The handlers registered on the connection of instance [i], and the
    reference the next one will get. *)
Definition handlers_of (w : World) (i : nat) : list nat :=
  match insts w !! i with Some x => handlers x | None => [] end.

Definition next_of (w : World) (i : nat) : nat :=
  match insts w !! i with Some x => next_token x | None => 0 end.

(** The handler references an invitation holds while it awaits an
    answer. *)
Definition live (v : Invitation) : list nat :=
  match ansHandler v with
  | Some a => a :: tokens (declineHandler v)
  | None => []
  end.

(** Since the registry of instance [i] was [L] with [n] next, nothing was
    registered on it but fresh references. *)
Definition grown (i : nat) (L : list nat) (n : nat) (w : World) : Prop :=
  n <= next_of w i /\
  forall h, In h (handlers_of w i) -> In h L \/ (n <= h /\ h < next_of w i).

(** Reference [h] is registered on instance [i]. *)
Definition listed (i h : nat) (w : World) : Prop := In h (handlers_of w i).

(** A step that resolves an invitation. *)
Definition is_resolving (a : Action) : bool :=
  match a with
  | ARecvAnswer _ _ | ARecvDecline _ _ | ATimeout _ | ACancel _ => true
  | _ => false
  end.

(** The invitation whose success callback an action may run. *)
Definition fresh_slot (a : Action) (w : World) : option nat :=
  match a with
  | AStartMediaCall _ _ _ _ => Some (List.length (invs w))
  | AMediaGranted (ForInvitation k) _ => Some k
  | _ => None
  end.

(** The two references the next success callback on instance [i] gets. *)
Definition next_pair (w : World) (i : nat) : list nat :=
  [next_of w i; S (next_of w i)].

(** Alice rings Bob, and then Carol while the camera is open: both
    invitations await their answer on the same connection. *)
Definition two_ringing : list Action :=
  [ANew alice;
   AStartMediaCall 0 bob bothMedia None;
   AMediaGranted (ForInvitation 0) camera;
   AStartMediaCall 0 carol bothMedia None].

(** Invitations hold distinct references, registered on their own
    connection and held by no other invitation of that connection. *)
Definition tidy (w : World) : Prop :=
  forall k v, inv_at k v w ->
    NoDup (live v) /\
    (forall h, In h (live v) -> listed (inv_self v) h w) /\
    (forall k' v' h, inv_at k' v' w -> inv_self v' = inv_self v ->
       In h (live v) -> In h (live v') -> k' = k).

(** * Reasoning about computations *)

Section Preserves.
Context (P : World -> Prop).

Lemma preserves_ret {A} (a : A) : preserves P (ret a).
Proof. intros w H. exact H. Qed.

Lemma preserves_throw {A} e : preserves P (@throw A e).
Proof. intros w H. exact H. Qed.

Lemma preserves_get : preserves P get.
Proof. intros w H. exact H. Qed.

Lemma preserves_bind {A B} (m : M A) (f : A -> M B) :
  preserves P m -> (forall a, preserves P (f a)) -> preserves P (bind m f).
Proof.
  intros Hm Hf w H. unfold bind.
  specialize (Hm w H). destruct (m w) as [a w'|e w']; simpl in *.
  - apply Hf, Hm.
  - exact Hm.
Qed.

(** When the continuation needs to know that the world it was given is
    the current one. *)
Lemma preserves_get_bind {B} (f : World -> M B) :
  (forall w, P w -> P (final (f w w))) -> preserves P (bind get f).
Proof. intros Hf w H. apply Hf, H. Qed.

Lemma preserves_modify (f : World -> World) :
  (forall w, P w -> P (f w)) -> preserves P (modify f).
Proof. intros Hf w H. apply Hf, H. Qed.

Lemma preserves_undef (m : M unit) : preserves P m -> preserves P (undef m).
Proof. intros H. apply preserves_bind; [exact H | intros; apply preserves_ret]. Qed.

Lemma preserves_boolean (m : M bool) : preserves P m -> preserves P (boolean m).
Proof. intros H. apply preserves_bind; [exact H | intros; apply preserves_ret]. Qed.

Lemma preserves_on_inst i (m : M JsRet) : preserves P m -> preserves P (on_inst i m).
Proof.
  intros H. apply preserves_bind; [apply preserves_get | intros w0].
  destruct (insts w0 !! i); [exact H | apply preserves_ret].
Qed.

Lemma preserves_run :
  (forall a, preserves P (step a)) -> forall tr w, P w -> P (run tr w).
Proof.
  intros Hs tr. induction tr as [|a tr IH]; intros w H; simpl; [exact H|].
  apply IH. apply Hs, H.
Qed.
End Preserves.

Create HintDb pres discriminated.

(** Walks through the binds, branches and returns of a computation, leaving
    its primitive effects to the hint database. *)
Ltac pres_step :=
  match goal with
  | |- preserves _ (ret _) => apply preserves_ret
  | |- preserves _ (throw _) => apply preserves_throw
  | |- preserves _ get => apply preserves_get
  | |- preserves _ (undef _) => apply preserves_undef
  | |- preserves _ (boolean _) => apply preserves_boolean
  | |- preserves _ (on_inst _ _) => apply preserves_on_inst
  | |- preserves _ (bind _ _) => apply preserves_bind; [| intros ?]
  | |- preserves _ (let _ := _ in _) => cbv zeta
  | |- preserves _ (match ?x with _ => _ end) => destruct x
  | |- preserves _ _ => solve [eauto with pres]
  | |- preserves _ _ => solve [intros ? ?; assumption]
  end.

Ltac pres := repeat pres_step.

(** * The local stream registry *)

Lemma stream_inv_init : stream_inv init.
Proof.
  split; simpl.
  - split; [intros [? ?]; discriminate | discriminate].
  - intros [? ?]; discriminate.
Qed.

Lemma stream_inv_upd_inst i f : preserves stream_inv (upd_inst i f).
Proof. intros w H; exact H. Qed.

Lemma stream_inv_upd_inv k f : preserves stream_inv (upd_inv k f).
Proof. intros w H; exact H. Qed.

Lemma stream_inv_emit o : preserves stream_inv (emit o).
Proof. intros w H; exact H. Qed.

Lemma stream_inv_trigger i e : preserves stream_inv (trigger i e).
Proof. intros w H; exact H. Qed.

Lemma stream_inv_send i m : preserves stream_inv (send i m).
Proof. intros w H; exact H. Qed.

Lemma stream_inv_set_insts f : preserves stream_inv (modify (fun w => set_insts (f w) w)).
Proof. intros w H; exact H. Qed.

Lemma stream_inv_set_invs l : preserves stream_inv (modify (set_invs l)).
Proof. intros w H; exact H. Qed.

Lemma stream_inv_set_reqs f : preserves stream_inv (modify (fun w => set_reqs (f w) w)).
Proof. intros w H; exact H. Qed.

Lemma stream_inv_set_reqs' l : preserves stream_inv (modify (set_reqs l)).
Proof. intros w H; exact H. Qed.

Lemma stream_inv_set_acts f : preserves stream_inv (modify (fun w => set_acts (f w) w)).
Proof. intros w H; exact H. Qed.

Lemma stream_inv_set_acts' l : preserves stream_inv (modify (set_acts l)).
Proof. intros w H; exact H. Qed.

#[export] Hint Resolve stream_inv_upd_inst stream_inv_upd_inv stream_inv_emit
  stream_inv_trigger stream_inv_send stream_inv_set_insts stream_inv_set_invs
  stream_inv_set_reqs stream_inv_set_reqs' stream_inv_set_acts stream_inv_set_acts' : pres.

Lemma stream_inv_addHandler i : preserves stream_inv (addHandler i).
Proof. unfold addHandler. pres. Qed.

Lemma stream_inv_deleteHandler i h : preserves stream_inv (deleteHandler i h).
Proof. unfold deleteHandler. pres. Qed.

#[export] Hint Resolve stream_inv_addHandler stream_inv_deleteHandler : pres.

Lemma js_gt0_dec_inc n : js_gt0 n = true -> js_gt0 (js_inc n) = true.
Proof. destruct n; simpl; try discriminate. intros H. apply Z.ltb_lt in H. apply Z.ltb_lt. lia. Qed.

(** Releasing keeps the invariant: the stream is closed exactly when the
    decrement leaves no positive count. *)
Lemma stream_inv_unref i : preserves stream_inv (_unrefLocalStream i).
Proof.
  intros w [H1 H2]. unfold _unrefLocalStream, bind, get. simpl.
  destruct (used_of w i); simpl; [|split; assumption].
  destruct (js_gt0 (js_dec (gLocalStreamRefcount w))) eqn:Hc; simpl.
  - split; simpl; [|exact H2].
    split; [intros _; exact Hc|]. intros _. apply H1.
    destruct (gLocalStreamRefcount w); simpl in *; try discriminate.
    apply Z.ltb_lt in Hc. apply Z.ltb_lt. lia.
  - destruct (gLocalStream w) as [s|] eqn:Hs; simpl.
    + destruct (gLocalVid w) as [v|] eqn:Hv; simpl.
      * split; simpl.
        -- split; [intros [? ?]; discriminate | rewrite Hc; discriminate].
        -- intros [? ?]; discriminate.
      * exfalso. destruct H2 as [? ?]; [eauto | discriminate].
    + split; simpl.
      * rewrite Hs. split; [intros [? ?]; discriminate | rewrite Hc; discriminate].
      * rewrite Hs. intros [? ?]; discriminate.
Qed.

Lemma stream_inv_free i : preserves stream_inv (_freeLocalStreamIfUnused i).
Proof.
  unfold _freeLocalStreamIfUnused. pres. apply stream_inv_unref.
Qed.

#[export] Hint Resolve stream_inv_unref stream_inv_free : pres.

(** Acquiring from an open stream keeps the invariant. *)
Lemma stream_inv_myGetUserMedia i o (k : MediaStream -> M unit) (rq : M unit) :
  (forall s, preserves stream_inv (k s)) -> preserves stream_inv rq ->
  preserves stream_inv (_myGetUserMedia i o k rq).
Proof.
  intros Hk Hrq. unfold _myGetUserMedia. apply preserves_get_bind. intros w H.
  destruct (gLocalStream w) as [s|] eqn:Hs; [|apply Hrq, H].
  unfold _refLocalStream, bind, upd_inst, modify. simpl.
  apply Hk. destruct H as [H1 H2]. split; simpl; rewrite Hs in *.
  - split; [intros _|eauto]. apply js_gt0_dec_inc, H1; eauto.
  - exact H2.
Qed.

(** The platform's answer establishes it, whatever held before. *)
Lemma stream_inv_onSuccess i o (k : MediaStream -> M unit) stream :
  (forall s, preserves stream_inv (k s)) ->
  forall w, stream_inv (final (getUserMedia_onSuccess i o k stream w)).
Proof.
  intros Hk w. unfold getUserMedia_onSuccess, _refLocalStream, _onMediaReady, bind,
    upd_inst, modify, get, trigger, emit, throw. simpl.
  destruct (gLocalVid w) as [v|] eqn:Hv; simpl.
  - split; simpl.
    + split; intros _; [reflexivity | eexists; reflexivity].
    + intros _. rewrite Hv. eexists; reflexivity.
  - apply Hk. split; simpl.
    + split; intros _; [reflexivity | eexists; reflexivity].
    + intros _. eexists; reflexivity.
Qed.

Lemma stream_inv_onSuccess_pres i o (k : MediaStream -> M unit) stream :
  (forall s, preserves stream_inv (k s)) ->
  preserves stream_inv (getUserMedia_onSuccess i o k stream).
Proof. intros Hk w _. apply stream_inv_onSuccess, Hk. Qed.

Lemma stream_inv_onError i cb error e :
  (forall c, cb = Some c -> forall msg, preserves stream_inv (c msg)) ->
  preserves stream_inv (getUserMedia_onError i cb error e).
Proof.
  intros Hc. unfold getUserMedia_onError. cbv zeta.
  apply preserves_bind; [|intros; pres].
  destruct cb as [c|]; [apply (Hc c eq_refl) | pres].
Qed.

Lemma stream_inv_onMedia k s : preserves stream_inv (startMediaCall_onMedia k s).
Proof. unfold startMediaCall_onMedia. pres. Qed.

Lemma stream_inv_onAnswer k st : preserves stream_inv (startMediaCall_onAnswer k st).
Proof. unfold startMediaCall_onAnswer. pres. Qed.

Lemma stream_inv_onDecline k st : preserves stream_inv (startMediaCall_onDecline k st).
Proof. unfold startMediaCall_onDecline. pres. Qed.

Lemma stream_inv_onTimeout k : preserves stream_inv (startMediaCall_onTimeout k).
Proof. unfold startMediaCall_onTimeout. pres. Qed.

Lemma stream_inv_cancel k : preserves stream_inv (startMediaCall_cancel k).
Proof. unfold startMediaCall_cancel. pres. Qed.

#[export] Hint Resolve stream_inv_onMedia stream_inv_onAnswer stream_inv_onDecline
  stream_inv_onTimeout stream_inv_cancel : pres.

Lemma stream_inv_startMediaCall i t o my : preserves stream_inv (startMediaCall i t o my).
Proof.
  unfold startMediaCall. pres.
  apply stream_inv_myGetUserMedia; [intros; pres | pres].
Qed.

Lemma stream_inv_ansFunc r a p : preserves stream_inv (ansFunc r a p).
Proof. unfold ansFunc. pres. Qed.

#[export] Hint Resolve stream_inv_startMediaCall stream_inv_ansFunc : pres.

Lemma stream_inv_answer_onMedia r obj s : preserves stream_inv (answer_onMedia r obj s).
Proof. unfold answer_onMedia. pres. Qed.

Lemma stream_inv_answer_onError r err : preserves stream_inv (answer_onError r err).
Proof. unfold answer_onError. pres. Qed.

#[export] Hint Resolve stream_inv_answer_onMedia stream_inv_answer_onError : pres.

Lemma stream_inv_answer r a obj : preserves stream_inv (answer r a obj).
Proof.
  unfold answer. pres.
  apply stream_inv_myGetUserMedia; [intros; pres | pres].
Qed.

Lemma stream_inv_onIncomingCallRequest i from : preserves stream_inv (onIncomingCallRequest i from).
Proof. unfold onIncomingCallRequest. pres. Qed.

Lemma stream_inv_onCallTerminated i sess r t : preserves stream_inv (onCallTerminated i sess r t).
Proof. unfold onCallTerminated, removeVideo. pres. Qed.

#[export] Hint Resolve stream_inv_answer stream_inv_onIncomingCallRequest
  stream_inv_onCallTerminated : pres.

Lemma stream_inv_jingle_register i sess : preserves stream_inv (jingle_register i sess).
Proof. unfold jingle_register. pres. Qed.

Lemma stream_inv_jingle_terminate i sess r t : preserves stream_inv (jingle_terminate i sess r t).
Proof. unfold jingle_terminate. pres. Qed.

#[export] Hint Resolve stream_inv_jingle_register stream_inv_jingle_terminate : pres.

Lemma stream_inv_terminate_each i l r t : preserves stream_inv (terminate_each i l r t).
Proof. induction l as [|s l IH]; simpl; pres. Qed.

#[export] Hint Resolve stream_inv_terminate_each : pres.

Lemma stream_inv_terminateAll i r t : preserves stream_inv (terminateAll i r t).
Proof. unfold terminateAll. pres. Qed.

Lemma stream_inv_terminateByJid i jid : preserves stream_inv (terminateByJid i jid).
Proof. unfold terminateByJid. pres. Qed.

#[export] Hint Resolve stream_inv_terminateAll stream_inv_terminateByJid : pres.

Lemma stream_inv_hangup i jid : preserves stream_inv (hangup i jid).
Proof. unfold hangup. pres. Qed.

#[export] Hint Resolve stream_inv_hangup : pres.

Lemma stream_inv_destroy i : preserves stream_inv (destroy i).
Proof. unfold destroy. pres. Qed.

Lemma stream_inv_onConnectionEvent i st : preserves stream_inv (onConnectionEvent i st).
Proof. unfold onConnectionEvent. pres. Qed.

Lemma stream_inv_mute_each i st what l : preserves stream_inv (mute_each i st what l).
Proof. induction l as [|s l IH]; simpl; pres. Qed.

#[export] Hint Resolve stream_inv_destroy stream_inv_onConnectionEvent stream_inv_mute_each : pres.

Lemma stream_inv_muteUnmute i st what jid : preserves stream_inv (muteUnmute i st what jid).
Proof. unfold muteUnmute, _getSessionsForJid. pres. Qed.

Lemma stream_inv_media_granted q s : preserves stream_inv (media_granted q s).
Proof.
  unfold media_granted. pres;
    apply stream_inv_onSuccess_pres; intros; pres.
Qed.

Lemma stream_inv_media_denied q error e : preserves stream_inv (media_denied q error e).
Proof.
  unfold media_denied. pres;
    apply stream_inv_onError; intros c Hc; inversion Hc; subst; intros; pres.
Qed.

Lemma stream_inv_timer_fires k : preserves stream_inv (timer_fires k).
Proof. unfold timer_fires. pres. Qed.

#[export] Hint Resolve stream_inv_muteUnmute stream_inv_media_granted stream_inv_media_denied
  stream_inv_timer_fires : pres.

Lemma stream_inv_step a : preserves stream_inv (step a).
Proof. destruct a; simpl; unfold _onPresenceUnavailable; pres. Qed.

(** Every world the event loop can reach from the initial page satisfies the
    registry invariant. *)
Lemma stream_inv_reachable tr : stream_inv (run tr init).
Proof. apply preserves_run; [apply stream_inv_step | apply stream_inv_init]. Qed.

(** * What leaves the invitation closures alone *)

(** Closes a goal [preserves P m] for an effect [m] that only writes fields
    [P] does not read. *)
Ltac frame :=
  match goal with
  | |- preserves _ _ => solve [intros ? ?; assumption]
  end.

Section InvsFrame.
(** A property that reads nothing but the invitation closures. *)
Context (P : World -> Prop).
Context (P_invs : forall w w', invs w' = invs w -> P w -> P w').

Local Ltac leaf := intros ? ?; eapply P_invs; [|eassumption]; reflexivity.

Lemma invs_upd_inst i f : preserves P (upd_inst i f).
Proof. leaf. Qed.

Lemma invs_emit o : preserves P (emit o).
Proof. leaf. Qed.

Lemma invs_trigger i e : preserves P (trigger i e).
Proof. leaf. Qed.

Lemma invs_send i m : preserves P (send i m).
Proof. leaf. Qed.

Lemma invs_modify_globals f :
  (forall w, invs (f w) = invs w) -> preserves P (modify f).
Proof. intros Hf w H. eapply P_invs; [|exact H]. apply Hf. Qed.

Hint Resolve invs_upd_inst invs_emit invs_trigger invs_send : pres.

Local Ltac go := repeat first [pres_step | apply invs_modify_globals; reflexivity].

Lemma invs_addHandler i : preserves P (addHandler i).
Proof. unfold addHandler. go. Qed.

Lemma invs_deleteHandler i h : preserves P (deleteHandler i h).
Proof. unfold deleteHandler. go. Qed.

Lemma invs_ref i : preserves P (_refLocalStream i).
Proof. unfold _refLocalStream. go. Qed.

Lemma invs_unref i : preserves P (_unrefLocalStream i).
Proof. unfold _unrefLocalStream. go. Qed.

Hint Resolve invs_addHandler invs_deleteHandler invs_ref invs_unref : pres.

Lemma invs_free i : preserves P (_freeLocalStreamIfUnused i).
Proof. unfold _freeLocalStreamIfUnused. go. Qed.

Lemma invs_onMediaReady i s : preserves P (_onMediaReady i s).
Proof. unfold _onMediaReady. go. Qed.

Hint Resolve invs_free invs_onMediaReady : pres.

Lemma invs_myGetUserMedia i o (k : MediaStream -> M unit) (rq : M unit) :
  (forall s, preserves P (k s)) -> preserves P rq ->
  preserves P (_myGetUserMedia i o k rq).
Proof. intros Hk Hrq. unfold _myGetUserMedia. go. Qed.

Lemma invs_onSuccess i o (k : MediaStream -> M unit) stream :
  (forall s, preserves P (k s)) ->
  preserves P (getUserMedia_onSuccess i o k stream).
Proof. intros Hk. unfold getUserMedia_onSuccess. go. Qed.

Lemma invs_onError i cb error e :
  (forall c, cb = Some c -> forall msg, preserves P (c msg)) ->
  preserves P (getUserMedia_onError i cb error e).
Proof.
  intros Hc. unfold getUserMedia_onError. cbv zeta.
  apply preserves_bind; [|intros; go].
  destruct cb as [c|]; [apply (Hc c eq_refl) | go].
Qed.

Lemma invs_ansFunc r a p : preserves P (ansFunc r a p).
Proof. unfold ansFunc. go. Qed.

Hint Resolve invs_ansFunc : pres.

Lemma invs_answer_onMedia r obj s : preserves P (answer_onMedia r obj s).
Proof. unfold answer_onMedia. go. Qed.

Lemma invs_answer_onError r err : preserves P (answer_onError r err).
Proof. unfold answer_onError. go. Qed.

Hint Resolve invs_answer_onMedia invs_answer_onError : pres.

Lemma invs_answer r a obj : preserves P (answer r a obj).
Proof.
  unfold answer. go.
  apply invs_myGetUserMedia; [intros; go | go].
Qed.

Lemma invs_onIncomingCallRequest i from : preserves P (onIncomingCallRequest i from).
Proof. unfold onIncomingCallRequest. go. Qed.

Lemma invs_onCallTerminated i sess r t : preserves P (onCallTerminated i sess r t).
Proof. unfold onCallTerminated, removeVideo. go. Qed.

Hint Resolve invs_answer invs_onIncomingCallRequest invs_onCallTerminated : pres.

Lemma invs_jingle_register i sess : preserves P (jingle_register i sess).
Proof. unfold jingle_register. go. Qed.

Lemma invs_jingle_terminate i sess r t : preserves P (jingle_terminate i sess r t).
Proof. unfold jingle_terminate. go. Qed.

Hint Resolve invs_jingle_register invs_jingle_terminate : pres.

Lemma invs_terminate_each i l r t : preserves P (terminate_each i l r t).
Proof. induction l as [|s l IH]; simpl; go. Qed.

Hint Resolve invs_terminate_each : pres.

Lemma invs_terminateAll i r t : preserves P (terminateAll i r t).
Proof. unfold terminateAll. go. Qed.

Lemma invs_terminateByJid i jid : preserves P (terminateByJid i jid).
Proof. unfold terminateByJid. go. Qed.

Hint Resolve invs_terminateAll invs_terminateByJid : pres.

Lemma invs_hangup i jid : preserves P (hangup i jid).
Proof. unfold hangup. go. Qed.

Hint Resolve invs_hangup : pres.

Lemma invs_destroy i : preserves P (destroy i).
Proof. unfold destroy. go. Qed.

Lemma invs_onConnectionEvent i st : preserves P (onConnectionEvent i st).
Proof. unfold onConnectionEvent. go. Qed.

Lemma invs_mute_each i st what l : preserves P (mute_each i st what l).
Proof. induction l as [|s l IH]; simpl; go. Qed.

Hint Resolve invs_mute_each : pres.

Lemma invs_muteUnmute i st what jid : preserves P (muteUnmute i st what jid).
Proof. unfold muteUnmute, _getSessionsForJid. go. Qed.

(** The platform's answer to an answer function's request. *)
Lemma invs_media_granted_answer a s : preserves P (media_granted (ForAnswer a) s).
Proof.
  unfold media_granted. go.
  all: apply invs_onSuccess; intros; go.
Qed.

Lemma invs_media_denied_answer a error e : preserves P (media_denied (ForAnswer a) error e).
Proof.
  unfold media_denied. go.
  all: apply invs_onError; intros c Hc; inversion Hc; subst; intros; go.
Qed.
End InvsFrame.

#[export] Hint Resolve invs_upd_inst invs_emit invs_trigger invs_send invs_addHandler
  invs_deleteHandler invs_ref invs_unref invs_free invs_onMediaReady invs_ansFunc
  invs_answer invs_onIncomingCallRequest invs_onCallTerminated invs_jingle_register
  invs_jingle_terminate invs_terminate_each invs_terminateAll invs_terminateByJid
  invs_hangup invs_destroy invs_onConnectionEvent invs_muteUnmute
  invs_media_granted_answer invs_media_denied_answer : pres.

Lemma hoare_bind {A B} Pre Mid Post (m : M A) (f : A -> M B) :
  returns m -> hoare Pre m Mid -> (forall a, hoare Mid (f a) Post) ->
  hoare Pre (bind m f) Post.
Proof.
  intros Hr Hm Hf w H. unfold bind. specialize (Hm w H).
  destruct (Hr w) as (a & w' & E). rewrite E in *. simpl in *.
  apply Hf, Hm.
Qed.

Lemma hoare_preserves {A} P (m : M A) : preserves P m -> hoare P m P.
Proof. intros H. exact H. Qed.

Lemma returns_modify f : returns (modify f).
Proof. intros w. eexists _, _. reflexivity. Qed.

Lemma returns_upd_inv k f : returns (upd_inv k f).
Proof. apply returns_modify. Qed.

Lemma returns_upd_inst i f : returns (upd_inst i f).
Proof. apply returns_modify. Qed.

Lemma returns_deleteHandler i h : returns (deleteHandler i h).
Proof. destruct h; intros w; eexists _, _; reflexivity. Qed.

Lemma returns_addHandler i : returns (addHandler i).
Proof.
  intros w. unfold addHandler, bind, get.
  destruct (insts w !! i); eexists _, _; reflexivity.
Qed.

(** ** One invitation among the others *)

Lemma inv_at_invs k v w w' : invs w' = invs w -> inv_at k v w -> inv_at k v w'.
Proof. unfold inv_at. intros E H. rewrite E. exact H. Qed.

#[export] Hint Resolve inv_at_invs : pres.

Lemma inv_at_upd_inv_ne k v k' f : k' <> k -> preserves (inv_at k v) (upd_inv k' f).
Proof.
  intros Hne w H. unfold inv_at in *. simpl.
  rewrite list_lookup_alter_ne; [exact H | exact Hne].
Qed.

#[export] Hint Resolve inv_at_upd_inv_ne : pres.

Lemma upd_inv_at k v f : hoare (inv_at k v) (upd_inv k f) (inv_at k (f v)).
Proof.
  intros w H. unfold inv_at in *. simpl.
  rewrite list_lookup_alter_eq, H. reflexivity.
Qed.

Section OtherInvitation.
Context (k : nat) (v : Invitation) (k' : nat) (Hne : k' <> k).

Lemma other_onMedia s : preserves (inv_at k v) (startMediaCall_onMedia k' s).
Proof. unfold startMediaCall_onMedia. pres. Qed.

Lemma other_onAnswer st : preserves (inv_at k v) (startMediaCall_onAnswer k' st).
Proof. unfold startMediaCall_onAnswer. pres. Qed.

Lemma other_onDecline st : preserves (inv_at k v) (startMediaCall_onDecline k' st).
Proof. unfold startMediaCall_onDecline. pres. Qed.

Lemma other_onTimeout : preserves (inv_at k v) (startMediaCall_onTimeout k').
Proof. unfold startMediaCall_onTimeout. pres. Qed.

Lemma other_cancel : preserves (inv_at k v) (startMediaCall_cancel k').
Proof. unfold startMediaCall_cancel. pres. Qed.

Lemma other_timer_fires : preserves (inv_at k v) (timer_fires k').
Proof. unfold timer_fires. pres. all: apply other_onTimeout. Qed.

Lemma other_media_granted s : preserves (inv_at k v) (media_granted (ForInvitation k') s).
Proof.
  unfold media_granted. pres.
  all: apply invs_onSuccess; [eauto with pres | intros; apply other_onMedia].
Qed.

Lemma other_media_denied error e :
  preserves (inv_at k v) (media_denied (ForInvitation k') error e).
Proof.
  unfold media_denied. pres.
  all: apply invs_onError; [eauto with pres | intros c Hc; discriminate].
Qed.
End OtherInvitation.

(** A new invitation is appended behind the existing ones. *)
Lemma other_startMediaCall k v i t o my : preserves (inv_at k v) (startMediaCall i t o my).
Proof.
  unfold startMediaCall. apply preserves_get_bind. intros w H. cbv zeta.
  assert (Hlt : k < List.length (invs w)) by (eapply lookup_lt_Some; exact H).
  assert (Hpres : preserves (inv_at k v)
    (_myGetUserMedia i bothMedia (startMediaCall_onMedia (List.length (invs w)))
       (upd_inv (List.length (invs w)) (set_media_pending true)) ;; ret (List.length (invs w)))).
  { pres.
    apply invs_myGetUserMedia; [eauto with pres | | ].
    - intros s. apply other_onMedia. lia.
    - apply inv_at_upd_inv_ne. lia. }
  refine (preserves_bind (inv_at k v) _ _ _ (fun _ => Hpres) w H).
  intros w' _. unfold inv_at in *. simpl. rewrite lookup_app_l; [exact H | exact Hlt].
Qed.

(** An action leaves every invitation it does not address as it was. *)
Lemma step_other a k v : addresses a <> Some k -> preserves (inv_at k v) (step a).
Proof.
  intros Hne.
  assert (Hk : forall k', addresses a = Some k' -> k' <> k) by (intros k' E Ek; subst; auto).
  destruct a as [| | [k'|b] | [k'|b] | k' | k' | k' | k' | | | | | | | | | | |];
    simpl in *; unfold _onPresenceUnavailable; pres;
    try (first [ apply other_startMediaCall | apply other_media_granted
               | apply other_media_denied | apply other_onAnswer | apply other_onDecline
               | apply other_timer_fires | apply other_cancel ]; apply Hk; reflexivity).
  all: try (apply preserves_modify; intros w H; exact H).
Qed.

(** ** The four callbacks at their own invitation *)

(** Once [ansHandler] is cleared each of them returns at its guard. *)
Lemma onAnswer_stale k st w :
  handles_clear w k -> startMediaCall_onAnswer k st w = Ok tt w.
Proof.
  intros H. unfold startMediaCall_onAnswer, bind, get.
  destruct (invs w !! k) as [v|] eqn:E; [|reflexivity].
  rewrite (H v E). reflexivity.
Qed.

Lemma onDecline_stale k st w :
  handles_clear w k -> startMediaCall_onDecline k st w = Ok tt w.
Proof.
  intros H. unfold startMediaCall_onDecline, bind, get.
  destruct (invs w !! k) as [v|] eqn:E; [|reflexivity].
  rewrite (H v E). reflexivity.
Qed.

Lemma onTimeout_stale k w :
  handles_clear w k -> startMediaCall_onTimeout k w = Ok tt w.
Proof.
  intros H. unfold startMediaCall_onTimeout, bind, get.
  destruct (invs w !! k) as [v|] eqn:E; [|reflexivity].
  rewrite (H v E). reflexivity.
Qed.

Lemma cancel_stale k w :
  handles_clear w k -> startMediaCall_cancel k w = Ok false w.
Proof.
  intros H. unfold startMediaCall_cancel, bind, get.
  destruct (invs w !! k) as [v|] eqn:E; [|reflexivity].
  rewrite (H v E). reflexivity.
Qed.

Lemma onAnswer_resolves k v a st w :
  inv_at k v w -> ansHandler v = Some a ->
  inv_at k (resolved v) (final (startMediaCall_onAnswer k st w)).
Proof.
  intros H Ha. unfold startMediaCall_onAnswer.
  unfold bind at 1, get. rewrite H, Ha. cbv zeta.
  refine (hoare_bind (inv_at k v) (inv_at k v) _ _ _ _ _ _ w H).
  { apply returns_deleteHandler. }
  { apply hoare_preserves. pres. }
  intros _.
  refine (hoare_bind (inv_at k v) (inv_at k (resolved v)) _ _ _ _ _ _).
  { apply returns_upd_inv. }
  { apply upd_inv_at. }
  intros _. change (preserves (inv_at k (resolved v))
    ((if isBroadcast v
      then send (inv_self v) (mkMsg (getBareJidFromJid (targetJid v))
             "megaNotifyCallHandled" (st_from st) (Some "1"))
      else ret tt) ;;
     match mutedStateOf (inv_options v) (sessStream v) with
     | Some muted =>
         emit (OInitiate (inv_self v) (st_from st)
                 (if truthy (myJid v) then default "" (myJid v) else self_jid w (inv_self v))
                 (sessStream v) muted) ;;
         trigger (inv_self v) (EvCallInit (st_from st))
     | None => throw "TypeError: stream is null"
     end)).
  pres.
Qed.

Lemma onDecline_resolves k v a st w :
  inv_at k v w -> ansHandler v = Some a ->
  inv_at k (released v) (final (startMediaCall_onDecline k st w)).
Proof.
  intros H Ha. unfold startMediaCall_onDecline.
  unfold bind at 1, get. rewrite H, Ha. cbv zeta.
  refine (hoare_bind (inv_at k v) (inv_at k v) _ _ _ _ _ _ w H).
  { apply returns_deleteHandler. }
  { apply hoare_preserves. pres. }
  intros _.
  refine (hoare_bind (inv_at k v) (inv_at k (resolved v)) _ _ _ _ _ _).
  { apply returns_upd_inv. }
  { apply upd_inv_at. }
  intros _.
  refine (hoare_bind (inv_at k (resolved v)) (inv_at k (released v)) _ _ _ _ _ _).
  { apply returns_upd_inv. }
  { apply (upd_inv_at k (resolved v)). }
  intros _. apply preserves_bind; [eauto with pres | intros _].
  apply preserves_bind; [destruct (isBroadcast v); pres | intros _; pres].
Qed.

Lemma onTimeout_resolves k v a w :
  inv_at k v w -> ansHandler v = Some a ->
  inv_at k (released v) (final (startMediaCall_onTimeout k w)).
Proof.
  intros H Ha. unfold startMediaCall_onTimeout.
  unfold bind at 1, get. rewrite H, Ha. cbv zeta.
  refine (hoare_bind (inv_at k v) (inv_at k v) _ _ _ _ _ _ w H).
  { apply returns_deleteHandler. }
  { apply hoare_preserves. pres. }
  intros _.
  refine (hoare_bind (inv_at k v) (inv_at k (set_handles None (declineHandler v) v)) _ _ _ _ _ _).
  { apply returns_upd_inv. }
  { apply upd_inv_at. }
  intros _.
  refine (hoare_bind _ (inv_at k (set_handles None (declineHandler v) v)) _ _ _ _ _ _).
  { apply returns_deleteHandler. }
  { apply hoare_preserves. pres. }
  intros _.
  refine (hoare_bind _ (inv_at k (resolved v)) _ _ _ _ _ _).
  { apply returns_upd_inv. }
  { apply (upd_inv_at k (set_handles None (declineHandler v) v)). }
  intros _.
  refine (hoare_bind _ (inv_at k (released v)) _ _ _ _ _ _).
  { apply returns_upd_inv. }
  { apply (upd_inv_at k (resolved v)). }
  intros _. apply preserves_bind; [eauto with pres | intros _; pres].
Qed.

Lemma cancel_resolves k v a w :
  inv_at k v w -> ansHandler v = Some a ->
  inv_at k (resolved v) (final (startMediaCall_cancel k w)).
Proof.
  intros H Ha. unfold startMediaCall_cancel.
  unfold bind at 1, get. rewrite H, Ha. cbv zeta.
  refine (hoare_bind (inv_at k v) (inv_at k v) _ _ _ _ _ _ w H).
  { apply returns_deleteHandler. }
  { apply hoare_preserves. pres. }
  intros _.
  refine (hoare_bind (inv_at k v) (inv_at k (set_handles None (declineHandler v) v)) _ _ _ _ _ _).
  { apply returns_upd_inv. }
  { apply upd_inv_at. }
  intros _.
  refine (hoare_bind _ (inv_at k (set_handles None (declineHandler v) v)) _ _ _ _ _ _).
  { apply returns_deleteHandler. }
  { apply hoare_preserves. pres. }
  intros _.
  refine (hoare_bind _ (inv_at k (resolved v)) _ _ _ _ _ _).
  { apply returns_upd_inv. }
  { apply (upd_inv_at k (set_handles None (declineHandler v) v)). }
  intros _. apply preserves_bind; [eauto with pres | intros _; pres].
Qed.

(** The success callback registers both handlers, sends the invitation and
    starts the timer; it cannot throw. *)
Lemma onMedia_registers k v s w :
  inv_at k v w ->
  exists a d w',
    startMediaCall_onMedia k s w = Ok tt w' /\
    inv_at k (set_timer_armed true (set_handles (Some a) (Some d) (set_sessStream (Some s) v))) w' /\
    out w' = (out w ++ [OSend (inv_self v) (mkMsg (targetJid v) "megaCall" None None)])%list /\
    gLocalStream w' = gLocalStream w /\ gLocalVid w' = gLocalVid w /\
    gLocalStreamRefcount w' = gLocalStreamRefcount w.
Proof.
  intros H. unfold inv_at in H.
  unfold startMediaCall_onMedia, addHandler, bind, get, upd_inv, upd_inst, modify, send, emit, ret.
  rewrite H. simpl.
  destruct (insts w !! inv_self v) as [x|] eqn:Ex; simpl.
  - rewrite list_lookup_alter_eq, Ex. simpl.
    eexists _, _, _. split; [reflexivity|].
    unfold inv_at. simpl.
    rewrite !list_lookup_alter_eq, H. simpl.
    repeat split; reflexivity.
  - rewrite Ex. simpl.
    eexists _, _, _. split; [reflexivity|].
    unfold inv_at. simpl.
    rewrite !list_lookup_alter_eq, H. simpl.
    repeat split; reflexivity.
Qed.

(** ** Acquisition, step by step *)

Lemma myGetUserMedia_open i o (cb : MediaStream -> M unit) rq w s :
  gLocalStream w = Some s ->
  _myGetUserMedia i o cb rq w = cb (cloneMediaStream s o) (referenced i w).
Proof.
  intros E. unfold _myGetUserMedia, bind, get. rewrite E. reflexivity.
Qed.

Lemma myGetUserMedia_closed i o (cb : MediaStream -> M unit) rq w :
  gLocalStream w = None -> _myGetUserMedia i o cb rq w = rq w.
Proof.
  intros E. unfold _myGetUserMedia, bind, get. rewrite E. reflexivity.
Qed.

Lemma onSuccess_fresh i o (cb : MediaStream -> M unit) stream w :
  gLocalVid w = None ->
  getUserMedia_onSuccess i o cb stream w = cb (cloneMediaStream stream o) (granted i stream w).
Proof.
  intros E. unfold getUserMedia_onSuccess, _refLocalStream, _onMediaReady, bind, get,
    upd_inst, modify, trigger, emit. simpl. rewrite E. reflexivity.
Qed.

(** A second platform answer while a player exists trips the assertion of
    [_onMediaReady]: the stream is replaced, the count restarts at one, and
    the success callback is not called. *)
Lemma onSuccess_clash i o (cb : MediaStream -> M unit) stream w vid :
  gLocalVid w = Some vid ->
  getUserMedia_onSuccess i o cb stream w =
    Throw "Local stream just obtained, but localVid was not null"
      (mkWorld (Some stream) (Some vid) (JNum 1)
         (alter (set_used true) i (insts w)) (invs w) (reqs w) (acts w) (out w)).
Proof.
  intros E. unfold getUserMedia_onSuccess, _refLocalStream, _onMediaReady, bind, get,
    upd_inst, modify, trigger, emit, throw. simpl. rewrite E.
  unfold set_refcount, set_insts, set_gLocalStream. simpl. rewrite E. reflexivity.
Qed.

(** * The invitation protocol of the specification *)

(** ** The number of invitations *)

Lemma invs_length_invs n w w' : invs w' = invs w -> invs_length n w -> invs_length n w'.
Proof. unfold invs_length. intros E H. rewrite E. exact H. Qed.

Lemma invs_length_upd_inv n k f : preserves (invs_length n) (upd_inv k f).
Proof. intros w H. unfold invs_length in *. simpl. rewrite length_alter. exact H. Qed.

#[export] Hint Resolve invs_length_invs invs_length_upd_inv : pres.

Lemma invs_length_onMedia n k s : preserves (invs_length n) (startMediaCall_onMedia k s).
Proof. unfold startMediaCall_onMedia. pres. Qed.

Lemma invs_length_onAnswer n k st : preserves (invs_length n) (startMediaCall_onAnswer k st).
Proof. unfold startMediaCall_onAnswer. pres. Qed.

Lemma invs_length_onDecline n k st : preserves (invs_length n) (startMediaCall_onDecline k st).
Proof. unfold startMediaCall_onDecline. pres. Qed.

Lemma invs_length_onTimeout n k : preserves (invs_length n) (startMediaCall_onTimeout k).
Proof. unfold startMediaCall_onTimeout. pres. Qed.

Lemma invs_length_cancel n k : preserves (invs_length n) (startMediaCall_cancel k).
Proof. unfold startMediaCall_cancel. pres. Qed.

#[export] Hint Resolve invs_length_onMedia invs_length_onAnswer invs_length_onDecline
  invs_length_onTimeout invs_length_cancel : pres.

Lemma invs_length_timer_fires n k : preserves (invs_length n) (timer_fires k).
Proof. unfold timer_fires. pres. Qed.

Lemma invs_length_media_granted n q s : preserves (invs_length n) (media_granted q s).
Proof.
  destruct q; [|eauto with pres].
  unfold media_granted. pres.
  all: apply invs_onSuccess; [eauto with pres | intros; pres].
Qed.

Lemma invs_length_media_denied n q error e : preserves (invs_length n) (media_denied q error e).
Proof.
  destruct q; [|eauto with pres].
  unfold media_denied. pres.
  all: apply invs_onError; [eauto with pres | intros c Hc; discriminate].
Qed.

#[export] Hint Resolve invs_length_timer_fires invs_length_media_granted
  invs_length_media_denied : pres.

Lemma invs_length_step n a : is_start a = false -> preserves (invs_length n) (step a).
Proof.
  intros Hs. destruct a; try discriminate; simpl; unfold _onPresenceUnavailable; pres.
  all: apply preserves_modify; intros w H; exact H.
Qed.

(** ** The callbacks at their own invitation, continued *)

(** [startMediaCall] while the stream is closed: the invitation waits for
    the platform. *)
Lemma startMediaCall_closed i t o my w :
  gLocalStream w = None ->
  exists w',
    startMediaCall i t o my w = Ok (List.length (invs w)) w' /\
    inv_at (List.length (invs w)) (set_media_pending true (fresh_invitation i t o my)) w' /\
    out w' = out w /\
    gLocalStream w' = None /\ gLocalStreamRefcount w' = gLocalStreamRefcount w.
Proof.
  intros E. unfold startMediaCall, bind, get, modify. simpl.
  rewrite myGetUserMedia_closed by exact E. simpl.
  eexists. split; [reflexivity|]. unfold inv_at. simpl.
  rewrite list_lookup_alter_eq, list_lookup_middle by reflexivity.
  repeat split; try reflexivity. exact E.
Qed.

(** [startMediaCall] while the stream is open: the success callback runs
    before [startMediaCall] returns. *)
Lemma startMediaCall_open i t o my w s :
  gLocalStream w = Some s ->
  exists a d w',
    startMediaCall i t o my w = Ok (List.length (invs w)) w' /\
    inv_at (List.length (invs w))
      (set_timer_armed true (set_handles (Some a) (Some d)
         (set_sessStream (Some (cloneMediaStream s bothMedia)) (fresh_invitation i t o my)))) w' /\
    out w' = (out w ++ [OSend i (mkMsg t "megaCall" None None)])%list.
Proof.
  intros E. unfold startMediaCall, bind, get, modify. simpl.
  erewrite myGetUserMedia_open by exact E.
  match goal with |- context [startMediaCall_onMedia ?k ?s ?w0] =>
    destruct (onMedia_registers k (fresh_invitation i t o my) s w0) as (a & d & w' & Hr & Hi & Ho & _)
  end.
  { unfold inv_at. simpl. apply list_lookup_middle. reflexivity. }
  rewrite Hr. eexists a, d, w'. split; [reflexivity|]. split; [exact Hi|].
  rewrite Ho. reflexivity.
Qed.

Lemma media_granted_stale k s w v :
  inv_at k v w -> media_pending v = false ->
  media_granted (ForInvitation k) s w = Ok tt w.
Proof.
  intros H E. unfold media_granted, bind, get. rewrite H, E. reflexivity.
Qed.

Lemma media_denied_stale k error e w v :
  inv_at k v w -> media_pending v = false ->
  media_denied (ForInvitation k) error e w = Ok tt w.
Proof.
  intros H E. unfold media_denied, bind, get. rewrite H, E. reflexivity.
Qed.

Lemma inv_at_answered k v w :
  inv_at k v w -> inv_at k (set_media_pending false v) (answered k w).
Proof. intros H. apply (upd_inv_at k v _ w H). Qed.

Lemma media_granted_fresh k s w v :
  inv_at k v w -> media_pending v = true -> gLocalVid w = None ->
  exists a d w',
    media_granted (ForInvitation k) s w = Ok tt w' /\
    inv_at k (set_timer_armed true (set_handles (Some a) (Some d)
       (set_sessStream (Some (cloneMediaStream s bothMedia)) (set_media_pending false v)))) w' /\
    out w' = (out w ++ [OTrigger (inv_self v) (EvLocalStreamObtained s
                 (mkVid (if (List.length (getVideoTracks s) <? 1)%nat
                         then "localViewport localNoVideo" else "localViewport")));
               OSend (inv_self v) (mkMsg (targetJid v) "megaCall" None None)])%list.
Proof.
  intros H Ep Ev. unfold media_granted. unfold bind at 1, get. rewrite H, Ep.
  unfold bind at 1. change (upd_inv k (set_media_pending false) w) with (Ok tt (answered k w)).
  cbv iota beta.
  rewrite onSuccess_fresh by exact Ev.
  match goal with |- context [startMediaCall_onMedia k ?s ?w0] =>
    destruct (onMedia_registers k (set_media_pending false v) s w0) as (a & d & w' & Hr & Hi & Ho & _)
  end.
  { apply (inv_at_invs k _ (answered k w)); [reflexivity | apply inv_at_answered, H]. }
  rewrite Hr. unfold bind. eexists a, d, w'. split; [reflexivity|]. split; [exact Hi|].
  rewrite Ho. simpl. rewrite <- app_assoc. reflexivity.
Qed.

Lemma media_granted_clash k s w v vid :
  inv_at k v w -> media_pending v = true -> gLocalVid w = Some vid ->
  exists e w',
    media_granted (ForInvitation k) s w = Throw e w' /\
    inv_at k (set_media_pending false v) w' /\ out w' = out w.
Proof.
  intros H Ep Ev. unfold media_granted. unfold bind at 1, get. rewrite H, Ep.
  unfold bind at 1. change (upd_inv k (set_media_pending false) w) with (Ok tt (answered k w)).
  cbv iota beta.
  erewrite onSuccess_clash by exact Ev.
  eexists _, _. split; [reflexivity|]. split; [|reflexivity].
  apply (inv_at_invs k _ (answered k w)); [reflexivity | apply inv_at_answered, H].
Qed.

Lemma media_denied_pending k error e w v :
  inv_at k v w -> media_pending v = true ->
  exists w',
    media_denied (ForInvitation k) error e w = Ok tt w' /\
    inv_at k (set_media_pending false v) w' /\
    out w' = (out w ++ [OTrigger (inv_self v)
                (EvLocalMediaFail (match error with Some name => name | None => e end))])%list.
Proof.
  intros H Ep. unfold media_denied. unfold bind at 1, get. rewrite H, Ep.
  eexists. split; [reflexivity|]. split; [|reflexivity].
  apply (inv_at_invs k _ (answered k w)); [reflexivity | apply inv_at_answered, H].
Qed.

Lemma timer_fires_armed k w v :
  inv_at k v w -> timer_armed v = true ->
  timer_fires k w = startMediaCall_onTimeout k (expired k w).
Proof.
  intros H E. unfold timer_fires. unfold bind at 1, get. rewrite H, E. reflexivity.
Qed.

Lemma timer_fires_unarmed k w v :
  inv_at k v w -> timer_armed v = false -> timer_fires k w = Ok tt w.
Proof.
  intros H E. unfold timer_fires, bind, get. rewrite H, E. reflexivity.
Qed.

Lemma inv_at_expired k v w :
  inv_at k v w -> inv_at k (set_timer_armed false v) (expired k w).
Proof. intros H. apply (upd_inv_at k v _ w H). Qed.

(** * The closures implement the protocol *)

#[export] Instance Phase_eq_dec : EqDecision Phase.
Proof. solve_decision. Defined.

Lemma startMediaCall_length i t o my w :
  List.length (invs (final (startMediaCall i t o my w))) = S (List.length (invs w)).
Proof.
  unfold startMediaCall. unfold bind at 1, get. cbv zeta.
  assert (Hpres : preserves (invs_length (S (List.length (invs w))))
    (_myGetUserMedia i bothMedia (startMediaCall_onMedia (List.length (invs w)))
       (upd_inv (List.length (invs w)) (set_media_pending true)) ;; ret (List.length (invs w)))).
  { pres. apply invs_myGetUserMedia; eauto with pres. }
  refine (hoare_bind (fun _ => True) (invs_length (S (List.length (invs w)))) _ _ _
            (returns_modify _) _ (fun _ => Hpres) w I).
  intros w' _. unfold invs_length. simpl. rewrite length_app. simpl. lia.
Qed.

Lemma final_undef (m : M unit) w : final (undef m w) = final (m w).
Proof. unfold undef, bind. destruct (m w); reflexivity. Qed.

Lemma final_boolean (m : M bool) w : final (boolean m w) = final (m w).
Proof. unfold boolean, bind. destruct (m w); reflexivity. Qed.

Lemma final_on_inst i (m : M JsRet) w :
  final (on_inst i m w) = match insts w !! i with Some _ => final (m w) | None => w end.
Proof. unfold on_inst, bind, get. destruct (insts w !! i); reflexivity. Qed.

Lemma refines_frame k ph w w' :
  (forall v, inv_at k v w -> inv_at k v w') ->
  List.length (invs w') = List.length (invs w) ->
  refines w k ph -> refines w' k ph.
Proof.
  intros Hv Hl. destruct ph; simpl; [lia | ..];
    intros (v & Hi & R); exists v; (split; [apply Hv, Hi | exact R]).
Qed.

Lemma observe_other k a w :
  addresses a <> Some k -> is_start a = false -> observe k a w = [].
Proof.
  intros Ha Hs.
  assert (Hk : forall k', addresses a = Some k' -> Nat.eqb k k' = false).
  { intros k' E. apply Nat.eqb_neq. intros ->. exact (Ha E). }
  destruct a as [| | [k'|b] | [k'|b] | k' | k' | k' | k' | | | | | | | | | | |];
    simpl in *; try reflexivity; try discriminate;
    rewrite (Hk k' eq_refl); simpl; try reflexivity;
    destruct (invs w !! k'); reflexivity.
Qed.

(** An invitation that does not exist yet ignores whatever is addressed to
    it. *)
Lemma absent_ignores k a w :
  List.length (invs w) <= k -> addresses a = Some k ->
  exec a w = w /\ fold_left spec_next (observe k a w) NotCreated = NotCreated.
Proof.
  intros Hl Ha. assert (E : invs w !! k = None) by (apply lookup_ge_None; exact Hl).
  destruct a as [| | [k'|b] | [k'|b] | k' | k' | k' | k' | | | | | | | | | | |];
    simpl in Ha; try discriminate; inversion Ha; subst k'; clear Ha;
    unfold exec; simpl; rewrite ?final_undef, ?final_boolean;
    unfold media_granted, media_denied, startMediaCall_onAnswer, startMediaCall_onDecline,
      timer_fires, startMediaCall_cancel, bind, get; rewrite ?E; simpl;
    rewrite ?Nat.eqb_refl; split; reflexivity.
Qed.

(** What the refinement relation says about the closure. *)
Lemma refines_awaiting w k :
  refines w k AwaitingAnswer ->
  exists v a, inv_at k v w /\ ansHandler v = Some a /\ media_pending v = false /\
              timer_armed v = true.
Proof.
  intros (v & Hi & [a Ha] & _ & Hp & Ht & _). exists v, a. auto.
Qed.

Lemma refines_settled w k ph :
  settled ph -> refines w k ph ->
  exists v, inv_at k v w /\ ansHandler v = None /\ (ph <> Idle -> media_pending v = false).
Proof.
  intros [H1 H2]. destruct ph; simpl; try congruence.
  - intros (v & Hi & Ha). exists v. repeat split; auto. congruence.
  - intros (v & Hi & Ha & Hp). exists v. auto.
  - intros (v & Hi & Ha & Hp). exists v. auto.
  - intros (v & Hi & Ha & Hp). exists v. auto.
  - intros (v & Hi & Ha & Hp). exists v. auto.
Qed.

Lemma settled_refines w k ph v :
  settled ph -> inv_at k v w -> ansHandler v = None ->
  (ph <> Idle -> media_pending v = false) -> refines w k ph.
Proof.
  intros [H1 H2] Hi Ha Hp. destruct ph; simpl; try congruence;
    exists v; repeat split; auto; apply Hp; discriminate.
Qed.

Lemma settled_next ph e :
  settled ph -> e <> MediaAcquired -> spec_next ph e = ph.
Proof. intros [H1 H2] He. destruct ph, e; simpl; congruence. Qed.

Lemma settled_clear w k ph : settled ph -> refines w k ph -> handles_clear w k.
Proof.
  intros Hs R v Hv. destruct (refines_settled w k ph Hs R) as (v' & Hi & Ha & _).
  unfold inv_at in Hi. rewrite Hi in Hv. inversion Hv; subst. exact Ha.
Qed.

Lemma phase_cases ph : ph = NotCreated \/ ph = AwaitingAnswer \/ settled ph.
Proof. destruct ph; auto; right; right; split; discriminate. Qed.

(** A trigger at an invitation that awaits its answer resolves it. *)
Lemma sim_accept k st w :
  refines w k AwaitingAnswer -> refines (exec (ARecvAnswer k st) w) k Accepted.
Proof.
  intros R. destruct (refines_awaiting w k R) as (v & a & Hi & Ha & Hp & _).
  unfold exec. simpl. rewrite final_undef.
  exists (resolved v). split; [eapply onAnswer_resolves; eauto | split; [reflexivity | exact Hp]].
Qed.

Lemma sim_decline k st w :
  refines w k AwaitingAnswer -> refines (exec (ARecvDecline k st) w) k Declined.
Proof.
  intros R. destruct (refines_awaiting w k R) as (v & a & Hi & Ha & Hp & _).
  unfold exec. simpl. rewrite final_undef.
  exists (released v). split; [eapply onDecline_resolves; eauto | split; [reflexivity | exact Hp]].
Qed.

Lemma sim_cancel k w :
  refines w k AwaitingAnswer -> refines (exec (ACancel k) w) k Canceled.
Proof.
  intros R. destruct (refines_awaiting w k R) as (v & a & Hi & Ha & Hp & _).
  unfold exec. simpl. rewrite final_boolean.
  exists (resolved v). split; [eapply cancel_resolves; eauto | split; [reflexivity | exact Hp]].
Qed.

Lemma sim_timeout k w :
  refines w k AwaitingAnswer -> refines (exec (ATimeout k) w) k TimedOut.
Proof.
  intros R. destruct (refines_awaiting w k R) as (v & a & Hi & Ha & Hp & Ht).
  unfold exec. simpl. rewrite final_undef, (timer_fires_armed k w v Hi Ht).
  exists (released (set_timer_armed false v)).
  split; [|split; [reflexivity | exact Hp]].
  eapply onTimeout_resolves; [apply inv_at_expired, Hi | exact Ha].
Qed.

(** One step of the event loop is one step (or none) of the protocol. *)
Lemma sim_step k a w ph :
  refines w k ph -> refines (exec a w) k (fold_left spec_next (observe k a w) ph).
Proof.
  intros R.
  destruct (decide (addresses a = Some k)) as [Ha|Hna].
  - destruct (phase_cases ph) as [->|[->|Hs]].
    + destruct (absent_ignores k a w R Ha) as [-> ->]. exact R.
    + (* awaiting an answer *)
      destruct (refines_awaiting w k R) as (v & h & Hi & Hh & Hp & Ht).
      destruct a as [| | [k'|b] | [k'|b] | k' | k' | k' | k' | | | | | | | | | | |];
        simpl in Ha; try discriminate; inversion Ha; subst k'; clear Ha; simpl;
        rewrite ?Nat.eqb_refl; simpl.
      * rewrite Hi, Hp. simpl. unfold exec. simpl.
        rewrite final_undef, (media_granted_stale k stream w v Hi Hp). exact R.
      * rewrite Hi, Hp. simpl. unfold exec. simpl.
        rewrite final_undef, (media_denied_stale k error e w v Hi Hp). exact R.
      * apply sim_accept, R.
      * apply sim_decline, R.
      * rewrite Hi, Ht. simpl. apply sim_timeout, R.
      * apply sim_cancel, R.
    + (* idle, or resolved *)
      destruct (refines_settled w k ph Hs R) as (v & Hi & Hh & Hp).
      pose proof (settled_clear w k ph Hs R) as Hc.
      destruct a as [| | [k'|b] | [k'|b] | k' | k' | k' | k' | | | | | | | | | | |];
        simpl in Ha; try discriminate; inversion Ha; subst k'; clear Ha; simpl;
        rewrite ?Nat.eqb_refl; simpl.
      * rewrite Hi. destruct (media_pending v) eqn:Ep; simpl.
        -- assert (ph = Idle) as ->.
           { destruct (decide (ph = Idle)) as [|Hn]; [assumption|].
             specialize (Hp Hn). congruence. }
           unfold exec. simpl. rewrite final_undef.
           destruct (gLocalVid w) as [vid|] eqn:Ev; simpl.
           ++ destruct (media_granted_clash k stream w v vid Hi Ep Ev) as (e & w' & -> & Hi' & _).
              simpl. exists (set_media_pending false v). split; [exact Hi' | exact Hh].
           ++ destruct (media_granted_fresh k stream w v Hi Ep Ev) as (a & d & w' & -> & Hi' & _).
              simpl. eexists. split; [exact Hi'|]. simpl. repeat split; eauto.
        -- unfold exec. simpl.
           rewrite final_undef, (media_granted_stale k stream w v Hi Ep). exact R.
      * rewrite Hi. destruct (media_pending v) eqn:Ep; simpl.
        -- assert (ph = Idle) as ->.
           { destruct (decide (ph = Idle)) as [|Hn]; [assumption|].
             specialize (Hp Hn). congruence. }
           unfold exec. simpl. rewrite final_undef.
           destruct (media_denied_pending k error e w v Hi Ep) as (w' & -> & Hi' & _).
           simpl. exists (set_media_pending false v). split; [exact Hi' | exact Hh].
        -- unfold exec. simpl.
           rewrite final_undef, (media_denied_stale k error e w v Hi Ep). exact R.
      * rewrite settled_next by (auto; discriminate).
        unfold exec. simpl. rewrite final_undef, onAnswer_stale by exact Hc. exact R.
      * rewrite settled_next by (auto; discriminate).
        unfold exec. simpl. rewrite final_undef, onDecline_stale by exact Hc. exact R.
      * rewrite Hi. unfold exec. simpl. rewrite final_undef.
        destruct (timer_armed v) eqn:Et; simpl.
        -- rewrite settled_next by (auto; discriminate).
           rewrite (timer_fires_armed k w v Hi Et), onTimeout_stale.
           ++ simpl. apply (settled_refines _ k ph (set_timer_armed false v) Hs);
                [apply inv_at_expired, Hi | exact Hh | exact Hp].
           ++ intros v' Hv'. pose proof (inv_at_expired k v w Hi) as Hx.
              unfold inv_at in Hx. rewrite Hx in Hv'. inversion Hv'; subst. exact Hh.
        -- rewrite (timer_fires_unarmed k w v Hi Et). exact R.
      * rewrite settled_next by (auto; discriminate).
        unfold exec. simpl. rewrite final_boolean, cancel_stale by exact Hc. exact R.
  - destruct (is_start a) eqn:Hst.
    + destruct a as [| i t o my | | | | | | | | | | | | | | | | |]; try discriminate.
      clear Hna Hst. simpl.
      unfold exec. simpl. rewrite final_on_inst.
      destruct (insts w !! i) as [x|] eqn:Ex; simpl;
        [|rewrite andb_false_r; exact R].
      rewrite andb_true_r.
      assert (Hfin : forall m : M nat, final ((r <- m ;; ret (RHandle r)) w) = final (m w)).
      { intros m. unfold bind. destruct (m w); reflexivity. }
      rewrite Hfin.
      destruct (Nat.eqb_spec k (List.length (invs w))) as [->|Hk].
      * (* this call creates invitation [k] *)
        assert (ph = NotCreated) as ->.
        { destruct ph; auto; simpl in R; destruct R as (v & Hi & _);
            apply lookup_lt_Some in Hi; lia. }
        destruct (gLocalStream w) as [s|] eqn:Es; simpl.
        -- destruct (startMediaCall_open i t o my w s Es) as (a & d & w' & -> & Hi & _).
           simpl. eexists. split; [exact Hi|]. simpl. repeat split; eauto.
        -- destruct (startMediaCall_closed i t o my w Es) as (w' & -> & Hi & _).
           simpl. eexists. split; [exact Hi|]. reflexivity.
      * (* it creates another one *)
        simpl. destruct ph.
        -- simpl in *.
           pose proof (startMediaCall_length i t o my w) as Hl.
           lia.
        -- destruct R as (v & Hi & R). exists v. split; [|exact R].
           apply (other_startMediaCall k v i t o my w Hi).
        -- destruct R as (v & Hi & R). exists v. split; [|exact R].
           apply (other_startMediaCall k v i t o my w Hi).
        -- destruct R as (v & Hi & R). exists v. split; [|exact R].
           apply (other_startMediaCall k v i t o my w Hi).
        -- destruct R as (v & Hi & R). exists v. split; [|exact R].
           apply (other_startMediaCall k v i t o my w Hi).
        -- destruct R as (v & Hi & R). exists v. split; [|exact R].
           apply (other_startMediaCall k v i t o my w Hi).
        -- destruct R as (v & Hi & R). exists v. split; [|exact R].
           apply (other_startMediaCall k v i t o my w Hi).
    + rewrite observe_other by assumption. simpl.
      apply (refines_frame k ph w); [| |exact R].
      * intros v Hv. apply (step_other a k v Hna w Hv).
      * apply (invs_length_step _ a Hst w eq_refl).
Qed.

Lemma sim k tr : forall w ph,
  refines w k ph -> refines (run tr w) k (phase_run k tr w ph).
Proof.
  induction tr as [|a tr IH]; intros w ph R; simpl; [exact R|].
  apply IH, sim_step, R.
Qed.

(** Whatever happened since the page was loaded, the closure of invitation
    [k] stands for the protocol state that the history gives it. *)
Lemma refines_reachable tr k : refines (run tr init) k (phase_of tr k).
Proof. apply sim. simpl. lia. Qed.

Lemma run_app tr1 tr2 w : run (tr1 ++ tr2) w = run tr2 (run tr1 w).
Proof. revert w. induction tr1 as [|a tr1 IH]; intros w; simpl; [reflexivity | apply IH]. Qed.

Lemma phase_run_app k tr1 tr2 w ph :
  phase_run k (tr1 ++ tr2) w ph = phase_run k tr2 (run tr1 w) (phase_run k tr1 w ph).
Proof.
  revert w ph. induction tr1 as [|a tr1 IH]; intros w ph; simpl; [reflexivity | apply IH].
Qed.

Lemma terminal_next ph e : terminal ph -> spec_next ph e = ph.
Proof. intros [->|[->|[->| ->]]]; destruct e; reflexivity. Qed.

Lemma terminal_events ph l : terminal ph -> fold_left spec_next l ph = ph.
Proof.
  intros H. induction l as [|e l IH]; simpl; [reflexivity|].
  rewrite terminal_next by exact H. exact IH.
Qed.

Lemma terminal_run k tr : forall w ph, terminal ph -> phase_run k tr w ph = ph.
Proof.
  induction tr as [|a tr IH]; intros w ph H; simpl; [reflexivity|].
  rewrite terminal_events by exact H. apply IH, H.
Qed.


(** * Completion: what the callbacks do when nothing throws *)

Lemma unref_returns i w : stream_inv w -> exists w', _unrefLocalStream i w = Ok tt w'.
Proof.
  intros [H1 H2]. unfold _unrefLocalStream, bind, get. simpl.
  destruct (used_of w i); simpl; [|eauto].
  destruct (js_gt0 (js_dec (gLocalStreamRefcount w))); simpl; [eauto|].
  destruct (gLocalStream w) as [s|] eqn:Es; simpl; [|eauto].
  destruct (gLocalVid w) as [v|] eqn:Ev; simpl; [eauto|].
  destruct H2 as [? ?]; [eauto | discriminate].
Qed.

Lemma free_returns i w : stream_inv w -> exists w', _freeLocalStreamIfUnused i w = Ok tt w'.
Proof.
  intros H. unfold _freeLocalStreamIfUnused, bind, get.
  destruct (0 <? List.length (sessions_of w i))%nat; [eauto | apply unref_returns, H].
Qed.

(** Running the first part of a sequence that returns and keeps [P]. *)
Lemma bind_returns {A B} (P : World -> Prop) (m : M A) (f : A -> M B) w :
  P w -> preserves P m -> (exists a w', m w = Ok a w') ->
  exists a w', P w' /\ bind m f w = f a w'.
Proof.
  intros H Hp (a & w' & E). exists a, w'. split.
  - specialize (Hp w H). rewrite E in Hp. exact Hp.
  - unfold bind. rewrite E. reflexivity.
Qed.

Ltac run_bind P H :=
  match goal with
  | |- context [bind ?m ?f ?w] =>
      let a := fresh "a" in let w' := fresh "w" in let H' := fresh "H" in let E := fresh "E" in
      destruct (bind_returns P m f w H) as (a & w' & H' & E);
      [ pres | first [ exact (returns_deleteHandler _ _ _) | exact (returns_upd_inv _ _ _)
                       | exact (returns_modify _ _) | exists tt; apply free_returns; exact H ]
      | rewrite E; clear E; clear H; rename H' into H; cbv beta ]
  end.

Lemma cancel_awaiting k v a w :
  inv_at k v w -> ansHandler v = Some a -> stream_inv w ->
  exists w', startMediaCall_cancel k w = Ok true w' /\
             last (out w') = Some (cancel_message v).
Proof.
  intros H Ha Hs. unfold startMediaCall_cancel. unfold bind at 1, get. rewrite H, Ha. cbv zeta.
  clear H.
  do 5 run_bind stream_inv Hs.
  eexists. split; [reflexivity|]. simpl. apply last_snoc.
Qed.




(** * Handler registrations *)

Lemma unregistered_upd_inst i h i' f :
  (forall x, incl (handlers (f x)) (handlers x)) ->
  preserves (unregistered i h) (upd_inst i' f).
Proof.
  intros Hf w H (x & Hx & Hin). apply H. simpl in Hx.
  destruct (decide (i' = i)) as [->|Hne].
  - rewrite list_lookup_alter_eq in Hx.
    destruct (insts w !! i) as [y|] eqn:Ey; simpl in Hx; [|discriminate].
    inversion Hx; subst. exists y. split; [exact Ey | apply (Hf y), Hin].
  - rewrite list_lookup_alter_ne in Hx by exact Hne. exists x. auto.
Qed.

Lemma unregistered_deleteHandler i h i' h' : preserves (unregistered i h) (deleteHandler i' h').
Proof.
  destruct h' as [t|]; simpl; [|apply preserves_ret].
  apply unregistered_upd_inst. intros x u Hu. simpl in Hu.
  apply filter_In in Hu. tauto.
Qed.

Lemma unregistered_unref i h i' : preserves (unregistered i h) (_unrefLocalStream i').
Proof.
  unfold _unrefLocalStream. pres; try frame.
  apply unregistered_upd_inst. intros x u Hu. exact Hu.
Qed.

Lemma unregistered_free i h i' : preserves (unregistered i h) (_freeLocalStreamIfUnused i').
Proof. unfold _freeLocalStreamIfUnused. pres. apply unregistered_unref. Qed.

#[export] Hint Resolve unregistered_deleteHandler unregistered_unref unregistered_free : pres.


Lemma hoare_true {A} (m : M A) : hoare (fun _ => True) m (fun _ => True).
Proof. intros w _. exact I. Qed.





(** * Resolution of an outgoing invitation *)

Lemma fire_ignored k t w ph :
  refines w k ph -> ph <> AwaitingAnswer -> fire k t w = Ok (ignored t) w.
Proof.
  intros R Hne.
  assert (Hc : handles_clear w k).
  { destruct (phase_cases ph) as [->|[->|Hs]]; [|congruence|eapply settled_clear; eauto].
    intros v Hv. simpl in R. apply lookup_lt_Some in Hv. lia. }
  destruct t; simpl; unfold undef, boolean, bind.
  - rewrite onAnswer_stale by exact Hc. reflexivity.
  - rewrite onDecline_stale by exact Hc. reflexivity.
  - rewrite onTimeout_stale by exact Hc. reflexivity.
  - rewrite cancel_stale by exact Hc. reflexivity.
Qed.





(** C3: [cancel()] returns [true] exactly when the invitation awaits its
    answer; it then ends by sending [megaCallCancel] to the bare target.  In
    every other protocol state (still acquiring media, or resolved by
    accept, decline, timeout or an earlier cancel) it returns [false] and
    leaves the whole world as it was: nothing is sent and the local stream
    is not released again. *)
Theorem cancel_true_iff_awaiting (tr : list Action) (k : nat) :
  let w := run tr init in
  let r := startMediaCall_cancel k w in
  (result r = Some true <-> phase_of tr k = AwaitingAnswer) /\
  (phase_of tr k = AwaitingAnswer ->
     exists v, inv_at k v w /\ last (out (final r)) = Some (cancel_message v)) /\
  (phase_of tr k <> AwaitingAnswer -> r = Ok false w).
Proof.
  intros w r.
  pose proof (refines_reachable tr k) as R. fold w in R.
  pose proof (stream_inv_reachable tr) as Hinv. fold w in Hinv.
  assert (Hno : phase_of tr k <> AwaitingAnswer -> r = Ok false w).
  { intros Hn. pose proof (fire_ignored k Cancel w _ R Hn) as Hf.
    simpl in Hf. unfold boolean, bind in Hf. unfold r.
    destruct (startMediaCall_cancel k w) as [b w'|e w']; inversion Hf; reflexivity. }
  assert (Hyes : phase_of tr k = AwaitingAnswer ->
    exists v, inv_at k v w /\ r = Ok true (final r) /\
              last (out (final r)) = Some (cancel_message v)).
  { intros E. rewrite E in R.
    destruct (refines_awaiting w k R) as (v & a & Hi & Ha & _).
    destruct (cancel_awaiting k v a w Hi Ha Hinv) as (w' & Hc & Hl).
    exists v. unfold r. rewrite Hc. simpl. auto. }
  split; [split|split].
  - intros Hr. destruct (decide (phase_of tr k = AwaitingAnswer)) as [|Hn]; [assumption|].
    rewrite (Hno Hn) in Hr. discriminate.
  - intros E. destruct (Hyes E) as (v & _ & -> & _). reflexivity.
  - intros E. destruct (Hyes E) as (v & Hi & _ & Hl). eauto.
  - exact Hno.
Qed.

(** * Muted state *)

Lemma has_track_filter (f : TrackKind -> bool) (l : list TrackKind) :
  (0 <? List.length (List.filter f l))%nat = existsb f l.
Proof.
  induction l as [|t l IH]; simpl; [reflexivity|].
  destruct (f t); simpl; [reflexivity | exact IH].
Qed.

(** C7: a channel is muted exactly when it is not requested and the stream
    has a track of that kind.  In particular audio off and video on gives
    audio muted and video not muted, on a stream with both tracks as well as
    on a stream with audio tracks only. *)
Theorem mediaOptionsToMutedState_spec :
  (forall options stream,
     audioMuted (mediaOptionsToMutedState options stream)
       = negb (audio options) && existsb is_audio (ms_tracks stream) /\
     videoMuted (mediaOptionsToMutedState options stream)
       = negb (video options) && existsb is_video (ms_tracks stream)) /\
  (forall id, mediaOptionsToMutedState (mkOptions false true) (mkStream id [Audio; Video])
                = mkMuted true false) /\
  (forall id n, mediaOptionsToMutedState (mkOptions false true)
                  (mkStream id (Audio :: repeat Audio n))
                = mkMuted true false).
Proof.
  split; [|split].
  - intros options stream. unfold mediaOptionsToMutedState, getAudioTracks, getVideoTracks.
    simpl. rewrite !has_track_filter. split; reflexivity.
  - intros id. reflexivity.
  - intros id n. reflexivity.
Qed.

(** * Mute fan-out *)

(** C6 (the code at the failing input): with a jid that matches no
    registered session, and indeed with any non-empty jid whatever the
    registry holds, [muteUnmute] returns [true]; it mutes exactly the
    sessions of that bare identity, which may be none. *)
Theorem muteUnmute_unmatched_jid_returns_true :
  result (muteUnmute 0 true (mkOptions true false) (Some nobody) (run [ANew "me@example.com/pc"] init))
    = Some true /\
  (forall i state what c jid w,
     result (muteUnmute i state what (Some (String c jid)) w) = Some true).
Proof.
  split; [reflexivity|].
  intros i state what c jid w. unfold muteUnmute, _getSessionsForJid. unfold bind at 1 2, get.
  change (truthy (Some (String c jid))) with true. cbv iota beta. simpl negb. cbv iota.
  unfold ret at 1. cbv iota beta.
  generalize (List.map snd
    (List.filter (fun p : string * Session =>
       String.eqb (getBareJidFromJid p.1) (getBareJidFromJid (default "" (Some (String c jid)))))
       (jid2session_of w i))).
  intros l. revert w. induction l as [|s l IH]; intros w; [reflexivity|].
  simpl. unfold bind in *. simpl. apply IH.
Qed.

(** * Scenarios *)

Lemma ringing_awaits : phase_of ringing 0 = AwaitingAnswer.
Proof. reflexivity. Qed.

(** * The decline reason *)

(** C5 (the code at the failing input): the [call-declined] event carries
    the [reason] attribute of the stanza as it is; when the peer sent none
    the emitted reason is undefined, not ["busy"]. *)
Theorem decline_without_reason_emits_undefined :
  last (out (exec (ARecvDecline 0 bare_decline) (run ringing init)))
    = Some (OTrigger 0 (EvCallDeclined (Some bob_phone) None None)) /\
  (forall reason,
     last (out (exec (ARecvDecline 0 (mkStanza (Some bob_phone) reason [])) (run ringing init)))
       = Some (OTrigger 0 (EvCallDeclined (Some bob_phone) reason None))).
Proof.
  split; [reflexivity|]. intros reason. reflexivity.
Qed.

(** * Answering an incoming call *)

Lemma answer_expired r accept obj w q :
  reqs w !! r = Some q -> req_valid q = false -> answer r accept obj w = Ok false w.
Proof. intros E Hv. unfold answer, bind, get. rewrite E, Hv. reflexivity. Qed.

Lemma answer_decline r obj w q :
  reqs w !! r = Some q -> req_valid q = true ->
  answer r false obj w =
    Ok true (set_out (out w ++ [OAnsFunc r false (PDecline (decline_reason obj) (obj_text obj))]) w).
Proof. intros E Hv. unfold answer, bind, get. rewrite E, Hv. reflexivity. Qed.

Lemma answer_accept_not_false r obj w q :
  reqs w !! r = Some q -> req_valid q = true ->
  result (answer r true obj w) <> Some false.
Proof.
  intros E Hv. unfold answer. unfold bind at 1, get. rewrite E, Hv. simpl.
  unfold bind. destruct (_myGetUserMedia _ _ _ _ w); simpl; discriminate.
Qed.

(** C8: the answer function returns [false] exactly when the request is no
    longer valid at the moment of the call: validity is read from the
    current world, so a request that expired after the event was delivered
    is refused.  A decline of a valid request is handed to jingle with the
    given reason, or ["busy"] when none is given, and [true] is returned.
    An accept while the stream is closed asks the platform for media; when
    the platform then reports an error, jingle is told to decline with
    reason ["error"] and a text that ends with the device error. *)
Theorem answer_checks_live_validity (w : World) (r : nat) (q : Incoming)
    (accept : bool) (obj : AnswerObj) (Hq : reqs w !! r = Some q) :
  (result (answer r accept obj w) = Some false <-> req_valid q = false) /\
  (req_valid q = false -> answer r accept obj w = Ok false w) /\
  result (answer r accept obj (exec (AExpire r) w)) = Some false /\
  (req_valid q = true ->
     answer r false obj w =
       Ok true (set_out (out w ++ [OAnsFunc r false (PDecline (decline_reason obj) (obj_text obj))]) w) /\
     (obj_reason obj = None -> decline_reason obj = "busy")) /\
  (req_valid q = true -> gLocalStream w = None ->
     let w1 := set_acts (acts w ++ [mkActivation r obj true]) w in
     answer r true obj w = Ok true w1 /\
     forall error e,
       out (exec (AMediaDenied (ForAnswer (List.length (acts w))) error e) w1) =
         (out w ++ [OAnsFunc r false
                      (PDecline "error"
                         (Some ("There was a problem accessing user's camera or microphone. Error: "
                                +:+ device_error error e)));
                    OTrigger (req_self q) (EvLocalMediaFail (device_error error e))])%list).
Proof.
  split; [|split; [|split; [|split]]].
  - split.
    + intros Hr. destruct (req_valid q) eqn:Hv; [|reflexivity]. exfalso.
      destruct accept.
      * exact (answer_accept_not_false r obj w q Hq Hv Hr).
      * rewrite (answer_decline r obj w q Hq Hv) in Hr. discriminate.
    + intros Hv. rewrite (answer_expired r accept obj w q Hq Hv). reflexivity.
  - apply answer_expired, Hq.
  - erewrite answer_expired; [reflexivity | |].
    + unfold exec. simpl. rewrite list_lookup_alter_eq, Hq. reflexivity.
    + reflexivity.
  - intros Hv. split; [apply (answer_decline r obj w q Hq Hv)|].
    intros E. unfold decline_reason. rewrite E. reflexivity.
  - intros Hv Es w1. split.
    + unfold answer. unfold bind at 1, get. rewrite Hq, Hv. simpl.
      unfold bind at 1. rewrite myGetUserMedia_closed by exact Es. reflexivity.
    + intros error e. unfold exec. simpl. rewrite final_undef.
      unfold media_denied. unfold bind at 1, get.
      assert (Ha : acts w1 !! List.length (acts w) = Some (mkActivation r obj true)).
      { unfold w1. simpl. apply list_lookup_middle. reflexivity. }
      rewrite Ha. simpl. unfold bind at 1. simpl.
      rewrite Hq. simpl. rewrite <- app_assoc. reflexivity.
Qed.

(** * Releasing twice *)

Lemma safe_ret {A} P (a : A) : safe P (ret a).
Proof. intros w H. eauto. Qed.

Lemma safe_bind {A B} P (m : M A) (f : A -> M B) :
  safe P m -> (forall a, safe P (f a)) -> safe P (bind m f).
Proof.
  intros Hm Hf w H. destruct (Hm w H) as (a & w' & E & H').
  unfold bind. rewrite E. apply Hf, H'.
Qed.

Lemma safe_get P : safe P get.
Proof. intros w H. eexists _, _. split; [reflexivity | exact H]. Qed.

Lemma safe_modify P f : (forall w, P w -> P (f w)) -> safe P (modify f).
Proof. intros Hf w H. eexists _, _. split; [reflexivity | apply Hf, H]. Qed.

Lemma used_of_alter w i i' f :
  (forall x, _usedLocalStream (f x) = _usedLocalStream x) ->
  used_of (set_insts (alter f i' (insts w)) w) i = used_of w i.
Proof.
  intros Hf. unfold used_of. simpl.
  destruct (decide (i' = i)) as [->|Hne].
  - rewrite list_lookup_alter_eq. destruct (insts w !! i); simpl; [apply Hf | reflexivity].
  - rewrite list_lookup_alter_ne by exact Hne. reflexivity.
Qed.

Section ReleasedHolder.
Context (i : nat) (s : option MediaStream) (v : option Vid) (n : JsNum).
Let P := released_holder i s v n.

Lemma released_unref : safe P (_unrefLocalStream i).
Proof.
  intros w H. unfold _unrefLocalStream, bind, get.
  destruct H as (Hu & H). rewrite Hu. simpl. eexists _, _. split; [reflexivity|].
  split; assumption.
Qed.

Lemma released_free : safe P (_freeLocalStreamIfUnused i).
Proof.
  unfold _freeLocalStreamIfUnused. apply safe_bind; [apply safe_get | intros w0].
  destruct (0 <? List.length (sessions_of w0 i))%nat; [apply safe_ret | apply released_unref].
Qed.

Lemma released_emit o : safe P (emit o).
Proof. apply safe_modify. intros w H. exact H. Qed.

Lemma released_registry f g :
  safe P (upd_inst i (fun x => set_registry (f x) (g x) x)).
Proof.
  apply safe_modify. intros w (Hu & H). split; [|exact H].
  rewrite used_of_alter; [exact Hu | reflexivity].
Qed.

Lemma released_onCallTerminated sess r t : safe P (onCallTerminated i sess r t).
Proof.
  unfold onCallTerminated, removeVideo, trigger.
  apply safe_bind; [destruct (localStream sess); [apply released_emit | apply safe_ret]|].
  intros _. apply safe_bind; [apply released_emit|].
  intros _. apply safe_bind; [apply released_emit|].
  intros _. apply released_free.
Qed.

Lemma released_jingle_terminate sess r t : safe P (jingle_terminate i sess r t).
Proof.
  unfold jingle_terminate. apply safe_bind; [apply released_registry|].
  intros _. apply released_onCallTerminated.
Qed.

Lemma released_terminate_each l r t : safe P (terminate_each i l r t).
Proof.
  induction l as [|x l IH]; simpl; [apply safe_ret|].
  apply safe_bind; [apply released_jingle_terminate | intros _; exact IH].
Qed.

Lemma released_hangup jid : safe P (hangup i jid).
Proof.
  unfold hangup, terminateByJid, terminateAll.
  destruct (truthy jid);
    (apply safe_bind; [apply safe_get | intros w0; apply released_terminate_each]).
Qed.

Lemma released_destroy : safe P (destroy i).
Proof.
  unfold destroy. apply safe_bind; [apply released_hangup | intros _; apply released_unref].
Qed.
End ReleasedHolder.

Lemma unref_clears_flag i w : used_of (final (_unrefLocalStream i w)) i = false.
Proof.
  unfold _unrefLocalStream, bind, get.
  destruct (used_of w i) eqn:Hu; simpl; [|exact Hu].
  assert (Hc : forall w', insts w' = alter (set_used false) i (insts w) -> used_of w' i = false).
  { intros w' E. unfold used_of. rewrite E, list_lookup_alter_eq.
    destruct (insts w !! i); reflexivity. }
  destruct (js_gt0 (js_dec (gLocalStreamRefcount w))); simpl; [apply Hc; reflexivity|].
  destruct (gLocalStream w); simpl; [|apply Hc; reflexivity].
  destruct (gLocalVid w); simpl; apply Hc; reflexivity.
Qed.

(** C9: once an instance has released its reference, releasing again does
    nothing: a second [_unrefLocalStream] returns at its guard and leaves
    the world as it is, and [destroy()] (whatever sessions it still has to
    terminate) returns normally without touching the count, the shared
    stream or its player. *)
Theorem release_is_idempotent (w : World) (i : nat) :
  let w1 := final (_unrefLocalStream i w) in
  _unrefLocalStream i w1 = Ok tt w1 /\
  exists w2,
    destroy i w1 = Ok tt w2 /\
    gLocalStreamRefcount w2 = gLocalStreamRefcount w1 /\
    gLocalStream w2 = gLocalStream w1 /\
    gLocalVid w2 = gLocalVid w1 /\
    used_of w2 i = false.
Proof.
  intros w1. pose proof (unref_clears_flag i w) as Hu. fold w1 in Hu.
  split.
  - unfold _unrefLocalStream, bind, get. rewrite Hu. reflexivity.
  - destruct (released_destroy i (gLocalStream w1) (gLocalVid w1) (gLocalStreamRefcount w1) w1)
      as ([] & w2 & E & Hu2 & Hs & Hv & Hn).
    { repeat split; auto. }
    exists w2. repeat split; auto.
Qed.

(** * Cancelling while media is being acquired *)

Lemma pending_is_idle w k ph v :
  refines w k ph -> inv_at k v w -> media_pending v = true -> ph = Idle.
Proof.
  intros R Hi Hp. unfold inv_at in Hi.
  destruct ph; simpl in R; try reflexivity.
  - apply lookup_lt_Some in Hi. lia.
  - destruct R as (v' & Hi' & _ & _ & Hp' & _). unfold inv_at in Hi'. congruence.
  - destruct R as (v' & Hi' & _ & Hp'). unfold inv_at in Hi'. congruence.
  - destruct R as (v' & Hi' & _ & Hp'). unfold inv_at in Hi'. congruence.
  - destruct R as (v' & Hi' & _ & Hp'). unfold inv_at in Hi'. congruence.
  - destruct R as (v' & Hi' & _ & Hp'). unfold inv_at in Hi'. congruence.
Qed.

(** While an invitation has no handler yet (its media is still being
    acquired, or was refused), [cancel()] returns [false] and changes
    nothing.  Whatever happens next, if the platform then grants the media
    while the request is still outstanding and no local player exists, the
    [megaCall] invitation is the last thing sent and the invitation awaits
    its answer: [cancel()] cannot stop a call during acquisition. *)
Theorem cancel_during_acquisition (tr1 : list Action) (k : nat) (tr2 : list Action)
    (s : MediaStream) (v : Invitation) (Hidle : phase_of tr1 k = Idle) :
  let w1 := run tr1 init in
  let w2 := run tr2 w1 in
  let granted := AMediaGranted (ForInvitation k) s in
  startMediaCall_cancel k w1 = Ok false w1 /\
  (inv_at k v w2 -> media_pending v = true -> gLocalVid w2 = None ->
     last (out (exec granted w2)) = Some (invitation_message v) /\
     phase_of (tr1 ++ ACancel k :: tr2 ++ [granted]) k = AwaitingAnswer).
Proof.
  intros w1 w2 g.
  pose proof (refines_reachable tr1 k) as R. fold w1 in R. rewrite Hidle in R.
  assert (Hc : startMediaCall_cancel k w1 = Ok false w1).
  { apply cancel_stale. eapply settled_clear; [|exact R]. split; discriminate. }
  split; [exact Hc|]. intros Hi Hp Hv. split.
  - unfold exec, g. simpl. rewrite final_undef.
    destruct (media_granted_fresh k s w2 v Hi Hp Hv) as (a & d & w' & -> & _ & Ho).
    simpl. rewrite Ho.
    change (?l ++ [?x; ?y])%list with (l ++ [x] ++ [y])%list.
    rewrite app_assoc. apply last_snoc.
  - unfold phase_of. rewrite phase_run_app. fold w1.
    change (phase_run k tr1 init NotCreated) with (phase_of tr1 k). rewrite Hidle.
    simpl phase_run at 1.
    assert (Hx : exec (ACancel k) w1 = w1).
    { unfold exec. simpl. rewrite final_boolean, Hc. reflexivity. }
    rewrite Hx, Nat.eqb_refl. simpl fold_left.
    rewrite phase_run_app. fold w2.
    pose proof (sim k tr2 w1 Idle R) as R2. fold w2 in R2.
    rewrite (pending_is_idle w2 k _ v R2 Hi Hp).
    simpl. unfold inv_at in Hi. rewrite Hi, Nat.eqb_refl, Hp, Hv. reflexivity.
Qed.

(** C10 (the code at the failing input).  Alice rings Bob and Carol before
    the camera is granted, so both calls wait for their own [getUserMedia].
    The cancel of the call to Carol returns [false] and changes nothing, as
    the claim says.  The platform then grants both requests.  The first
    grant opens the stream and sends the invitation to Bob.  The second
    overwrites the shared stream and sets the count back to one, finds the
    player of the first, and the assertion of [_onMediaReady] throws before
    the success callback of [startMediaCall] is reached: the invitation to
    Carol is never sent, its handlers are never registered, and no later
    grant for it is accepted. *)
Theorem second_grant_does_not_invite :
  let before := (two_requests ++ [ACancel 1; AMediaGranted (ForInvitation 0) camera])%list in
  let w := run race init in
  step (ACancel 1) (run two_requests init) = Ok (RBool false) (run two_requests init) /\
  In (OSend 0 (mkMsg bob "megaCall" None None)) (out (run before init)) /\
  gLocalStreamRefcount (run before init) = JNum 1 /\
  step (AMediaGranted (ForInvitation 1) camera) (run before init)
    = Throw "Local stream just obtained, but localVid was not null" w /\
  gLocalStream w = Some camera /\ gLocalStreamRefcount w = JNum 1 /\
  out w = out (run before init) /\
  ~ In (OSend 0 (mkMsg carol "megaCall" None None)) (out w) /\
  handles_clear w 1 /\
  step (AMediaGranted (ForInvitation 1) camera) w = Ok RUndefined w /\
  ~ invitation_proceeds race 1 carol.
Proof.
  cbv zeta.
  repeat match goal with |- _ /\ _ => split end; try (vm_compute; reflexivity).
  - vm_compute. repeat (first [left; reflexivity | right]).
  - intros H. vm_compute in H.
    repeat match goal with H : _ \/ _ |- _ => destruct H as [H|H] end;
      try discriminate; exact H.
  - intros v Hv. vm_compute in Hv. inversion Hv. reflexivity.
  - intros [_ H]. vm_compute in H. discriminate.
Qed.

Lemma cancel_during_acquisition_witness :
  startMediaCall_cancel 0 (run acquiring init) = Ok false (run acquiring init) /\
  phase_of (acquiring ++ ACancel 0 :: [] ++ [AMediaGranted (ForInvitation 0) camera]) 0
    = AwaitingAnswer.
Proof.
  assert (Hi : phase_of acquiring 0 = Idle) by (vm_compute; reflexivity).
  destruct (cancel_during_acquisition acquiring 0 [] camera
              (set_media_pending true (fresh_invitation 0 bob bothMedia None)) Hi)
    as [H1 H2].
  split; [exact H1|].
  refine (proj2 (H2 _ _ _)); vm_compute; reflexivity.
Defined.

(** * A reference that is never released *)

(** C1 (the code at the failing input): after two invitations of one
    instance have both been declined, no call or invitation is left, yet the
    count is still one and the camera is still open.  [_refLocalStream]
    counted both acquisitions while [_unrefLocalStream] gives back one per
    instance: the first decline released it, the second found the flag
    cleared.  No later release by this instance, not even [destroy()],
    closes the stream. *)
Theorem two_declined_calls_leak_a_reference :
  let w := run two_declined init in
  phase_of two_declined 0 = Declined /\
  phase_of two_declined 1 = Declined /\
  sessions_of w 0 = [] /\
  used_of w 0 = false /\
  gLocalStreamRefcount w = JNum 1 /\
  gLocalStream w = Some camera /\
  exec (AUnref 0) w = w /\
  exec (ADestroy 0) w = w.
Proof.
  cbv zeta. repeat match goal with |- _ /\ _ => split end; vm_compute; reflexivity.
Qed.

(** * The answer timer outlives the resolution *)



Lemma cancel_true_iff_awaiting_witness :
  result (startMediaCall_cancel 0 (run ringing init)) = Some true /\
  startMediaCall_cancel 0 (run timed_out init) = Ok false (run timed_out init).
Proof.
  split.
  - apply (proj1 (cancel_true_iff_awaiting ringing 0)). exact ringing_awaits.
  - apply (proj2 (proj2 (cancel_true_iff_awaiting timed_out 0))).
    vm_compute. discriminate.
Defined.

Lemma answer_checks_live_validity_witness :
  let w := run called init in
  let obj := mkAnswerObj None None None in
  result (answer 0 false obj (exec (AExpire 0) w)) = Some false /\
  answer 0 false obj w =
    Ok true (set_out (out w ++ [OAnsFunc 0 false (PDecline "busy" None)]) w).
Proof.
  intros w obj.
  assert (Hq : reqs w !! 0 = Some (mkIncoming 0 bob_phone true)) by (vm_compute; reflexivity).
  destruct (answer_checks_live_validity w 0 _ false obj Hq) as (_ & _ & H3 & H4 & _).
  split; [exact H3|]. exact (proj1 (H4 eq_refl)).
Defined.

(** * Losing the connection *)

Lemma safe_preserves {A} P (m : M A) :
  preserves P m -> (forall w, P w -> exists a w', m w = Ok a w') -> safe P m.
Proof.
  intros Hp Hr w H. destruct (Hr w H) as (a & w' & E). exists a, w'.
  split; [exact E|]. specialize (Hp w H). rewrite E in Hp. exact Hp.
Qed.

(** Sequencing under an invariant [S] that rules out exceptions. *)
Lemma hoare_bind_safe {A B} (S Pre Mid Post : World -> Prop) (m : M A) (f : A -> M B) :
  safe S m -> hoare Pre m Mid ->
  (forall a, hoare (fun w => S w /\ Mid w) (f a) Post) ->
  hoare (fun w => S w /\ Pre w) (bind m f) Post.
Proof.
  intros Hs Hm Hf w [HS HP]. destruct (Hs w HS) as (a & w' & E & HS').
  specialize (Hm w HP). unfold bind. rewrite E in *. simpl in Hm.
  apply Hf. split; assumption.
Qed.

Section SafeStream.
Lemma safe_stream_emit o : safe stream_inv (emit o).
Proof. apply safe_modify. intros w H. exact H. Qed.

Lemma safe_stream_upd_inst i f : safe stream_inv (upd_inst i f).
Proof. apply safe_modify. intros w H. exact H. Qed.

Lemma safe_stream_unref i : safe stream_inv (_unrefLocalStream i).
Proof.
  apply safe_preserves; [apply stream_inv_unref|].
  intros w H. destruct (unref_returns i w H) as (w' & E). eauto.
Qed.

Lemma safe_stream_free i : safe stream_inv (_freeLocalStreamIfUnused i).
Proof.
  apply safe_preserves; [apply stream_inv_free|].
  intros w H. destruct (free_returns i w H) as (w' & E). eauto.
Qed.

Lemma safe_stream_onCallTerminated i sess r t : safe stream_inv (onCallTerminated i sess r t).
Proof.
  unfold onCallTerminated, removeVideo, trigger.
  apply safe_bind; [destruct (localStream sess); [apply safe_stream_emit | apply safe_ret]|].
  intros _. apply safe_bind; [apply safe_stream_emit|].
  intros _. apply safe_bind; [apply safe_stream_emit|].
  intros _. apply safe_stream_free.
Qed.

Lemma safe_stream_jingle_terminate i sess r t : safe stream_inv (jingle_terminate i sess r t).
Proof.
  unfold jingle_terminate. apply safe_bind; [apply safe_stream_upd_inst|].
  intros _. apply safe_stream_onCallTerminated.
Qed.

Lemma safe_stream_terminate_each i l r t : safe stream_inv (terminate_each i l r t).
Proof.
  induction l as [|x l IH]; simpl; [apply safe_ret|].
  apply safe_bind; [apply safe_stream_jingle_terminate | intros _; exact IH].
Qed.
End SafeStream.

(** ** The registry drains *)

Lemma sessions_of_alter w i i' f :
  (forall x, sessions (f x) = sessions x) ->
  sessions_of (set_insts (alter f i' (insts w)) w) i = sessions_of w i.
Proof.
  intros Hf. unfold sessions_of. simpl.
  destruct (decide (i' = i)) as [->|Hne].
  - rewrite list_lookup_alter_eq. destruct (insts w !! i); simpl; [apply Hf | reflexivity].
  - rewrite list_lookup_alter_ne by exact Hne. reflexivity.
Qed.

Lemma to_terminate_unref i rest i' : preserves (to_terminate i rest) (_unrefLocalStream i').
Proof.
  unfold _unrefLocalStream. pres.
  intros w H. unfold to_terminate. simpl.
  intros p Hp. apply H. revert Hp.
  unfold upd_inst, modify, final.
  rewrite sessions_of_alter by reflexivity. exact id.
Qed.

Lemma to_terminate_free i rest i' : preserves (to_terminate i rest) (_freeLocalStreamIfUnused i').
Proof. unfold _freeLocalStreamIfUnused. pres. apply to_terminate_unref. Qed.

Lemma to_terminate_onCallTerminated i rest i' sess r t :
  preserves (to_terminate i rest) (onCallTerminated i' sess r t).
Proof. unfold onCallTerminated, removeVideo. pres. apply to_terminate_free. Qed.

Lemma unregister_advances i s rest r t :
  hoare (to_terminate i (s :: rest)) (jingle_terminate i s r t) (to_terminate i rest).
Proof.
  unfold jingle_terminate.
  refine (hoare_bind _ (to_terminate i rest) _ _ _ (returns_upd_inst _ _) _ _).
  - intros w H p Hp. unfold upd_inst, modify, final, sessions_of in Hp. simpl in Hp.
    rewrite list_lookup_alter_eq in Hp. unfold to_terminate, sessions_of in H.
    destruct (insts w !! i) as [x|]; simpl in Hp; [|destruct Hp].
    unfold assoc_del in Hp. apply filter_In in Hp. destruct Hp as [Hin Hne].
    destruct (H p Hin) as [E|Hr]; [|exact Hr].
    rewrite <- E, String.eqb_refl in Hne. discriminate.
  - intros _. apply to_terminate_onCallTerminated.
Qed.

Lemma terminate_each_drains i l r t :
  hoare (fun w => stream_inv w /\ to_terminate i l w) (terminate_each i l r t)
        (to_terminate i []).
Proof.
  induction l as [|s l IH]; simpl.
  - intros w [_ H]. exact H.
  - apply (hoare_bind_safe stream_inv _ (to_terminate i l)).
    + apply safe_stream_jingle_terminate.
    + apply unregister_advances.
    + intros _. exact IH.
Qed.

Lemma drained_empty i w : to_terminate i [] w -> sessions_of w i = [].
Proof.
  intros H. destruct (sessions_of w i) as [|p l] eqn:E; [reflexivity|].
  exfalso. apply (H p). rewrite E. left. reflexivity.
Qed.

Lemma keyed_to_terminate i w :
  keyed w i -> to_terminate i (List.map snd (sessions_of w i)) w.
Proof.
  intros H p Hp. rewrite (H p Hp). apply in_map. apply in_map. exact Hp.
Qed.

(** ** The instance's reference is given back once *)

Lemma unref_count i w :
  gLocalStreamRefcount (final (_unrefLocalStream i w))
    = count_after_release (used_of w i) (gLocalStreamRefcount w).
Proof.
  unfold _unrefLocalStream, bind, get, count_after_release.
  destruct (used_of w i); simpl; [|reflexivity].
  destruct (js_gt0 (js_dec (gLocalStreamRefcount w))); simpl; [reflexivity|].
  destruct (gLocalStream w); simpl; [|reflexivity].
  destruct (gLocalVid w); reflexivity.
Qed.

Lemma unref_releases i u0 n0 :
  hoare (released_at_most_once i u0 n0) (_unrefLocalStream i) (released_once i u0 n0).
Proof.
  intros w H. split; [apply unref_clears_flag|].
  rewrite unref_count. destruct H as [[Hu Hn]|[Hu Hn]]; rewrite Hu, Hn; reflexivity.
Qed.

Lemma once_unref i u0 n0 : preserves (released_at_most_once i u0 n0) (_unrefLocalStream i).
Proof. intros w H. right. apply (unref_releases i u0 n0 w H). Qed.

Lemma once_free i u0 n0 : preserves (released_at_most_once i u0 n0) (_freeLocalStreamIfUnused i).
Proof. unfold _freeLocalStreamIfUnused. pres. apply once_unref. Qed.

Lemma once_onCallTerminated i u0 n0 sess r t :
  preserves (released_at_most_once i u0 n0) (onCallTerminated i sess r t).
Proof. unfold onCallTerminated, removeVideo. pres. apply once_free. Qed.

Lemma once_jingle_terminate i u0 n0 sess r t :
  preserves (released_at_most_once i u0 n0) (jingle_terminate i sess r t).
Proof.
  unfold jingle_terminate. apply preserves_bind; [|intros _; apply once_onCallTerminated].
  intros w H. unfold released_at_most_once, upd_inst, modify, final in *.
  rewrite used_of_alter by reflexivity. exact H.
Qed.

Lemma once_terminate_each i u0 n0 l r t :
  preserves (released_at_most_once i u0 n0) (terminate_each i l r t).
Proof.
  induction l as [|s l IH]; simpl; [apply preserves_ret|].
  apply preserves_bind; [apply once_jingle_terminate | intros _; exact IH].
Qed.

(** ** Every session is reported *)

Lemma emitted_emit o o' : preserves (emitted o) (emit o').
Proof. intros w H. unfold emitted in *. simpl. apply in_or_app. left. exact H. Qed.

Lemma emit_emitted o : hoare (fun _ => True) (emit o) (emitted o).
Proof. intros w _. unfold emitted. simpl. apply in_or_app. right. left. reflexivity. Qed.

Lemma emitted_unref o i : preserves (emitted o) (_unrefLocalStream i).
Proof. unfold _unrefLocalStream, trigger. pres; apply emitted_emit. Qed.

Lemma emitted_free o i : preserves (emitted o) (_freeLocalStreamIfUnused i).
Proof. unfold _freeLocalStreamIfUnused. pres. apply emitted_unref. Qed.

Lemma emitted_onCallTerminated o i sess r t : preserves (emitted o) (onCallTerminated i sess r t).
Proof.
  unfold onCallTerminated, removeVideo, trigger. pres;
    first [apply emitted_emit | apply emitted_free].
Qed.

Lemma emitted_jingle_terminate o i sess r t : preserves (emitted o) (jingle_terminate i sess r t).
Proof. unfold jingle_terminate. pres. apply emitted_onCallTerminated. Qed.

Lemma emitted_terminate_each o i l r t : preserves (emitted o) (terminate_each i l r t).
Proof.
  induction l as [|s l IH]; simpl; [apply preserves_ret|].
  apply preserves_bind; [apply emitted_jingle_terminate | intros _; exact IH].
Qed.

Lemma jingle_terminate_reports i s r t :
  hoare (fun _ => True) (jingle_terminate i s r t) (emitted (call_ended i s r t)).
Proof.
  unfold jingle_terminate, onCallTerminated, removeVideo, trigger.
  refine (hoare_bind _ (fun _ => True) _ _ _ (returns_upd_inst _ _) (hoare_true _) _). intros _.
  refine (hoare_bind _ (fun _ => True) _ _ _ _ (hoare_true _) _).
  { destruct (localStream s); intros w; eexists _, _; reflexivity. }
  intros _.
  refine (hoare_bind _ (fun _ => True) _ _ _ (returns_modify _) (hoare_true _) _). intros _.
  refine (hoare_bind _ (emitted (call_ended i s r t)) _ _ _ (returns_modify _) (emit_emitted _) _).
  intros _. apply emitted_free.
Qed.

Lemma hoare_then_preserves {A B} Pre Mid (m : M A) (f : A -> M B) :
  hoare Pre m Mid -> (forall a, preserves Mid (f a)) -> hoare Pre (bind m f) Mid.
Proof.
  intros Hm Hf w H. specialize (Hm w H). unfold bind.
  destruct (m w) as [a w'|e w']; simpl in *; [apply Hf, Hm | exact Hm].
Qed.

Lemma terminate_each_reports i l r t s :
  In s l ->
  hoare stream_inv (terminate_each i l r t) (emitted (call_ended i s r t)).
Proof.
  induction l as [|x l IH]; simpl; [intros []|].
  intros [->|Hin] w Hs.
  - refine (hoare_then_preserves (fun _ => True) _ _ _ (jingle_terminate_reports i s r t) _ w I).
    intros _. apply emitted_terminate_each.
  - destruct (safe_stream_jingle_terminate i x r t w Hs) as (a & w' & E & Hs').
    unfold bind. rewrite E. apply (IH Hin w' Hs').
Qed.

(** ** The connection event *)

Lemma terminateAll_eq i r t w :
  terminateAll i r t w = terminate_each i (List.map snd (sessions_of w i)) r t w.
Proof. reflexivity. Qed.

(** [terminateAll] on a world that satisfies the stream invariant and
    whose registry is keyed by session id: it returns, every session is
    gone and reported, and the instance has released its reference at most
    once (by the [onCallTerminated] of its last session). *)
Lemma sessions_ended i w :
  stream_inv w -> keyed w i ->
  exists w',
    terminateAll i None None w = Ok tt w' /\
    stream_inv w' /\
    sessions_of w' i = [] /\
    (forall p, In p (sessions_of w i) -> emitted (call_ended i (snd p) None None) w') /\
    released_at_most_once i (used_of w i) (gLocalStreamRefcount w) w'.
Proof.
  intros Hs Hk. rewrite terminateAll_eq.
  set (l := List.map snd (sessions_of w i)).
  destruct (safe_stream_terminate_each i l None None w Hs) as ([] & w1 & E1 & Hs1).
  pose proof (terminate_each_drains i l None None w (conj Hs (keyed_to_terminate i w Hk))) as Hd.
  pose proof (once_terminate_each i (used_of w i) (gLocalStreamRefcount w) l None None w
                (or_introl (conj eq_refl eq_refl))) as Ho.
  assert (Hr : forall p, In p (sessions_of w i) -> emitted (call_ended i (snd p) None None) w1).
  { intros p Hp.
    pose proof (terminate_each_reports i l None None (snd p) (in_map snd _ _ Hp) w Hs) as H.
    rewrite E1 in H. exact H. }
  rewrite E1 in *. simpl in Hd, Ho. apply drained_empty in Hd.
  exists w1. auto.
Qed.


(** ** Registries are keyed by session id *)

Lemma all_keyed_init : all_keyed init.
Proof. intros i p []. Qed.

Lemma all_keyed_upd_inst i f :
  (forall x, sessions (f x) = sessions x) -> preserves all_keyed (upd_inst i f).
Proof.
  intros Hf w H j p Hp. apply (H j p). revert Hp.
  unfold upd_inst, modify, final. rewrite sessions_of_alter by exact Hf. exact id.
Qed.

Lemma assoc_set_keyed (s : Session) (l : list (string * Session)) :
  (forall p, In p l -> fst p = sid (snd p)) ->
  forall p, In p (assoc_set (sid s) s l) -> fst p = sid (snd p).
Proof.
  induction l as [|[k' v'] l IH]; simpl; intros H p Hp.
  - destruct Hp as [<-|[]]. reflexivity.
  - destruct (String.eqb (sid s) k').
    + destruct Hp as [<-|Hp]; [reflexivity | apply H; right; exact Hp].
    + destruct Hp as [<-|Hp]; [apply (H (k', v')); left; reflexivity|].
      apply IH; [|exact Hp]. intros q Hq. apply H. right. exact Hq.
Qed.

Lemma all_keyed_registry i (f : Inst -> Inst) :
  (forall x, (forall p, In p (sessions x) -> fst p = sid (snd p)) ->
             forall p, In p (sessions (f x)) -> fst p = sid (snd p)) ->
  preserves all_keyed (upd_inst i f).
Proof.
  intros Hf w H j p Hp. unfold upd_inst, modify, final, sessions_of in Hp. simpl in Hp.
  destruct (decide (i = j)) as [->|Hne].
  - rewrite list_lookup_alter_eq in Hp.
    destruct (insts w !! j) as [x|] eqn:Ex; simpl in Hp; [|destruct Hp].
    apply (Hf x); [|exact Hp]. intros q Hq. apply (H j q).
    unfold sessions_of. rewrite Ex. exact Hq.
  - rewrite list_lookup_alter_ne in Hp by exact Hne. apply (H j p). exact Hp.
Qed.

Lemma all_keyed_jingle_register i sess : preserves all_keyed (jingle_register i sess).
Proof.
  apply all_keyed_registry. intros x Hx p Hp.
  destruct (assoc_has (peerjid sess) (jid2session x)); [apply Hx, Hp|].
  simpl in Hp. apply (assoc_set_keyed sess (sessions x) Hx p Hp).
Qed.

Lemma all_keyed_unregister i sess :
  preserves all_keyed (upd_inst i (fun x =>
    set_registry (assoc_del (sid sess) (sessions x))
                 (assoc_del (peerjid sess) (jid2session x)) x)).
Proof.
  apply all_keyed_registry. intros x Hx p Hp. simpl in Hp.
  unfold assoc_del in Hp. apply filter_In in Hp. apply Hx, Hp.
Qed.

Lemma all_keyed_new jid :
  preserves all_keyed (modify (fun w => set_insts (insts w ++ [mkInst jid false [] 1 [] []]) w)).
Proof.
  intros w H j p Hp. unfold modify, final, sessions_of in Hp. simpl in Hp.
  destruct (decide (j < List.length (insts w))) as [Hlt|Hge].
  - rewrite lookup_app_l in Hp by exact Hlt. apply (H j p). exact Hp.
  - destruct (decide (j = List.length (insts w))) as [->|Hne].
    + rewrite list_lookup_middle in Hp by reflexivity. destruct Hp.
    + rewrite lookup_ge_None_2 in Hp; [destruct Hp|]. rewrite length_app. simpl. lia.
Qed.

#[export] Hint Resolve all_keyed_jingle_register all_keyed_unregister all_keyed_new : pres.
#[export] Hint Extern 1 (preserves all_keyed (upd_inst _ _)) =>
  apply all_keyed_upd_inst; intros; reflexivity : pres.

(** Unfolds the source functions down to the primitive effects. *)
Ltac unfold_code :=
  unfold _onPresenceUnavailable, onConnectionEvent, destroy, hangup, terminateByJid,
    terminateAll, muteUnmute, _getSessionsForJid, media_granted, media_denied, timer_fires,
    startMediaCall, answer, onIncomingCallRequest;
  unfold getUserMedia_onSuccess, getUserMedia_onError, _myGetUserMedia;
  unfold answer_onMedia, answer_onError, ansFunc, startMediaCall_onMedia,
    startMediaCall_onAnswer, startMediaCall_onDecline, startMediaCall_onTimeout,
    startMediaCall_cancel, _onMediaReady, jingle_terminate, onCallTerminated, removeVideo;
  unfold _freeLocalStreamIfUnused, _unrefLocalStream, _refLocalStream, addHandler,
    deleteHandler, trigger, send.

Lemma all_keyed_jingle_terminate i sess r t : preserves all_keyed (jingle_terminate i sess r t).
Proof. unfold_code. pres. Qed.

#[export] Hint Resolve all_keyed_jingle_terminate : pres.

Lemma all_keyed_terminate_each i l r t : preserves all_keyed (terminate_each i l r t).
Proof. induction l as [|s l IH]; simpl; pres. Qed.

Lemma all_keyed_mute_each i st what l : preserves all_keyed (mute_each i st what l).
Proof. induction l as [|s l IH]; simpl; pres. Qed.

#[export] Hint Resolve all_keyed_terminate_each all_keyed_mute_each : pres.

Lemma all_keyed_step a : preserves all_keyed (step a).
Proof. destruct a; simpl; unfold_code; pres. Qed.

Lemma all_keyed_reachable tr : all_keyed (run tr init).
Proof. apply preserves_run; [apply all_keyed_step | apply all_keyed_init]. Qed.

(** * The connection is lost *)

(** C4 (the code at the failing input).  Strophe calls the handler with
    [this] bound to the jingle plugin, and [_freeLocalStreamIfUnused] is a
    method of [RtcSession]: on [CONNFAIL] and on [DISCONNECTING] the handler
    terminates the sessions and then throws a [TypeError] instead of
    releasing the stream.  While a call rings there is no session yet: the
    handler changes nothing and throws, and the instance still holds its
    reference to the open camera.  With two instances in a call, the session
    of the first is terminated and its [onCallTerminated] gives back the
    instance's counted reference; the count goes from two to one, the
    camera stays open for the second instance, and the handler throws. *)
Theorem connection_loss_throws_before_the_release :
  let w := run ringing init in
  let w2 := run two_holders init in
  let w2' := exec (AConnection 0 CONNFAIL) w2 in
  (sessions_of w 0 = [] /\ used_of w 0 = true /\
   gLocalStream w = Some camera /\ gLocalStreamRefcount w = JNum 1) /\
  step (AConnection 0 CONNFAIL) w = Throw plugin_method_error w /\
  step (AConnection 0 DISCONNECTING) w = Throw plugin_method_error w /\
  ~ force_released w /\
  gLocalStreamRefcount w2 = JNum 2 /\
  step (AConnection 0 CONNFAIL) w2 = Throw plugin_method_error w2' /\
  sessions_of w2' 0 = [] /\
  In (call_ended 0 (mkSession "sid-bob" bob_phone (Some camera)) None None) (out w2') /\
  used_of w2' 0 = false /\
  gLocalStreamRefcount w2' = JNum 1 /\
  gLocalStream w2' = Some camera /\
  ~ force_released w2'.
Proof.
  cbv zeta.
  repeat match goal with |- _ /\ _ => split end; try (vm_compute; reflexivity).
  - intros [H _]. vm_compute in H. discriminate.
  - vm_compute. repeat (first [left; reflexivity | right]).
  - intros [H _]. vm_compute in H. discriminate.
Qed.

(** * The registry invariant, and teardown on the last release *)

(** In every reachable world the shared stream is open exactly when the
    count is positive (an [undefined] count is not), and an open stream has
    its player. *)
Theorem local_stream_open_iff_count_positive (tr : list Action) :
  let w := run tr init in
  (is_Some (gLocalStream w) <-> js_gt0 (gLocalStreamRefcount w) = true) /\
  (is_Some (gLocalStream w) -> is_Some (gLocalVid w)).
Proof. exact (stream_inv_reachable tr). Qed.

(** A release by [_unrefLocalStream] tears the stream down exactly when it
    takes the count from one to zero: then the notification is emitted once,
    followed by the pause and the stop, and stream and player are nulled.
    Every other release emits nothing and leaves the stream as it is. *)
Theorem teardown_on_last_release (tr : list Action) (i : nat) :
  let w := run tr init in
  let w' := final (_unrefLocalStream i w) in
  let last_one := gLocalStreamRefcount w = JNum 1 /\ gLocalStreamRefcount w' = JNum 0 in
  (last_one ->
     exists s v,
       gLocalStream w = Some s /\ gLocalVid w = Some v /\
       out w' = (out w ++ teardown i s v)%list /\
       gLocalStream w' = None /\ gLocalVid w' = None) /\
  (~ last_one -> out w' = out w /\ gLocalStream w' = gLocalStream w).
Proof.
  intros w w' last_one.
  destruct (stream_inv_reachable tr) as [H1 H2]. fold w in H1, H2.
  unfold last_one, w'. clear last_one w'.
  unfold _unrefLocalStream, bind, get.
  destruct (used_of w i); simpl.
  - destruct (gLocalStreamRefcount w) as [| |z] eqn:En; simpl.
    + (* undefined *)
      split; [intros [? _]; discriminate|]. intros _.
      destruct (gLocalStream w) as [s|] eqn:Es; simpl; [|auto].
      destruct H1 as [H1 _]. specialize (H1 (ex_intro _ s eq_refl)). discriminate.
    + split; [intros [? _]; discriminate|]. intros _.
      destruct (gLocalStream w) as [s|] eqn:Es; simpl; [|auto].
      destruct H1 as [H1 _]. specialize (H1 (ex_intro _ s eq_refl)). discriminate.
    + destruct (0 <? z - 1)%Z eqn:Ec; simpl.
      * split; [|auto]. intros [E1 E0]. inversion E1; subst. discriminate.
      * destruct (gLocalStream w) as [s|] eqn:Es; simpl.
        -- destruct H1 as [H1 _]. specialize (H1 (ex_intro _ s eq_refl)). simpl in H1.
           apply Z.ltb_lt in H1. apply Z.ltb_ge in Ec. assert (z = 1%Z) as -> by lia.
           destruct (gLocalVid w) as [v|] eqn:Ev; simpl.
           ++ split; [|intros Hn; exfalso; apply Hn; split; reflexivity].
              intros _. exists s, v. repeat split.
              rewrite <- !app_assoc. reflexivity.
           ++ destruct H2 as [? ?]; [eauto | discriminate].
        -- split; [|auto]. intros [E1 _]. inversion E1; subst.
           destruct H1 as [_ H1]. destruct (H1 eq_refl). discriminate.
  - split; [|auto]. intros [E1 E0]. rewrite E1 in E0. discriminate.
Qed.

(** * Mute reaches exactly the addressed sessions *)

Lemma mute_each_out i state what l w :
  exists w', mute_each i state what l w = Ok tt w' /\
             out w' = (out w ++ List.map (fun s => OSessMute i (sid s) state what) l)%list.
Proof.
  revert w. induction l as [|s l IH]; intros w; simpl.
  - eexists. split; [reflexivity|]. rewrite app_nil_r. reflexivity.
  - unfold bind. simpl. destruct (IH (set_out (out w ++ [OSessMute i (sid s) state what]) w))
      as (w' & E & Ho).
    exists w'. split; [exact E|]. rewrite Ho. simpl. rewrite <- app_assoc. reflexivity.
Qed.

Lemma getSessionsForJid_eval i jid w :
  _getSessionsForJid i jid w =
    Ok (if truthy jid then Some (mute_targets w i jid)
        else if (List.length (mute_targets w i jid) <? 1)%nat then None
             else Some (mute_targets w i jid)) w.
Proof.
  unfold _getSessionsForJid, mute_targets, bind, get, same_bare.
  destruct (truthy jid); simpl; [reflexivity|].
  destruct (List.length (List.map snd (sessions_of w i)) <? 1)%nat; reflexivity.
Qed.

(** [muteUnmute] applies the operation to each addressed session, in
    registry order.  It returns [false] only when called without a jid while
    no session exists; with a jid it returns [true] even when no session
    matches. *)
Theorem muteUnmute_fan_out (i : nat) (state : bool) (what : MediaOptions)
    (jid : option string) (w : World) :
  let r := muteUnmute i state what jid w in
  let targets := mute_targets w i jid in
  out (final r) = (out w ++ List.map (fun s => OSessMute i (sid s) state what) targets)%list /\
  result r = Some (truthy jid || negb (Nat.eqb (List.length targets) 0)).
Proof.
  intros r targets.
  assert (H : exists w',
    r = Ok (truthy jid || negb (Nat.eqb (List.length targets) 0)) w' /\
    out w' = (out w ++ List.map (fun s => OSessMute i (sid s) state what) targets)%list).
  { unfold r, muteUnmute. unfold bind at 1.
    rewrite getSessionsForJid_eval. fold targets.
    destruct (mute_each_out i state what targets w) as (w' & E & Ho).
    destruct (truthy jid); simpl.
    - unfold bind. rewrite E. exists w'. split; [reflexivity | exact Ho].
    - destruct (List.length targets <? 1)%nat eqn:El.
      + assert (Et : targets = []) by (destruct targets; [reflexivity | discriminate El]).
        rewrite Et. exists w. split; [reflexivity | rewrite app_nil_r; reflexivity].
      + unfold bind. rewrite E. exists w'. split; [|exact Ho].
        destruct targets; [discriminate El | reflexivity]. }
  destruct H as (w' & -> & Ho). split; [exact Ho | reflexivity].
Qed.

(** * The closures implement the protocol of the specification *)

(** After any history, the closure variables of invitation [k] stand for
    the state that the protocol of section 4.3 reaches on that history:
    [ansHandler] is set exactly in [AwaitingAnswer], where both handlers are
    registered, the timer is armed and the session stream is held; in the
    four outcomes it is cleared for good. *)
Theorem closure_refines_protocol (tr : list Action) (k : nat) :
  refines (run tr init) k (phase_of tr k) /\
  (forall tr', terminal (phase_of tr k) -> phase_of (tr ++ tr') k = phase_of tr k).
Proof.
  split; [apply refines_reachable|].
  intros tr' H. unfold phase_of. rewrite phase_run_app. apply terminal_run. exact H.
Qed.

(** * The end of a call *)

Local Ltac fin :=
  repeat split; intros; rewrite ?andb_true_r, ?andb_false_r;
  try reflexivity; try assumption; try congruence.

Lemma used_of_cleared i w :
  used_of (set_insts (alter (set_used false) i (insts w)) w) i = false.
Proof.
  unfold used_of. simpl. rewrite list_lookup_alter_eq.
  destruct (insts w !! i); reflexivity.
Qed.

(** What [_freeLocalStreamIfUnused] does in a world that satisfies the
    stream invariant. *)
Lemma free_effects i w :
  stream_inv w ->
  exists w',
    _freeLocalStreamIfUnused i w = Ok tt w' /\
    out w' = (out w ++ last_release i w)%list /\
    gLocalStreamRefcount w' =
      (if gives_back i w then js_dec (gLocalStreamRefcount w) else gLocalStreamRefcount w) /\
    used_of w' i = (used_of w i && negb (gives_back i w)) /\
    (last_release i w = [] -> gLocalStream w' = gLocalStream w /\ gLocalVid w' = gLocalVid w) /\
    (last_release i w <> [] -> gLocalStream w' = None /\ gLocalVid w' = None).
Proof.
  intros [H1 H2].
  assert (Hopen : forall s, gLocalStream w = Some s -> js_gt0 (gLocalStreamRefcount w) = true).
  { intros s E. apply H1. rewrite E. eauto. }
  assert (Hclosed : gLocalStream w = None -> js_gt0 (gLocalStreamRefcount w) = false).
  { intros E. destruct (js_gt0 (gLocalStreamRefcount w)) eqn:G; [|reflexivity].
    destruct H1 as [_ H1]. destruct (H1 eq_refl) as [s Es]. congruence. }
  assert (Hvid : forall s, gLocalStream w = Some s -> exists v, gLocalVid w = Some v).
  { intros s E. destruct H2 as [v Ev]; [rewrite E; eauto | eauto]. }
  clear H1 H2.
  unfold _freeLocalStreamIfUnused, _unrefLocalStream,
    trigger, emit, bind, get, modify, upd_inst, ret, throw, last_release, gives_back.
  destruct (sessions_of w i) as [|p rest] eqn:Es; simpl.
  2:{ eexists; split; [reflexivity|]. rewrite ?andb_false_r. simpl. rewrite app_nil_r. fin. }
  rewrite ?andb_true_r.
  destruct (used_of w i) eqn:Eu; simpl.
  2:{ eexists; split; [reflexivity|]. simpl. rewrite app_nil_r, ?Eu. fin. }
  assert (Hu := used_of_cleared i w).
  destruct (gLocalStreamRefcount w) as [| |z] eqn:En; simpl.
  - destruct (gLocalStream w) as [s|] eqn:Est; [specialize (Hopen s eq_refl); discriminate|].
    eexists; split; [reflexivity|]. simpl. rewrite app_nil_r. fin.
  - destruct (gLocalStream w) as [s|] eqn:Est; [specialize (Hopen s eq_refl); discriminate|].
    eexists; split; [reflexivity|]. simpl. rewrite app_nil_r. fin.
  - destruct (gLocalStream w) as [s|] eqn:Est.
    + specialize (Hopen s eq_refl). simpl in Hopen. apply Z.ltb_lt in Hopen.
      destruct (Hvid s eq_refl) as [v Ev]. rewrite Ev.
      destruct (0 <? z - 1)%Z eqn:Ec; simpl.
      * apply Z.ltb_lt in Ec.
        eexists; split; [reflexivity|]. simpl.
        replace (match z with 1%Z => teardown i s v | _ => [] end) with (@nil Output)
          by (destruct z as [|[]|]; try reflexivity; lia).
        rewrite app_nil_r. fin.
      * apply Z.ltb_ge in Ec. assert (z = 1%Z) as -> by lia.
        eexists; split; [reflexivity|]. simpl. rewrite <- !app_assoc. simpl.
        fin; discriminate.
    + specialize (Hclosed eq_refl). simpl in Hclosed.
      assert (Ec : (0 <? z - 1)%Z = false) by (apply Z.ltb_ge; apply Z.ltb_ge in Hclosed; lia).
      rewrite Ec. simpl.
      eexists; split; [reflexivity|]. simpl.
      replace (match z with 1%Z => [] | _ => [] end) with (@nil Output)
          by (destruct z as [|[]|]; reflexivity).
      rewrite app_nil_r. fin.
Qed.

Lemma stream_inv_out l w : stream_inv w -> stream_inv (set_out l w).
Proof. intros H; exact H. Qed.

(** After any history, [onCallTerminated] returns normally; it stops the
    session's own stream if it has one, then triggers
    [remote-player-remove] and [call-ended], in this order; and when no
    session is left on an instance that holds a reference, it gives the
    reference back, which tears the shared stream down exactly when the
    count was one. *)
Theorem onCallTerminated_reports_then_releases (tr : list Action) (i : nat) (sess : Session)
    (reason text : option string) :
  let w := run tr init in
  exists w',
    onCallTerminated i sess reason text w = Ok tt w' /\
    out w' = (out w ++ stopped sess ++
              [OTrigger i (EvRemotePlayerRemove ("#remotevideo_" +:+ sid sess));
               call_ended i sess reason text] ++ last_release i w)%list /\
    gLocalStreamRefcount w' =
      (if gives_back i w then js_dec (gLocalStreamRefcount w) else gLocalStreamRefcount w) /\
    used_of w' i = (used_of w i && negb (gives_back i w)) /\
    (last_release i w = [] -> gLocalStream w' = gLocalStream w /\ gLocalVid w' = gLocalVid w) /\
    (last_release i w <> [] -> gLocalStream w' = None /\ gLocalVid w' = None).
Proof.
  intros w. pose proof (stream_inv_reachable tr) as Hs. fold w in Hs.
  unfold onCallTerminated, removeVideo, trigger, emit, bind, modify, stopped, call_ended.
  destruct (localStream sess) as [ls|]; simpl.
  - match goal with |- context [_freeLocalStreamIfUnused i ?w1] =>
      destruct (free_effects i w1 (stream_inv_out _ _ (stream_inv_out _ _ (stream_inv_out _ _ Hs))))
        as (w' & E & Ho & Hrest) end.
    exists w'. split; [exact E|]. split; [|exact Hrest].
    rewrite Ho. simpl. rewrite <- !app_assoc. reflexivity.
  - match goal with |- context [_freeLocalStreamIfUnused i ?w1] =>
      destruct (free_effects i w1 (stream_inv_out _ _ (stream_inv_out _ _ Hs)))
        as (w' & E & Ho & Hrest) end.
    exists w'. split; [exact E|]. split; [|exact Hrest].
    rewrite Ho. simpl. rewrite <- !app_assoc. reflexivity.
Qed.

(** * Destroying an instance *)

Lemma destroyed i w :
  stream_inv w -> keyed w i ->
  exists w',
    destroy i w = Ok tt w' /\
    stream_inv w' /\
    sessions_of w' i = [] /\
    (forall p, In p (sessions_of w i) -> emitted (call_ended i (snd p) None None) w') /\
    released_once i (used_of w i) (gLocalStreamRefcount w) w'.
Proof.
  intros Hs Hk.
  destruct (sessions_ended i w Hs Hk) as (w1 & E1 & Hs1 & Hd & Hr & Ho).
  unfold destroy, hangup. simpl. unfold bind. rewrite E1.
  destruct (safe_stream_unref i w1 Hs1) as ([] & w2 & E2 & Hs2).
  pose proof (unref_releases i _ _ w1 Ho) as Hrel.
  pose proof (to_terminate_unref i [] i w1) as Hdr.
  rewrite E2 in *. simpl in Hrel, Hdr.
  exists w2. split; [reflexivity|]. split; [exact Hs2|]. split; [|split; [|exact Hrel]].
  - apply drained_empty, Hdr. intros p Hp. rewrite Hd in Hp. destruct Hp.
  - intros p Hp. pose proof (emitted_unref (call_ended i (snd p) None None) i w1 (Hr p Hp)) as H.
    rewrite E2 in H. exact H.
Qed.

(** After any history, [destroy] returns normally, leaves the instance
    without sessions, has reported each of them with [call-ended], and has
    given the instance's reference back exactly once: the count is one
    lower if the instance held a reference and unchanged otherwise, and the
    shared stream stays open exactly when the count is still positive.  A
    second [destroy] changes nothing. *)
Theorem destroy_ends_calls_and_releases (tr : list Action) (i : nat) :
  let w := run tr init in
  exists w',
    destroy i w = Ok tt w' /\
    sessions_of w' i = [] /\
    (forall p, In p (sessions_of w i) -> In (call_ended i (snd p) None None) (out w')) /\
    used_of w' i = false /\
    gLocalStreamRefcount w' = count_after_release (used_of w i) (gLocalStreamRefcount w) /\
    (is_Some (gLocalStream w') <-> js_gt0 (gLocalStreamRefcount w') = true) /\
    destroy i w' = Ok tt w'.
Proof.
  intros w.
  destruct (destroyed i w (stream_inv_reachable tr) (all_keyed_reachable tr i))
    as (w' & E & Hs & He & Hr & Hu & Hn).
  exists w'. repeat match goal with |- _ /\ _ => split end; try assumption.
  - apply Hs.
  - unfold destroy, hangup. simpl. unfold bind. rewrite terminateAll_eq, He. simpl.
    unfold _unrefLocalStream, bind, get. rewrite Hu. reflexivity.
Qed.

(** * Starting a call while the stream is open *)

Lemma used_onMedia i k s : preserves (fun w => used_of w i = true) (startMediaCall_onMedia k s).
Proof.
  unfold startMediaCall_onMedia, send, emit, upd_inv, addHandler. pres.
  all: try (intros w H; exact H).
  all: try (unfold upd_inst; intros w H; simpl; rewrite used_of_alter; [exact H | reflexivity]).
Qed.

Lemma count_onMedia n k s :
  preserves (fun w => gLocalStreamRefcount w = n) (startMediaCall_onMedia k s).
Proof.
  unfold startMediaCall_onMedia, send, emit, upd_inv, addHandler, upd_inst. pres.
  all: try (intros w H; exact H).
Qed.

(** The next invitation does not exist yet. *)
Lemma fresh_is_absent tr : phase_of tr (List.length (invs (run tr init))) = NotCreated.
Proof.
  pose proof (refines_reachable tr (List.length (invs (run tr init)))) as H.
  destruct (phase_of tr _); [reflexivity|..]; simpl in H;
    destruct H as (v & Hv & _); apply lookup_lt_Some in Hv; lia.
Qed.

Lemma startMediaCall_at w i t o my :
  is_Some (insts w !! i) ->
  let k := List.length (invs w) in
  let a := AStartMediaCall i t o my in
  let w' := exec a w in
  step a w = Ok (RHandle k) w' /\
  observe k a w = Started :: (if is_none (gLocalStream w) then [] else [MediaAcquired]) /\
  match gLocalStream w with
  | Some s =>
      out w' = (out w ++ [OSend i (mkMsg t "megaCall" None None)])%list /\
      gLocalStreamRefcount w' = js_inc (gLocalStreamRefcount w) /\
      used_of w' i = true /\
      exists v, inv_at k v w' /\ sessStream v = Some (cloneMediaStream s bothMedia) /\
                media_pending v = false
  | None =>
      out w' = out w /\
      gLocalStreamRefcount w' = gLocalStreamRefcount w /\
      used_of w' i = used_of w i /\
      exists v, inv_at k v w' /\ sessStream v = None /\ media_pending v = true
  end.
Proof.
  intros [x Hx] k a w'.
  assert (Hstep : forall w1, startMediaCall i t o my w = Ok k w1 -> step a w = Ok (RHandle k) w1).
  { intros w1 E. subst a. simpl. unfold on_inst, bind, get. rewrite Hx.
    fold (@bind nat). unfold bind. rewrite E. reflexivity. }
  assert (Hobs : observe k a w = Started :: (if is_none (gLocalStream w) then [] else [MediaAcquired])).
  { subst a k. simpl. rewrite Nat.eqb_refl, Hx. reflexivity. }
  destruct (gLocalStream w) as [s|] eqn:Es.
  - destruct (startMediaCall_open i t o my w s Es) as (a0 & d & w1 & E & Hi & Ho).
    assert (Ew : w' = w1) by (subst w'; unfold exec; rewrite (Hstep w1 E); reflexivity).
    rewrite Ew. clear Ew w'.
    split; [exact (Hstep w1 E)|]. split; [exact Hobs|]. split; [exact Ho|].
    revert E. unfold startMediaCall, bind, get, modify. simpl.
    erewrite myGetUserMedia_open by exact Es.
    match goal with |- context [startMediaCall_onMedia ?k0 ?s0 ?w0] =>
      pose proof (used_onMedia i k0 s0 w0) as Hu;
      pose proof (count_onMedia (js_inc (gLocalStreamRefcount w)) k0 s0 w0) as Hc;
      destruct (startMediaCall_onMedia k0 s0 w0) as [[] w2|e w2] eqn:E1
    end; [|discriminate].
    intros E. inversion E; subst w2. simpl in Hu, Hc.
    split; [apply Hc; reflexivity|]. split.
    + apply Hu. unfold referenced, used_of. simpl. rewrite list_lookup_alter_eq, Hx. reflexivity.
    + eexists. split; [exact Hi|]. split; reflexivity.
  - destruct (startMediaCall_closed i t o my w Es) as (w1 & E & Hi & Ho & Hn & Hc).
    assert (Ew : w' = w1) by (subst w'; unfold exec; rewrite (Hstep w1 E); reflexivity).
    rewrite Ew. clear Ew w'.
    split; [exact (Hstep w1 E)|]. split; [exact Hobs|].
    split; [exact Ho|]. split; [exact Hc|]. split.
    + revert E. unfold startMediaCall, bind, get, modify. simpl.
      erewrite myGetUserMedia_closed by exact Es.
      unfold upd_inv, modify. intros E. inversion E. reflexivity.
    + eexists. split; [exact Hi|]. split; reflexivity.
Qed.

(** After any history, [startMediaCall] on an existing instance returns the
    handle of a new invitation.  If the shared stream is open, the call
    rings at once: a clone of the stream (always with both kinds asked for)
    is taken, the count goes up by one, [megaCall] is sent to the target and
    the invitation awaits an answer.  If it is closed, nothing is sent and
    the invitation stays idle until the platform answers. *)
Theorem startMediaCall_rings_at_once_iff_stream_open (tr : list Action) (i : nat)
    (target : string) (options : MediaOptions) (my : option string)
    (Hi : is_Some (insts (run tr init) !! i)) :
  let w := run tr init in
  let k := List.length (invs w) in
  let a := AStartMediaCall i target options my in
  let w' := exec a w in
  step a w = Ok (RHandle k) w' /\
  match gLocalStream w with
  | Some s =>
      out w' = (out w ++ [OSend i (mkMsg target "megaCall" None None)])%list /\
      phase_of (tr ++ [a]) k = AwaitingAnswer /\
      gLocalStreamRefcount w' = js_inc (gLocalStreamRefcount w) /\
      used_of w' i = true /\
      exists v, inv_at k v w' /\ sessStream v = Some (cloneMediaStream s bothMedia) /\
                media_pending v = false
  | None =>
      out w' = out w /\
      phase_of (tr ++ [a]) k = Idle /\
      gLocalStreamRefcount w' = gLocalStreamRefcount w /\
      used_of w' i = used_of w i /\
      exists v, inv_at k v w' /\ sessStream v = None /\ media_pending v = true
  end.
Proof.
  intros w k a w'.
  destruct (startMediaCall_at w i target options my Hi) as (Hs & Ho & H).
  fold k a w' in Hs, Ho, H. split; [exact Hs|].
  assert (Hp : phase_of (tr ++ [a]) k = fold_left spec_next (observe k a w) NotCreated).
  { unfold phase_of. rewrite phase_run_app. simpl.
    change (phase_run k tr init NotCreated) with (phase_of tr k).
    unfold k, w. rewrite fresh_is_absent. reflexivity. }
  rewrite Ho in Hp.
  destruct (gLocalStream w) as [s|]; simpl in Hp.
  - destruct H as (H1 & H2 & H3 & H4). auto.
  - destruct H as (H1 & H2 & H3 & H4). auto.
Qed.

Lemma startMediaCall_rings_at_once_iff_stream_open_witness :
  let a := AStartMediaCall 0 carol bothMedia None in
  step a (run ringing init) = Ok (RHandle 1) (exec a (run ringing init)) /\
  phase_of (ringing ++ [a]) 1 = AwaitingAnswer.
Proof.
  intros a.
  assert (Hi : is_Some (insts (run ringing init) !! 0)) by (vm_compute; eauto).
  pose proof (startMediaCall_rings_at_once_iff_stream_open ringing 0 carol bothMedia None Hi) as H.
  cbv zeta in H. destruct H as (H1 & H2).
  change (gLocalStream (run ringing init)) with (Some camera) in H2.
  destruct H2 as (_ & H2 & _). split; [exact H1 | exact H2].
Defined.

(** * A call whose media is refused *)

(** An invitation that is neither waiting for media nor for an answer sees
    no further acquisition. *)
Lemma no_acquisition k a w :
  refines w k Declined -> fold_left spec_next (observe k a w) Idle = Idle.
Proof.
  intros (v & Hi & Ha & Hp).
  assert (Hl : Nat.eqb k (List.length (invs w)) = false).
  { apply Nat.eqb_neq. apply lookup_lt_Some in Hi. lia. }
  unfold inv_at in Hi.
  destruct a as [| | [k'|b] | [k'|b] | k' | k' | k' | k' | | | | | | | | | | |]; simpl;
    rewrite ?Hl; try reflexivity;
    (destruct (Nat.eqb k k') eqn:Ek;
     [apply Nat.eqb_eq in Ek; subst k'; rewrite ?Hi, ?Hp; simpl; repeat case_match; reflexivity
     | simpl; repeat case_match; reflexivity]).
Qed.

Lemma abandoned_stays k tr : forall w,
  refines w k Declined -> phase_run k tr w Idle = Idle /\ refines (run tr w) k Declined.
Proof.
  induction tr as [|a tr IH]; intros w R; simpl; [auto|].
  rewrite (no_acquisition k a w R). apply IH.
  pose proof (sim_step k a w Declined R) as H.
  rewrite terminal_events in H by (right; left; reflexivity). exact H.
Qed.

Lemma media_denied_at k error e w v :
  inv_at k v w -> media_pending v = true ->
  step (AMediaDenied (ForInvitation k) error e) w =
    Ok RUndefined
       (set_out (out w ++ [OTrigger (inv_self v) (EvLocalMediaFail (device_error error e))])
          (answered k w)).
Proof.
  intros Hi Hp. simpl. unfold undef, media_denied, bind, get. rewrite Hi, Hp. reflexivity.
Qed.

(** When the platform refuses the media an outgoing call is waiting for,
    the only effect is a [local-media-fail] event with the name of the
    error (or the second argument when there is no error object); the
    invitation was idle and stays idle whatever happens afterwards, so
    accept, decline, deadline and cancel are all ignored, and [cancel()]
    returns false. *)
Theorem denied_media_abandons_the_call (tr : list Action) (k : nat) (v : Invitation)
    (error : option string) (e : string) (tr' : list Action) (t : Trigger)
    (Hv : inv_at k v (run tr init)) (Hp : media_pending v = true) :
  let w := run tr init in
  let denied := AMediaDenied (ForInvitation k) error e in
  let w' := run (tr ++ denied :: tr') init in
  phase_of tr k = Idle /\
  step denied w =
    Ok RUndefined
       (set_out (out w ++ [OTrigger (inv_self v) (EvLocalMediaFail (device_error error e))])
          (answered k w)) /\
  phase_of (tr ++ denied :: tr') k = Idle /\
  fire k t w' = Ok (ignored t) w'.
Proof.
  intros w denied w'.
  assert (Hidle : phase_of tr k = Idle).
  { apply (pending_is_idle w k _ v (refines_reachable tr k) Hv Hp). }
  pose proof (media_denied_at k error e w v Hv Hp) as Hstep. fold denied in Hstep.
  assert (Hafter : phase_of (tr ++ denied :: tr') k = Idle).
  { unfold phase_of. rewrite phase_run_app. simpl.
    change (phase_run k tr init NotCreated) with (phase_of tr k). rewrite Hidle.
    fold w. unfold inv_at in Hv. fold w in Hv. rewrite Hv, Hp, Nat.eqb_refl.
    simpl. apply abandoned_stays.
    unfold exec. fold denied. rewrite Hstep. simpl.
    exists (set_media_pending false v). split; [apply inv_at_answered; exact Hv|].
    split; [|reflexivity].
    pose proof (refines_reachable tr k) as R. rewrite Hidle in R.
    destruct R as (v0 & Hv0 & Ha0). unfold inv_at in Hv0. fold w in Hv0.
    rewrite Hv in Hv0. inversion Hv0; subst v0. exact Ha0. }
  repeat match goal with |- _ /\ _ => split end; try assumption.
  apply (fire_ignored k t w' Idle).
  - unfold w'. rewrite <- Hafter. apply refines_reachable.
  - discriminate.
Qed.

Lemma denied_media_abandons_the_call_witness :
  let denied := AMediaDenied (ForInvitation 0) (Some "NotAllowedError") "" in
  let w' := run (acquiring ++ denied :: [ATimeout 0]) init in
  phase_of (acquiring ++ denied :: [ATimeout 0]) 0 = Idle /\
  fire 0 Cancel w' = Ok (RBool false) w'.
Proof.
  intros denied w'.
  assert (Hv : inv_at 0 (set_media_pending true (fresh_invitation 0 bob bothMedia None))
                 (run acquiring init)) by (vm_compute; reflexivity).
  destruct (denied_media_abandons_the_call acquiring 0 _ (Some "NotAllowedError") ""
              [ATimeout 0] Cancel Hv eq_refl) as (_ & _ & H3 & H4).
  split; [exact H3 | exact H4].
Defined.

(** * Accepting an incoming call *)

(** Accepting a request that is still valid.  While the shared stream is
    open, [answer(true, obj)] replies at once with a clone of it and the
    muted state derived from [obj.mediaOptions], having counted a
    reference; without [obj.mediaOptions] it throws after the reference was
    counted, and nothing is replied.  While the stream is closed it returns
    true and waits for the platform; when the media arrives the reply is
    sent even if the request has expired in between. *)
Theorem answer_accepts_with_a_clone (w : World) (r : nat) (q : Incoming) (obj : AnswerObj)
    (Hq : reqs w !! r = Some q) (Hv : req_valid q = true) :
  (forall s, gLocalStream w = Some s ->
     let w1 := referenced (req_self q) w in
     let clone := cloneMediaStream s bothMedia in
     match obj_mediaOptions obj with
     | Some mo => answer r true obj w = Ok true (set_out (out w ++ [accept_reply r mo clone]) w1)
     | None => answer r true obj w = Throw "TypeError: options is undefined" w1
     end) /\
  (forall stream mo,
     gLocalStream w = None -> gLocalVid w = None -> obj_mediaOptions obj = Some mo ->
     let a := List.length (acts w) in
     let clone := cloneMediaStream stream bothMedia in
     let w1 := set_acts (acts w ++ [mkActivation r obj true]) w in
     answer r true obj w = Ok true w1 /\
     (forall expired : bool,
        let w2 := if expired then exec (AExpire r) w1 else w1 in
        exists vid,
          out (exec (AMediaGranted (ForAnswer a) stream) w2) =
            (out w ++ [OTrigger (req_self q) (EvLocalStreamObtained stream vid);
                       accept_reply r mo clone])%list)).
Proof.
  split.
  - intros s Hs w1 clone.
    destruct (obj_mediaOptions obj) as [mo|] eqn:Hmo;
      unfold answer, bind at 1, get; rewrite Hq, Hv; simpl;
      unfold bind at 1; erewrite myGetUserMedia_open by exact Hs;
      unfold answer_onMedia; rewrite Hmo; reflexivity.
  - intros stream mo Hs Hvid Hmo a clone w1. split.
    + unfold answer, bind at 1, get. rewrite Hq, Hv. simpl.
      unfold bind at 1. erewrite myGetUserMedia_closed by exact Hs. reflexivity.
    + intros expired w2.
      eexists.
      assert (Ha : acts w2 !! a = Some (mkActivation r obj true)).
      { destruct expired; subst w2; unfold exec; simpl; apply list_lookup_middle; reflexivity. }
      assert (Hr : exists q', reqs w2 !! r = Some q' /\ req_self q' = req_self q).
      { destruct expired; subst w2; unfold exec; simpl.
        - rewrite list_lookup_alter_eq, Hq. simpl. eauto.
        - eauto. }
      destruct Hr as (q' & Hq' & Hself).
      assert (Hvid2 : gLocalVid w2 = None) by (destruct expired; exact Hvid).
      assert (Hout : out w2 = out w) by (destruct expired; reflexivity).
      unfold exec. simpl. rewrite final_undef.
      unfold media_granted, bind at 1, get. rewrite Ha. simpl.
      unfold bind at 1, modify. simpl. rewrite Hq'.
      erewrite onSuccess_fresh by exact Hvid2.
      unfold answer_onMedia. simpl. rewrite Hmo. simpl.
      rewrite Hout, Hself, <- app_assoc. reflexivity.
Qed.

Lemma answer_accepts_with_a_clone_witness :
  let w := run called init in
  let obj := mkAnswerObj None None (Some bothMedia) in
  answer 0 true obj w = Ok true (set_acts [mkActivation 0 obj true] w).
Proof.
  intros w obj.
  assert (Hq : reqs w !! 0 = Some (mkIncoming 0 bob_phone true)) by (vm_compute; reflexivity).
  destruct (answer_accepts_with_a_clone w 0 _ obj Hq eq_refl) as (_ & H).
  exact (proj1 (H camera bothMedia eq_refl eq_refl eq_refl)).
Defined.

(** * Escaped text *)

Lemma length_append a b : String.length (a +:+ b) = String.length a + String.length b.
Proof. induction a as [|c a IH]; simpl; [reflexivity | rewrite IH; reflexivity]. Qed.

Lemma prefix_length p s : String.prefix p s = true -> String.length p <= String.length s.
Proof.
  revert s. induction p as [|a p IH]; intros s H; simpl; [lia|].
  destruct s as [|b s]; simpl in *; [discriminate|].
  destruct (ascii_dec a b); [|discriminate]. specialize (IH s H). lia.
Qed.

Lemma prefix_cons a p b s :
  String.prefix (String a p) (String b s) = if Ascii.eqb a b then String.prefix p s else false.
Proof.
  cbn [String.prefix]. destruct (ascii_dec a b) as [->|n].
  - rewrite Ascii.eqb_refl. reflexivity.
  - apply Ascii.eqb_neq in n. rewrite n. reflexivity.
Qed.

Lemma prefix_append p b : String.prefix p (p +:+ b) = true.
Proof.
  induction p as [|c p IH]; [destruct b; reflexivity|].
  change (String c p +:+ b) with (String c (p +:+ b)).
  rewrite prefix_cons, Ascii.eqb_refl. exact IH.
Qed.

Lemma replace_from_0 pat rep c r :
  replace_from pat rep 0 (String c r) =
    if String.prefix pat (String c r)
    then rep +:+ replace_from pat rep (String.length pat - 1) r
    else String c (replace_from pat rep 0 r).
Proof. reflexivity. Qed.

Lemma replace_from_S pat rep n c r :
  replace_from pat rep (S n) (String c r) = replace_from pat rep n r.
Proof. reflexivity. Qed.

Lemma replace_from_length pat rep :
  String.length rep <= String.length pat -> 0 < String.length pat ->
  forall s skip, String.length (replace_from pat rep skip s) <= String.length s - skip.
Proof.
  intros Hr Hp s. induction s as [|c r IH]; intros skip; [simpl; lia|].
  destruct skip as [|n].
  - rewrite replace_from_0. destruct (String.prefix pat (String c r)) eqn:E.
    + apply prefix_length in E. simpl in E.
      rewrite length_append. specialize (IH (String.length pat - 1)). simpl. lia.
    + simpl. specialize (IH 0). lia.
  - rewrite replace_from_S. specialize (IH n). simpl. lia.
Qed.

Lemma replace_all_length pat rep s :
  String.length rep <= String.length pat -> 0 < String.length pat ->
  String.length (replace_all pat rep s) <= String.length s.
Proof.
  intros Hr Hp. pose proof (replace_from_length pat rep Hr Hp s 0). unfold replace_all. lia.
Qed.

(** A pattern that starts with an ampersand finds nothing in plain text. *)
Lemma replace_plain p rep s :
  plain s = true -> replace_all (String "&"%char p) rep s = s.
Proof.
  unfold replace_all. induction s as [|c r IH]; intros H; [reflexivity|].
  simpl in H. apply andb_true_iff in H. destruct H as [Hc Hr].
  rewrite replace_from_0, prefix_cons, Ascii.eqb_sym.
  apply negb_true_iff in Hc. rewrite Hc.
  rewrite IH by exact Hr. reflexivity.
Qed.

Lemma replace_after_plain p rep a t :
  plain a = true ->
  replace_all (String "&"%char p) rep (a +:+ t) = a +:+ replace_all (String "&"%char p) rep t.
Proof.
  unfold replace_all. induction a as [|c r IH]; intros H; [reflexivity|].
  simpl in H. apply andb_true_iff in H. destruct H as [Hc Hr].
  change (String c r +:+ t) with (String c (r +:+ t)).
  rewrite replace_from_0, prefix_cons, Ascii.eqb_sym.
  apply negb_true_iff in Hc. rewrite Hc.
  rewrite IH by exact Hr. reflexivity.
Qed.

Lemma plain_append a b : plain a = true -> plain b = true -> plain (a +:+ b) = true.
Proof.
  induction a as [|c a IH]; simpl; intros Ha Hb; [exact Hb|].
  apply andb_true_iff in Ha. destruct Ha as [Hc Ha]. rewrite Hc, IH; auto.
Qed.

Lemma xmlUnescape_plain s : plain s = true -> xmlUnescape s = s.
Proof.
  intros H. unfold xmlUnescape.
  rewrite (replace_plain "amp;" "&" s H), (replace_plain "lt;" "<" s H),
    (replace_plain "gt;" ">" s H), (replace_plain "apos;" "'" s H),
    (replace_plain "quot;" dquote s H).
  reflexivity.
Qed.

Lemma xmlUnescape_length s : String.length (xmlUnescape s) <= String.length s.
Proof.
  unfold xmlUnescape.
  repeat (etransitivity; [apply replace_all_length; simpl; lia|]). reflexivity.
Qed.

(** One entity between plain texts. *)
Lemma replace_entity p rep a b :
  plain a = true -> plain b = true ->
  replace_all (String "&"%char p) rep (a +:+ String "&"%char p +:+ b) = a +:+ rep +:+ b.
Proof.
  intros Ha Hb. rewrite replace_after_plain by exact Ha. f_equal.
  unfold replace_all.
  change (String "&"%char p +:+ b) with (String "&"%char (p +:+ b)).
  rewrite replace_from_0.
  change (String "&"%char (p +:+ b)) with (String "&"%char p +:+ b).
  rewrite prefix_append. f_equal. simpl. rewrite Nat.sub_0_r.
  assert (Hskip : forall q t, replace_from (String "&"%char p) rep (String.length q) (q +:+ t)
                              = replace_from (String "&"%char p) rep 0 t).
  { induction q as [|c q IH]; intros t; [destruct t; reflexivity|]. simpl. apply IH. }
  rewrite Hskip. apply (replace_plain p rep b Hb).
Qed.

(** An ampersand that does not begin the pattern stays. *)
Lemma replace_stray p rep a t :
  plain a = true -> plain t = true -> String.prefix p t = false ->
  replace_all (String "&"%char p) rep (a +:+ "&" +:+ t) = a +:+ "&" +:+ t.
Proof.
  intros Ha Ht Hp. rewrite replace_after_plain by exact Ha. f_equal.
  unfold replace_all. change ("&" +:+ t) with (String "&"%char t).
  rewrite replace_from_0, prefix_cons, Ascii.eqb_refl, Hp.
  f_equal. apply (replace_plain p rep t Ht).
Qed.

Local Ltac plain_text :=
  repeat first [ assumption | reflexivity | apply plain_append ].

Lemma xmlUnescape_lt a b :
  plain a = true -> plain b = true -> xmlUnescape (a +:+ "&lt;" +:+ b) = a +:+ "<" +:+ b.
Proof.
  intros Ha Hb. unfold xmlUnescape.
  change (a +:+ "&lt;" +:+ b) with (a +:+ "&" +:+ "lt;" +:+ b).
  rewrite (replace_stray "amp;" "&" a ("lt;" +:+ b)) by plain_text.
  change (a +:+ "&" +:+ "lt;" +:+ b) with (a +:+ "&lt;" +:+ b).
  rewrite (replace_entity "lt;" "<" a b Ha Hb).
  rewrite (replace_plain "gt;"), (replace_plain "apos;"), (replace_plain "quot;") by plain_text.
  reflexivity.
Qed.

Lemma xmlUnescape_gt a b :
  plain a = true -> plain b = true -> xmlUnescape (a +:+ "&gt;" +:+ b) = a +:+ ">" +:+ b.
Proof.
  intros Ha Hb. unfold xmlUnescape.
  change (a +:+ "&gt;" +:+ b) with (a +:+ "&" +:+ "gt;" +:+ b).
  rewrite (replace_stray "amp;" "&" a ("gt;" +:+ b)) by plain_text.
  rewrite (replace_stray "lt;" "<" a ("gt;" +:+ b)) by plain_text.
  change (a +:+ "&" +:+ "gt;" +:+ b) with (a +:+ "&gt;" +:+ b).
  rewrite (replace_entity "gt;" ">" a b Ha Hb).
  rewrite (replace_plain "apos;"), (replace_plain "quot;") by plain_text.
  reflexivity.
Qed.

Lemma xmlUnescape_apos a b :
  plain a = true -> plain b = true -> xmlUnescape (a +:+ "&apos;" +:+ b) = a +:+ "'" +:+ b.
Proof.
  intros Ha Hb. unfold xmlUnescape.
  change (a +:+ "&apos;" +:+ b) with (a +:+ "&" +:+ "apos;" +:+ b).
  rewrite (replace_stray "amp;" "&" a ("apos;" +:+ b)) by plain_text.
  rewrite (replace_stray "lt;" "<" a ("apos;" +:+ b)) by plain_text.
  rewrite (replace_stray "gt;" ">" a ("apos;" +:+ b)) by plain_text.
  change (a +:+ "&" +:+ "apos;" +:+ b) with (a +:+ "&apos;" +:+ b).
  rewrite (replace_entity "apos;" "'" a b Ha Hb).
  rewrite (replace_plain "quot;") by plain_text.
  reflexivity.
Qed.

Lemma xmlUnescape_quot a b :
  plain a = true -> plain b = true ->
  xmlUnescape (a +:+ "&quot;" +:+ b) = a +:+ dquote +:+ b.
Proof.
  intros Ha Hb. unfold xmlUnescape.
  change (a +:+ "&quot;" +:+ b) with (a +:+ "&" +:+ "quot;" +:+ b).
  rewrite (replace_stray "amp;" "&" a ("quot;" +:+ b)) by plain_text.
  rewrite (replace_stray "lt;" "<" a ("quot;" +:+ b)) by plain_text.
  rewrite (replace_stray "gt;" ">" a ("quot;" +:+ b)) by plain_text.
  rewrite (replace_stray "apos;" "'" a ("quot;" +:+ b)) by plain_text.
  change (a +:+ "&" +:+ "quot;" +:+ b) with (a +:+ "&quot;" +:+ b).
  apply (replace_entity "quot;" dquote a b Ha Hb).
Qed.

(** The escaped form of the text [&lt;] is decoded twice. *)
Lemma xmlUnescape_amp_lt a b :
  plain a = true -> plain b = true ->
  xmlUnescape (a +:+ "&amp;lt;" +:+ b) = a +:+ "<" +:+ b.
Proof.
  intros Ha Hb. unfold xmlUnescape.
  change (a +:+ "&amp;lt;" +:+ b) with (a +:+ "&amp;" +:+ "lt;" +:+ b).
  rewrite (replace_entity "amp;" "&" a ("lt;" +:+ b)) by plain_text.
  change (a +:+ "&" +:+ "lt;" +:+ b) with (a +:+ "&lt;" +:+ b).
  rewrite (replace_entity "lt;" "<" a b Ha Hb).
  rewrite (replace_plain "gt;"), (replace_plain "apos;"), (replace_plain "quot;") by plain_text.
  reflexivity.
Qed.

Lemma xmlUnescape_amp a b :
  plain a = true -> plain b = true -> entity_tail b = false ->
  xmlUnescape (a +:+ "&amp;" +:+ b) = a +:+ "&" +:+ b.
Proof.
  intros Ha Hb Ht. unfold entity_tail in Ht.
  apply orb_false_iff in Ht. destruct Ht as [Ht H4].
  apply orb_false_iff in Ht. destruct Ht as [Ht H3].
  apply orb_false_iff in Ht. destruct Ht as [H1 H2].
  unfold xmlUnescape.
  rewrite (replace_entity "amp;" "&" a b Ha Hb).
  rewrite (replace_stray "lt;" "<" a b Ha Hb H1).
  rewrite (replace_stray "gt;" ">" a b Ha Hb H2).
  rewrite (replace_stray "apos;" "'" a b Ha Hb H3).
  apply (replace_stray "quot;" dquote a b Ha Hb H4).
Qed.

(** [xmlUnescape] leaves text without an ampersand unchanged and never
    makes a text longer.  Between texts without ampersands it decodes each
    of the five entities to its character ([&amp;] provided that what
    follows does not read as the rest of another entity); the replacements
    are made one after the other with [&amp;] first, so the escaped form
    of the text [&lt;] is decoded twice, down to the character. *)
Theorem xmlUnescape_decodes :
  (forall s, plain s = true -> xmlUnescape s = s) /\
  (forall s, String.length (xmlUnescape s) <= String.length s) /\
  (forall a b, plain a = true -> plain b = true ->
     xmlUnescape (a +:+ "&lt;" +:+ b) = a +:+ "<" +:+ b /\
     xmlUnescape (a +:+ "&gt;" +:+ b) = a +:+ ">" +:+ b /\
     xmlUnescape (a +:+ "&apos;" +:+ b) = a +:+ "'" +:+ b /\
     xmlUnescape (a +:+ "&quot;" +:+ b) = a +:+ dquote +:+ b /\
     (entity_tail b = false -> xmlUnescape (a +:+ "&amp;" +:+ b) = a +:+ "&" +:+ b) /\
     xmlUnescape (a +:+ "&amp;lt;" +:+ b) = a +:+ "<" +:+ b).
Proof.
  split; [exact xmlUnescape_plain|]. split; [exact xmlUnescape_length|].
  intros a b Ha Hb.
  repeat match goal with |- _ /\ _ => split end.
  - apply xmlUnescape_lt; assumption.
  - apply xmlUnescape_gt; assumption.
  - apply xmlUnescape_apos; assumption.
  - apply xmlUnescape_quot; assumption.
  - apply xmlUnescape_amp; assumption.
  - apply xmlUnescape_amp_lt; assumption.
Qed.

(** * Jingle errors *)


(** * Waiting for remote media *)

Lemma wait_idle i pl sess now later :
  idle now = true ->
  waitForRemoteMedia i pl sess now later =
    match later with
    | [] => (inr [OSetTimeout 200], true)
    | next :: rest =>
        match waitForRemoteMedia i pl sess next rest with
        | (inr o', pending) => (inr (OSetTimeout 200 :: o'), pending)
        | (inl e, pending) => (inl e, pending)
        end
    end.
Proof.
  unfold idle. intros H. apply andb_true_iff in H. destruct H as [Hv Hp].
  apply negb_true_iff in Hp.
  destruct later as [|next rest]; simpl; unfold waitForRemoteMedia_once; rewrite Hv, Hp; reflexivity.
Qed.

Lemma wait_stop i pl sess now later :
  idle now = false ->
  waitForRemoteMedia i pl sess now later =
    (inr (if valid now
          then [OMediaRecv i (peerjid sess) (sid sess) (remoteStream now) pl;
                OAttachMediaStream pl (remoteStream now)]
          else []), false).
Proof.
  unfold idle. intros H.
  destruct later as [|next rest]; simpl; unfold waitForRemoteMedia_once, onMediaRecv;
    destruct (valid now); simpl in *; try reflexivity;
    apply negb_false_iff in H; rewrite H; reflexivity.
Qed.

(** [waitForRemoteMedia] polls every 200 ms for as long as the session
    is valid and the player has not started, and never throws.  It stops at
    the first reading that is not so: if the session is still valid there
    (the player has started) it triggers [media-recv] once, with the remote
    stream of that moment, and attaches the stream; if the session is gone
    it stops silently.  Whatever is read afterwards plays no part; while
    every reading has it waiting, a timer stays pending. *)
Theorem waitForRemoteMedia_polls_until_playing (i : nat) (pl : Player) (sess : Session)
    (waiting : list Reading) (Hw : Forall (fun r => idle r = true) waiting) :
  (forall last rest,
     idle last = false ->
     polled i pl sess (waiting ++ last :: rest) =
       Some (inr (timers (List.length waiting) ++ delivered i pl sess last)%list, false)) /\
  (waiting <> [] ->
   polled i pl sess waiting = Some (inr (timers (List.length waiting)), true)).
Proof.
  split.
  - intros last rest Hl. unfold delivered. induction Hw as [|r waiting Hr Hw IH]; simpl.
    + rewrite (wait_stop _ _ _ _ _ Hl). reflexivity.
    + rewrite (wait_idle _ _ _ _ _ Hr).
      destruct (waiting ++ last :: rest)%list as [|next more] eqn:E; [discriminate IH|].
      simpl in IH. inversion IH as [IH']. rewrite IH'. reflexivity.
  - intros Hne. induction Hw as [|r waiting Hr Hw IH]; [congruence|]. simpl.
    rewrite (wait_idle _ _ _ _ _ Hr). destruct waiting as [|next more]; [reflexivity|].
    simpl in IH. specialize (IH ltac:(discriminate)). inversion IH as [IH']. rewrite IH'.
    reflexivity.
Qed.

Lemma waitForRemoteMedia_polls_until_playing_witness :
  polled 0 remote_player bob_session [not_started; not_started; started; not_started] =
    Some (inr [OSetTimeout 200; OSetTimeout 200;
               OMediaRecv 0 bob_phone "sid-bob" camera remote_player;
               OAttachMediaStream remote_player camera], false).
Proof.
  assert (Hw : Forall (fun r => idle r = true) [not_started; not_started]).
  { repeat constructor. }
  exact (proj1 (waitForRemoteMedia_polls_until_playing 0 remote_player bob_session _ Hw)
           started [not_started] eq_refl).
Defined.
(** * What a resolution emits *)

Lemma last_release_frame i w w' :
  insts w' !! i = insts w !! i \/
    (exists x x', insts w !! i = Some x /\ insts w' !! i = Some x' /\
                  _usedLocalStream x' = _usedLocalStream x /\ sessions x' = sessions x) ->
  gLocalStream w' = gLocalStream w -> gLocalVid w' = gLocalVid w ->
  gLocalStreamRefcount w' = gLocalStreamRefcount w ->
  last_release i w' = last_release i w /\ gives_back i w' = gives_back i w /\
  used_of w' i = used_of w i.
Proof.
  intros Hi Hs Hv Hc. unfold last_release, gives_back, used_of, sessions_of.
  rewrite Hs, Hv, Hc.
  destruct Hi as [-> | (x & x' & E & E' & Hu & Hse)]; [auto|].
  rewrite E, E', Hu, Hse. auto.
Qed.

Lemma handlers_frame i j (f : Inst -> Inst) w :
  (forall x, _usedLocalStream (f x) = _usedLocalStream x /\ sessions (f x) = sessions x) ->
  insts (set_insts (alter f j (insts w)) w) !! i = insts w !! i \/
    (exists x x', insts w !! i = Some x /\
                  insts (set_insts (alter f j (insts w)) w) !! i = Some x' /\
                  _usedLocalStream x' = _usedLocalStream x /\ sessions x' = sessions x).
Proof.
  intros Hf. simpl. destruct (decide (j = i)) as [->|Hne].
  - rewrite list_lookup_alter_eq. destruct (insts w !! i) as [x|] eqn:E; [|left; reflexivity].
    right. exists x, (f x). simpl. destruct (Hf x). auto.
  - left. apply list_lookup_alter_ne. exact Hne.
Qed.

Lemma filter_handlers_frame t x :
  _usedLocalStream (set_handlers (List.filter (fun u => negb (Nat.eqb u t)) (handlers x))
                      (next_token x) x) = _usedLocalStream x /\
  sessions (set_handlers (List.filter (fun u => negb (Nat.eqb u t)) (handlers x))
              (next_token x) x) = sessions x.
Proof. split; reflexivity. Qed.

Lemma onDecline_out k v a st w :
  inv_at k v w -> ansHandler v = Some a -> stream_inv w ->
  exists w', startMediaCall_onDecline k st w = Ok tt w' /\
             out w' = (out w ++ resolution v (Decline st) w)%list.
Proof.
  intros H Ha Hs. unfold startMediaCall_onDecline. unfold bind at 1, get. rewrite H, Ha. cbv zeta.
  unfold deleteHandler, upd_inst, upd_inv, modify, bind. simpl.
  match goal with |- context [_freeLocalStreamIfUnused ?i ?w3] =>
    destruct (free_effects i w3 Hs) as (w' & E & Ho & _);
    destruct (last_release_frame i w w3) as (El & _);
      [apply (handlers_frame i i _ w); intros x; apply filter_handlers_frame
      | reflexivity | reflexivity | reflexivity |]
  end.
  rewrite E. rewrite El in Ho. simpl in Ho. unfold notice.
  destruct (isBroadcast v); simpl.
  - eexists. split; [reflexivity|]. simpl. rewrite Ho, <- !app_assoc. reflexivity.
  - eexists. split; [reflexivity|]. simpl. rewrite Ho, <- !app_assoc. reflexivity.
Qed.

Lemma handlers_frame2 i (f g : Inst -> Inst) w :
  (forall x, _usedLocalStream (f x) = _usedLocalStream x /\ sessions (f x) = sessions x) ->
  (forall x, _usedLocalStream (g x) = _usedLocalStream x /\ sessions (g x) = sessions x) ->
  alter g i (alter f i (insts w)) !! i = insts w !! i \/
    (exists x x', insts w !! i = Some x /\
                  alter g i (alter f i (insts w)) !! i = Some x' /\
                  _usedLocalStream x' = _usedLocalStream x /\ sessions x' = sessions x).
Proof.
  intros Hf Hg. rewrite !list_lookup_alter_eq.
  destruct (insts w !! i) as [x|] eqn:E; [|left; reflexivity].
  right. exists x, (g (f x)). simpl. destruct (Hf x), (Hg (f x)). split; [reflexivity|].
  split; [reflexivity|]. split; congruence.
Qed.

Lemma onTimeout_out k v a w :
  inv_at k v w -> ansHandler v = Some a -> stream_inv w ->
  exists w', startMediaCall_onTimeout k w = Ok tt w' /\
             out w' = (out w ++ resolution v Deadline w)%list.
Proof.
  intros H Ha Hs. unfold startMediaCall_onTimeout. unfold bind at 1, get. rewrite H, Ha. cbv zeta.
  destruct (declineHandler v) as [d|];
    unfold deleteHandler, upd_inst, upd_inv, modify, bind, ret; simpl;
    match goal with |- context [_freeLocalStreamIfUnused ?i ?w3] =>
      destruct (free_effects i w3 Hs) as (w' & E & Ho & _);
      destruct (last_release_frame i w w3) as (El & _);
        [first [ apply (handlers_frame2 i _ _ w); intros x; apply filter_handlers_frame
               | apply (handlers_frame i i _ w); intros x; apply filter_handlers_frame ]
        | reflexivity | reflexivity | reflexivity |]
    end;
    rewrite E; rewrite El in Ho; simpl in Ho;
    (eexists; split; [reflexivity|]; simpl; rewrite Ho, <- !app_assoc; reflexivity).
Qed.

Lemma cancel_out k v a w :
  inv_at k v w -> ansHandler v = Some a -> stream_inv w ->
  exists w', startMediaCall_cancel k w = Ok true w' /\
             out w' = (out w ++ resolution v Cancel w)%list.
Proof.
  intros H Ha Hs. unfold startMediaCall_cancel. unfold bind at 1, get. rewrite H, Ha. cbv zeta.
  destruct (declineHandler v) as [d|];
    unfold deleteHandler, upd_inst, upd_inv, modify, bind, ret; simpl;
    match goal with |- context [_freeLocalStreamIfUnused ?i ?w3] =>
      destruct (free_effects i w3 Hs) as (w' & E & Ho & _);
      destruct (last_release_frame i w w3) as (El & _);
        [first [ apply (handlers_frame2 i _ _ w); intros x; apply filter_handlers_frame
               | apply (handlers_frame i i _ w); intros x; apply filter_handlers_frame ]
        | reflexivity | reflexivity | reflexivity |]
    end;
    rewrite E; rewrite El in Ho; simpl in Ho;
    (eexists; split; [reflexivity|]; simpl; rewrite Ho, <- !app_assoc; reflexivity).
Qed.

Lemma onAnswer_out k v a s st w :
  inv_at k v w -> ansHandler v = Some a -> sessStream v = Some s ->
  exists w', startMediaCall_onAnswer k st w = Ok tt w' /\
             out w' = (out w ++ resolution v (Accept st) w)%list.
Proof.
  intros H Ha Es. unfold startMediaCall_onAnswer. unfold bind at 1, get. rewrite H, Ha. cbv zeta.
  unfold resolution, initiation, notice. rewrite Es. simpl.
  destruct (declineHandler v), (isBroadcast v);
    (eexists; split; [reflexivity|]; simpl; rewrite <- ?app_assoc; reflexivity).
Qed.

Lemma fire_out k t w :
  refines w k AwaitingAnswer -> stream_inv w ->
  exists v w',
    inv_at k v w /\ fire k t w = Ok (effective t) w' /\
    out w' = (out w ++ resolution v t w)%list.
Proof.
  intros (v & Hi & [a Ha] & _ & _ & _ & [s Es]) Hs. exists v.
  destruct t as [st|st| |]; simpl; unfold undef, boolean, bind.
  - destruct (onAnswer_out k v a s st w Hi Ha Es) as (w' & E & Ho). rewrite E. eauto.
  - destruct (onDecline_out k v a st w Hi Ha Hs) as (w' & E & Ho). rewrite E. eauto.
  - destruct (onTimeout_out k v a w Hi Ha Hs) as (w' & E & Ho). rewrite E. eauto.
  - destruct (cancel_out k v a w Hi Ha Hs) as (w' & E & Ho). rewrite E. eauto.
Qed.

(** * Notices to the other devices *)

Section Quiet.
Context (L : list Output).

Let P := fun w => notices w = L.

Lemma notices_emit o : is_notice o = false -> preserves P (emit o).
Proof.
  intros Hq w H. unfold P, notices in *. simpl. rewrite List.filter_app. simpl. rewrite Hq.
  rewrite app_nil_r. exact H.
Qed.

Hint Resolve notices_emit : pres.
Hint Extern 0 (is_notice _ = false) => reflexivity : pres.

Lemma notices_unref i : preserves P (_unrefLocalStream i).
Proof. unfold_code. pres. Qed.

Lemma notices_jingle_terminate i sess r t : preserves P (jingle_terminate i sess r t).
Proof. unfold_code. pres. Qed.

Hint Resolve notices_jingle_terminate : pres.

Lemma notices_terminate_each i l r t : preserves P (terminate_each i l r t).
Proof. induction l as [|s l IH]; simpl; pres. Qed.

Lemma notices_mute_each i st what l : preserves P (mute_each i st what l).
Proof. induction l as [|s l IH]; simpl; pres. Qed.

Hint Resolve notices_terminate_each notices_mute_each : pres.

Lemma notices_step a : is_reply a = false -> preserves P (step a).
Proof. destruct a; simpl; try discriminate; intros _; unfold_code; pres. Qed.
End Quiet.

Section Addressed.
Context (k self : nat) (target : string) (b : bool).

Let P := addressed k self target b.

Lemma addressed_upd_inv k' f :
  (forall v, inv_self (f v) = inv_self v /\ targetJid (f v) = targetJid v /\
             isBroadcast (f v) = isBroadcast v) ->
  preserves P (upd_inv k' f).
Proof.
  intros Hf w (v & Hi & H1 & H2 & H3). unfold P, addressed, inv_at in *. simpl.
  destruct (decide (k' = k)) as [->|Hne].
  - exists (f v). rewrite list_lookup_alter_eq, Hi. destruct (Hf v) as (E1 & E2 & E3).
    repeat split; congruence.
  - exists v. rewrite list_lookup_alter_ne by exact Hne. auto.
Qed.

Hint Resolve addressed_upd_inv : pres.
Hint Extern 0 (forall v, inv_self _ = inv_self v /\ _) => (intros ?; repeat split) : pres.

Lemma addressed_jingle_terminate i sess r t : preserves P (jingle_terminate i sess r t).
Proof. unfold_code. pres. Qed.

Hint Resolve addressed_jingle_terminate : pres.

Lemma addressed_terminate_each i l r t : preserves P (terminate_each i l r t).
Proof. induction l as [|s l IH]; simpl; pres. Qed.

Lemma addressed_mute_each i st what l : preserves P (mute_each i st what l).
Proof. induction l as [|s l IH]; simpl; pres. Qed.

Hint Resolve addressed_terminate_each addressed_mute_each : pres.

Lemma addressed_startMediaCall i t o my : preserves P (startMediaCall i t o my).
Proof.
  unfold startMediaCall. apply preserves_get_bind. intros w H. cbv zeta.
  assert (Hpres : preserves P
    (_myGetUserMedia i bothMedia (startMediaCall_onMedia (List.length (invs w)))
       (upd_inv (List.length (invs w)) (set_media_pending true)) ;; ret (List.length (invs w)))).
  { unfold_code. pres. }
  refine (preserves_bind P _ _ _ (fun _ => Hpres) w H).
  intros w' _. destruct H as (v & Hi & H). exists v. split; [|exact H].
  unfold inv_at in *. simpl.
  rewrite lookup_app_l; [exact Hi|]. apply lookup_lt_Some in Hi. exact Hi.
Qed.

Hint Resolve addressed_startMediaCall : pres.

Lemma addressed_step a : preserves P (step a).
Proof. destruct a; simpl; pres; unfold_code; pres. Qed.
End Addressed.

Lemma phase_snoc tr a k :
  phase_of (tr ++ [a]) k = fold_left spec_next (observe k a (run tr init)) (phase_of tr k).
Proof. unfold phase_of. rewrite phase_run_app. reflexivity. Qed.

Lemma run_snoc tr a : run (tr ++ [a]) init = exec a (run tr init).
Proof. rewrite run_app. reflexivity. Qed.

Lemma handled_quiet k a w ph :
  is_reply a = false -> handled (fold_left spec_next (observe k a w) ph) = handled ph.
Proof.
  destruct a as [| | [k'|b] | [k'|b] | k' | k' | k' | k' | | | | | | | | | | |]; simpl;
    try discriminate; intros _; repeat case_match; destruct ph; reflexivity.
Qed.

Lemma notices_resolution v t w :
  List.filter is_notice (resolution v t w) =
    match t with
    | Accept st => notice v st "1"
    | Decline st => notice v st "0"
    | _ => []
    end.
Proof.
  assert (Hr : forall i, List.filter is_notice (last_release i w) = []).
  { intros i. unfold last_release. repeat case_match; reflexivity. }
  assert (Hn : forall st f, List.filter is_notice (notice v st f) = notice v st f).
  { intros st f. unfold notice. destruct (isBroadcast v); reflexivity. }
  destruct t as [st|st| |]; unfold resolution; rewrite ?List.filter_app, ?Hr, ?Hn; simpl.
  - unfold initiation. destruct (mutedStateOf _ _); simpl; rewrite app_nil_r; reflexivity.
  - rewrite app_nil_r. reflexivity.
  - reflexivity.
  - reflexivity.
Qed.

(** * Calls and their closures *)

Section HoldsCall.
Context (k : nat) (c : Call).

Let P := holds_call k c.

Lemma holds_upd_inv k' f :
  (forall v, inv_self (f v) = inv_self v /\ targetJid (f v) = targetJid v /\
             inv_options (f v) = inv_options v /\ myJid (f v) = myJid v /\
             isBroadcast (f v) = isBroadcast v) ->
  preserves P (upd_inv k' f).
Proof.
  intros Hf w (v & Hi & H1 & H2 & H3 & H4 & H5). unfold P, holds_call, closure_of, inv_at in *.
  simpl. destruct (decide (k' = k)) as [->|Hne].
  - exists (f v). rewrite list_lookup_alter_eq, Hi. destruct (Hf v) as (E1 & E2 & E3 & E4 & E5).
    repeat split; congruence.
  - exists v. rewrite list_lookup_alter_ne by exact Hne. auto 10.
Qed.

Hint Resolve holds_upd_inv : pres.
Hint Extern 0 (forall v, inv_self _ = inv_self v /\ _) => (intros ?; repeat split) : pres.

Lemma holds_jingle_terminate i sess r t : preserves P (jingle_terminate i sess r t).
Proof. unfold_code. pres. Qed.

Hint Resolve holds_jingle_terminate : pres.

Lemma holds_terminate_each i l r t : preserves P (terminate_each i l r t).
Proof. induction l as [|s l IH]; simpl; pres. Qed.

Lemma holds_mute_each i st what l : preserves P (mute_each i st what l).
Proof. induction l as [|s l IH]; simpl; pres. Qed.

Hint Resolve holds_terminate_each holds_mute_each : pres.

Lemma holds_startMediaCall i t o my : preserves P (startMediaCall i t o my).
Proof.
  unfold startMediaCall. apply preserves_get_bind. intros w H. cbv zeta.
  assert (Hpres : preserves P
    (_myGetUserMedia i bothMedia (startMediaCall_onMedia (List.length (invs w)))
       (upd_inv (List.length (invs w)) (set_media_pending true)) ;; ret (List.length (invs w)))).
  { unfold_code. pres. }
  refine (preserves_bind P _ _ _ (fun _ => Hpres) w H).
  intros w' _. destruct H as (v & Hi & H). exists v. split; [|exact H].
  unfold inv_at in *. simpl.
  rewrite lookup_app_l; [exact Hi|]. apply lookup_lt_Some in Hi. exact Hi.
Qed.

Hint Resolve holds_startMediaCall : pres.

Lemma holds_step a : preserves P (step a).
Proof. destruct a; simpl; pres; unfold_code; pres. Qed.
End HoldsCall.

Lemma calls_from_app tr1 tr2 w :
  calls_from (tr1 ++ tr2) w = (calls_from tr1 w ++ calls_from tr2 (run tr1 w))%list.
Proof.
  revert w. induction tr1 as [|a tr1 IH]; intros w; simpl; [reflexivity|].
  rewrite IH, app_assoc. reflexivity.
Qed.

Lemma calls_snoc tr a : calls (tr ++ [a]) = (calls tr ++ new_call a (run tr init))%list.
Proof. unfold calls. rewrite calls_from_app. simpl. rewrite app_nil_r. reflexivity. Qed.

(** Every call made one invitation, and every invitation was made by a
    call. *)
Lemma calls_length tr : List.length (calls tr) = List.length (invs (run tr init)).
Proof.
  induction tr as [|a tr IH] using rev_ind; [reflexivity|].
  rewrite calls_snoc, run_snoc, length_app, IH. set (w := run tr init).
  destruct (is_start a) eqn:Es.
  - destruct a; try discriminate. unfold exec. simpl. rewrite final_on_inst.
    destruct (insts w !! i); simpl; [|lia].
    match goal with |- context [final (bind ?m ?f w)] =>
      assert (E : final (bind m f w) = final (m w))
        by (unfold bind; destruct (m w); reflexivity)
    end.
    rewrite E, startMediaCall_length. lia.
  - pose proof (invs_length_step (List.length (invs w)) a Es w eq_refl) as H.
    unfold invs_length, exec in *. rewrite H.
    destruct a; try discriminate; simpl; lia.
Qed.

(** The closure of invitation [k] holds the arguments of the [k]-th call,
    for good. *)
Lemma closure_holds_call tr : forall k c,
  calls tr !! k = Some c -> holds_call k c (run tr init).
Proof.
  induction tr as [|a tr IH] using rev_ind; intros k c Hc.
  - unfold calls in Hc. simpl in Hc. rewrite lookup_nil in Hc. discriminate.
  - rewrite calls_snoc in Hc. rewrite run_snoc. set (w := run tr init) in *.
    destruct (decide (k < List.length (calls tr))) as [Hlt|Hge].
    + rewrite lookup_app_l in Hc by exact Hlt.
      apply holds_step. apply IH, Hc.
    + rewrite lookup_app_r in Hc by lia.
      assert (Hk : k = List.length (invs w)).
      { apply lookup_lt_Some in Hc as Hl.
        assert (List.length (new_call a w) <= 1) by (destruct a; simpl; repeat case_match; simpl; lia).
        pose proof (calls_length tr) as Hcl. fold w in Hcl. lia. }
      pose proof (calls_length tr) as Hcl. fold w in Hcl.
      rewrite Hcl, Hk, Nat.sub_diag in Hc.
      destruct a; try (simpl in Hc; discriminate). simpl in Hc.
      destruct (insts w !! i) as [x|] eqn:Ex; [|discriminate].
      simpl in Hc. inversion Hc; subst c. clear Hc.
      unfold exec. simpl. rewrite final_on_inst, Ex. subst k.
      destruct (gLocalStream w) as [s|] eqn:Es.
      * destruct (startMediaCall_open i target options my w s Es) as (a & d & w1 & E & Hv & _).
        unfold bind. rewrite E. eexists. split; [exact Hv|]. repeat split.
      * destruct (startMediaCall_closed i target options my w Es) as (w1 & E & Hv & _).
        unfold bind. rewrite E. eexists. split; [exact Hv|]. repeat split.
Qed.

(** * What a resolution emits, in terms of the call *)

Lemma notice_of_call c v st accepted :
  closure_of c v -> notice v st accepted = call_notice c (st_from st) accepted.
Proof.
  intros (E1 & E2 & E3 & E4 & E5). unfold notice, call_notice. rewrite E1, E2, E5. reflexivity.
Qed.

Lemma resolution_of_call c v s t w :
  closure_of c v -> sessStream v = Some s -> resolution v t w = call_resolution c s t w.
Proof.
  intros Hc Es. pose proof Hc as (E1 & E2 & E3 & E4 & E5).
  destruct t as [st|st| |]; unfold resolution, call_resolution; cbv zeta;
    rewrite ?(notice_of_call c v) by exact Hc;
    unfold initiation, init_event, declined_event, cancel_message, timeout_event;
    rewrite ?E1, ?E2, ?E3, ?E4, ?Es; reflexivity.
Qed.

(** While the invitation of a call awaits its answer, each of the four
    callbacks returns normally and does exactly this, in order.  Accept: if
    the target of the call had no resource, [megaNotifyCallHandled] with
    flag 1 to the bare target; the session handed to jingle with the clone
    held by the closure and the muted state that the options of the call
    give for it; then [call-init].  Decline: the release of the instance's
    reference (with the teardown if it was the last), the notice with flag
    0 if the target had no resource, then [call-declined].  Deadline: the
    release, [megaCallCancel] to the bare target, then
    [call-answer-timeout].  Cancel: the release, then [megaCallCancel]. *)
Theorem resolution_emits (tr : list Action) (k : nat) (c : Call) (t : Trigger)
    (Hc : calls tr !! k = Some c) (Ha : phase_of tr k = AwaitingAnswer) :
  let w := run tr init in
  exists v s w',
    inv_at k v w /\ sessStream v = Some s /\
    fire k t w = Ok (effective t) w' /\
    out w' = (out w ++ call_resolution c s t w)%list.
Proof.
  intros w. pose proof (refines_reachable tr k) as R. fold w in R. rewrite Ha in R.
  destruct (fire_out k t w R (stream_inv_reachable tr)) as (v & w' & Hv & Hf & Ho).
  destruct R as (v0 & Hv0 & _ & _ & _ & _ & [s Es]).
  unfold inv_at in Hv, Hv0. rewrite Hv in Hv0. inversion Hv0; subst v0.
  destruct (closure_holds_call tr k c Hc) as (v1 & Hv1 & Hcl).
  unfold inv_at in Hv1. fold w in Hv1. rewrite Hv in Hv1. inversion Hv1; subst v1.
  exists v, s, w'. rewrite <- (resolution_of_call c v s t w Hcl Es). auto.
Qed.

Lemma resolution_emits_witness :
  let w := run ringing init in
  exists v s w',
    inv_at 0 v w /\ sessStream v = Some s /\
    fire 0 (Decline bare_decline) w = Ok RUndefined w' /\
    out w' = (out w ++ call_resolution (mkCall 0 bob bothMedia None) s (Decline bare_decline) w)%list.
Proof.
  assert (Hc : calls ringing !! 0 = Some (mkCall 0 bob bothMedia None)) by (vm_compute; reflexivity).
  assert (Ha : phase_of ringing 0 = AwaitingAnswer) by (vm_compute; reflexivity).
  exact (resolution_emits ringing 0 _ (Decline bare_decline) Hc Ha).
Defined.

(** * One notice for each answered call to a bare JID *)

Lemma replies_from_app tr1 tr2 w :
  replies_from (tr1 ++ tr2) w = (replies_from tr1 w ++ replies_from tr2 (run tr1 w))%list.
Proof.
  revert w. induction tr1 as [|a tr1 IH]; intros w; simpl; [reflexivity|].
  rewrite IH, app_assoc. reflexivity.
Qed.

Lemma replies_snoc tr a : replies (tr ++ [a]) = (replies tr ++ reply_of a (run tr init))%list.
Proof. unfold replies. rewrite replies_from_app. simpl. rewrite app_nil_r. reflexivity. Qed.

(** The guard passes exactly while the invitation awaits its answer. *)
Lemma awaiting_phase tr k :
  awaiting (run tr init) k = true <-> phase_of tr k = AwaitingAnswer.
Proof.
  pose proof (refines_reachable tr k) as R. unfold awaiting.
  destruct (phase_of tr k); simpl in R.
  - split; [|discriminate]. destruct (invs (run tr init) !! k) eqn:E; [|discriminate].
    apply lookup_lt_Some in E. lia.
  - destruct R as (v & Hv & Ha). unfold inv_at in Hv. rewrite Hv, Ha. split; discriminate.
  - destruct R as (v & Hv & [a Ha] & _). unfold inv_at in Hv. rewrite Hv, Ha. split; reflexivity.
  - destruct R as (v & Hv & Ha & _). unfold inv_at in Hv. rewrite Hv, Ha. split; discriminate.
  - destruct R as (v & Hv & Ha & _). unfold inv_at in Hv. rewrite Hv, Ha. split; discriminate.
  - destruct R as (v & Hv & Ha & _). unfold inv_at in Hv. rewrite Hv, Ha. split; discriminate.
  - destruct R as (v & Hv & Ha & _). unfold inv_at in Hv. rewrite Hv, Ha. split; discriminate.
Qed.

Lemma awaiting_exists w k : awaiting w k = true -> k < List.length (invs w).
Proof.
  unfold awaiting. destruct (invs w !! k) eqn:E; [|discriminate].
  intros _. eapply lookup_lt_Some. exact E.
Qed.

(** What a reply that finds its invitation waiting adds to the notices. *)
Lemma reply_notices tr k (t : Trigger) st accepts :
  (t = Accept st /\ accepts = true) \/ (t = Decline st /\ accepts = false) ->
  awaiting (run tr init) k = true ->
  notices (final (fire k t (run tr init))) =
    (notices (run tr init) ++ reply_notice (calls tr) (mkReply k st accepts))%list.
Proof.
  intros Ht Hw. set (w := run tr init) in *.
  pose proof (refines_reachable tr k) as R. fold w in R.
  rewrite (proj1 (awaiting_phase tr k) Hw) in R.
  destruct (fire_out k t w R (stream_inv_reachable tr)) as (v & w' & Hv & Hf & Ho).
  rewrite Hf. simpl. unfold notices. rewrite Ho, List.filter_app, notices_resolution.
  f_equal.
  assert (Hk : k < List.length (calls tr)).
  { rewrite calls_length. apply awaiting_exists, Hw. }
  destruct (lookup_lt_is_Some_2 (calls tr) k Hk) as [c Hc].
  destruct (closure_holds_call tr k c Hc) as (v1 & Hv1 & Hcl).
  unfold inv_at in Hv, Hv1. fold w in Hv1. rewrite Hv in Hv1. inversion Hv1; subst v1.
  unfold reply_notice. simpl. rewrite Hc.
  destruct Ht as [[-> ->]|[-> ->]]; apply notice_of_call, Hcl.
Qed.

Lemma notices_snoc tr a :
  notices (run (tr ++ [a]) init) =
    (notices (run tr init) ++ flat_map (reply_notice (calls tr)) (reply_of a (run tr init)))%list.
Proof.
  rewrite run_snoc. set (w := run tr init).
  assert (Hstale : forall k t, awaiting w k = false -> final (fire k t w) = w).
  { intros k t Hw. pose proof (refines_reachable tr k) as R. fold w in R.
    rewrite (fire_ignored k t w _ R); [reflexivity|].
    intros Hp. apply awaiting_phase in Hp. fold w in Hp. congruence. }
  destruct (is_reply a) eqn:Hr.
  - destruct a; try discriminate; simpl reply_of; destruct (awaiting w k) eqn:Hw.
    + simpl flat_map. rewrite app_nil_r.
      change (exec (ARecvAnswer k stanza) w) with (final (fire k (Accept stanza) w)).
      apply (reply_notices tr k (Accept stanza) stanza true); auto.
    + change (exec (ARecvAnswer k stanza) w) with (final (fire k (Accept stanza) w)).
      rewrite Hstale by exact Hw. simpl. rewrite app_nil_r. reflexivity.
    + simpl flat_map. rewrite app_nil_r.
      change (exec (ARecvDecline k stanza) w) with (final (fire k (Decline stanza) w)).
      apply (reply_notices tr k (Decline stanza) stanza false); auto.
    + change (exec (ARecvDecline k stanza) w) with (final (fire k (Decline stanza) w)).
      rewrite Hstale by exact Hw. simpl. rewrite app_nil_r. reflexivity.
  - assert (E : reply_of a w = []) by (destruct a; try discriminate; reflexivity).
    rewrite E. simpl. rewrite app_nil_r.
    apply (notices_step (notices w) a Hr w eq_refl).
Qed.

(** The phase of an invitation after one more action that is a reply. *)
Lemma phase_reply tr a k :
  phase_of (tr ++ [a]) k =
    match reply_of a (run tr init) with
    | r :: _ => if decide (reply_inv r = k) then reply_outcome r else phase_of tr k
    | [] => if is_reply a then phase_of tr k else phase_of (tr ++ [a]) k
    end.
Proof.
  set (w := run tr init).
  destruct a; simpl; try reflexivity; rewrite phase_snoc; fold w; simpl;
    destruct (awaiting w k0) eqn:Hw; simpl.
  - destruct (decide (k0 = k)) as [->|Hne].
    + rewrite Nat.eqb_refl. apply awaiting_phase in Hw. fold w in Hw. rewrite Hw. reflexivity.
    + destruct (Nat.eqb_spec k k0); [congruence | reflexivity].
  - destruct (Nat.eqb_spec k k0) as [->|Hne]; [|reflexivity].
    simpl. destruct (phase_of tr k0) eqn:Ep; try reflexivity.
    apply awaiting_phase in Ep. fold w in Ep. congruence.
  - destruct (decide (k0 = k)) as [->|Hne].
    + rewrite Nat.eqb_refl. apply awaiting_phase in Hw. fold w in Hw. rewrite Hw. reflexivity.
    + destruct (Nat.eqb_spec k k0); [congruence | reflexivity].
  - destruct (Nat.eqb_spec k k0) as [->|Hne]; [|reflexivity].
    simpl. destruct (phase_of tr k0) eqn:Ep; try reflexivity.
    apply awaiting_phase in Ep. fold w in Ep. congruence.
Qed.

Lemma reply_of_cases a w :
  reply_of a w = [] \/
  exists k st b, reply_of a w = [mkReply k st b] /\ awaiting w k = true /\ is_reply a = true.
Proof.
  destruct a; simpl; auto; destruct (awaiting w k) eqn:E; auto; right; eauto 10.
Qed.

Lemma outcome_lasts tr a k r :
  phase_of tr k = reply_outcome r -> phase_of (tr ++ [a]) k = reply_outcome r.
Proof.
  intros E. rewrite phase_snoc, E. apply terminal_events.
  unfold reply_outcome, terminal. destruct (reply_accepts r); auto.
Qed.

(** The replies that took effect, and the invitations they resolved. *)
Lemma replied tr :
  (forall r, In r (replies tr) -> reply_inv r < List.length (calls tr)) /\
  NoDup (List.map reply_inv (replies tr)) /\
  (forall r, In r (replies tr) -> phase_of tr (reply_inv r) = reply_outcome r) /\
  (forall k, handled (phase_of tr k) = true -> In k (List.map reply_inv (replies tr))).
Proof.
  induction tr as [|a tr (IH1 & IH2 & IH3 & IH4)] using rev_ind.
  - split; [intros r []|]. split; [constructor|]. split; [intros r [] | intros k H; discriminate].
  - rewrite replies_snoc, calls_snoc. set (w := run tr init) in *.
    destruct (reply_of_cases a w) as [E|(k0 & st & b & E & Hw & Hr)]; rewrite E.
    + rewrite app_nil_r. split; [|split; [exact IH2|split]].
      * intros r Hin. rewrite length_app. specialize (IH1 r Hin). lia.
      * intros r Hin. apply outcome_lasts, IH3, Hin.
      * intros k Hk. apply IH4. rewrite phase_reply in Hk. fold w in Hk. rewrite E in Hk.
        destruct (is_reply a) eqn:Hr; [exact Hk|].
        rewrite phase_snoc in Hk. fold w in Hk. rewrite handled_quiet in Hk by exact Hr. exact Hk.
    + assert (Hnew : ~ In k0 (List.map reply_inv (replies tr))).
      { intros Hin. apply in_map_iff in Hin. destruct Hin as (r & Er & Hin).
        pose proof (IH3 r Hin) as Hp. rewrite Er in Hp.
        apply awaiting_phase in Hw. rewrite Hw in Hp.
        unfold reply_outcome in Hp. destruct (reply_accepts r); discriminate. }
      split; [|split; [|split]].
      * intros r Hin. rewrite length_app. apply in_app_or in Hin.
        destruct Hin as [Hin|[<-|[]]]; [specialize (IH1 r Hin); lia|].
        simpl. rewrite calls_length. fold w. apply awaiting_exists in Hw. lia.
      * rewrite map_app. simpl. apply NoDup_app. split; [exact IH2|]. split.
        -- intros k Hk Hk'. apply list_elem_of_In in Hk, Hk'.
           destruct Hk' as [<-|[]]. exact (Hnew Hk).
        -- repeat constructor. rewrite list_elem_of_In. intros [].
      * intros r Hin. apply in_app_or in Hin. destruct Hin as [Hin|[<-|[]]].
        -- apply outcome_lasts, IH3, Hin.
        -- rewrite phase_reply. fold w. rewrite E. simpl.
           destruct (decide (k0 = k0)); [reflexivity | congruence].
      * intros k Hk. rewrite map_app. apply in_or_app. simpl.
        rewrite phase_reply in Hk. fold w in Hk. rewrite E in Hk. simpl in Hk.
        destruct (decide (k0 = k)) as [->|Hne]; [right; left; reflexivity|].
        left. apply IH4, Hk.
Qed.

Lemma flat_map_agree {A B} (f g : A -> list B) (l : list A) :
  (forall x, In x l -> f x = g x) -> flat_map f l = flat_map g l.
Proof.
  induction l as [|x l IH]; intros H; simpl; [reflexivity|].
  rewrite (H x) by (left; reflexivity). rewrite IH; [reflexivity|].
  intros y Hy. apply H. right. exact Hy.
Qed.

Lemma notified tr :
  notices (run tr init) = flat_map (reply_notice (calls tr)) (replies tr).
Proof.
  induction tr as [|a tr IH] using rev_ind; [reflexivity|].
  rewrite notices_snoc, replies_snoc, flat_map_app, IH, calls_snoc.
  destruct (replied tr) as (Hlt & _).
  assert (Hext : forall r, reply_inv r < List.length (calls tr) ->
            reply_notice (calls tr) r = reply_notice (calls tr ++ new_call a (run tr init)) r).
  { intros r Hl. unfold reply_notice. rewrite lookup_app_l by exact Hl. reflexivity. }
  f_equal; apply flat_map_agree; intros r Hin; apply Hext.
  - apply Hlt, Hin.
  - destruct (reply_of_cases a (run tr init)) as [E|(k0 & st & b & E & Hw & _)];
      rewrite E in Hin; [destruct Hin|].
    destruct Hin as [<-|[]]. simpl. rewrite calls_length. apply awaiting_exists, Hw.
Qed.

(** After any history, the [megaNotifyCallHandled] messages sent are, in
    order, those of the replies that found their invitation waiting: for
    each such accept or decline of a call whose target had no resource, one
    message to the bare target that names the replying device and carries
    flag 1 for an accept and flag 0 for a decline; for a call to a full JID
    none.  No invitation has two such replies, every such reply left its
    invitation accepted or declined as it said, and every invitation that
    is accepted or declined has one: so there is exactly one notice for
    each answered call to a bare JID, and none for a timeout, a cancel, or
    a reply that comes after the invitation was resolved. *)
Theorem broadcast_answer_notified_once (tr : list Action) :
  notices (run tr init) = flat_map (reply_notice (calls tr)) (replies tr) /\
  NoDup (List.map reply_inv (replies tr)) /\
  (forall r, In r (replies tr) -> phase_of tr (reply_inv r) = reply_outcome r) /\
  (forall k, handled (phase_of tr k) = true -> In k (List.map reply_inv (replies tr))).
Proof.
  split; [apply notified|]. apply (replied tr).
Qed.

(** Bob was rung at his bare JID and Carol at her laptop; both declined:
    one notice, for Bob's other devices. *)
Example notices_of_two_declined :
  calls two_declined = [mkCall 0 bob bothMedia None; mkCall 0 carol bothMedia None] /\
  List.map reply_inv (replies two_declined) = [0; 1] /\
  notices (run two_declined init) =
    [OSend 0 (mkMsg bob "megaNotifyCallHandled" (Some bob_phone) (Some "0"))].
Proof. repeat split; vm_compute; reflexivity. Qed.

(** * Exceptions *)




























(** * The volume monitor *)

Lemma monitor_stays ops : forall v m, gVolMon v = Some m -> gVolMon (vol_run ops v) = Some m.
Proof.
  induction ops as [|op ops IH]; intros v m H; [exact H|].
  simpl. apply IH. destruct op as [cb|hark w]; simpl; [exact H|].
  unfold _maybeCreateVolMon. rewrite H. exact H.
Qed.

(** [_maybeCreateVolMon] returns true exactly when a monitor exists
    afterwards, and false exactly when there was none and either no
    callback is registered or hark is not loaded.  A monitor is created
    for the local stream of that moment, watching every 400 ms, and is
    never replaced afterwards, whatever callbacks are attached and however
    often the function is called again, also after that stream was closed
    and another one opened.  The handler calls the callback that is
    registered when the event arrives, and throws when it has been set to
    null. *)
Theorem volume_monitor_is_created_once (v : VolState) (hark : bool) (w : World)
    (ops : list VolOp) :
  let r := _maybeCreateVolMon hark w v in
  (fst r = true <-> is_Some (gVolMon (snd r))) /\
  (fst r = false <-> gVolMon v = None /\ (gVolMonCallback v = None \/ hark = false)) /\
  (gVolMon v = None -> fst r = true ->
     gVolMon (snd r) = Some (mkVolMon (gLocalStream w) 400)) /\
  (forall m, gVolMon (snd r) = Some m -> gVolMon (vol_run ops (snd r)) = Some m) /\
  gVolMonCallback (snd r) = gVolMonCallback v /\
  (forall cb volume,
     on_volume_change volume (volMonAttachCallback cb (vol_run ops (snd r))) =
       match cb with
       | Some c => inr (c, volume_level volume)
       | None => inl "TypeError: RtcSession.gVolMonCallback is not a function"
       end).
Proof.
  assert (Hcb : forall v' cb volume,
            on_volume_change volume (volMonAttachCallback cb v') =
              match cb with
              | Some c => inr (c, volume_level volume)
              | None => inl "TypeError: RtcSession.gVolMonCallback is not a function"
              end).
  { intros v' [c|] volume; reflexivity. }
  unfold _maybeCreateVolMon.
  destruct (gVolMon v) as [m|] eqn:Em; [|destruct (gVolMonCallback v) as [c|] eqn:Ec;
                                          [destruct hark|]];
    simpl; rewrite ?Em;
    repeat match goal with |- _ /\ _ => split end;
    try (intros; apply Hcb);
    try (intros m0 H; apply monitor_stays; exact H);
    try reflexivity;
    intuition (try discriminate; try congruence; eauto).
  - apply monitor_stays. congruence.
  - destruct H as [x Hx]. congruence.
  - destruct H as [x Hx]. congruence.
Qed.

Lemma levels_checked :
  Forall (fun n => volume_level (decibels (Z.of_nat n - 200)) =
                   decibels (exact_level (Z.of_nat n - 200)))
         (seq 0 301).
Proof.
  cbv [seq]. repeat (apply List.Forall_cons; [vm_compute; reflexivity|]). apply List.Forall_nil.
Qed.

(** At every whole number of decibels from -200 to 100 the handler of
    [volume_change] computes, in floating point, exactly the level 100
    above -35 dB, 4 dB + 240 from there down to -60 dB, and 0 at -60 dB
    and below; so the level lies between 0 and 100 and does not fall when
    the volume rises.  Silence reported as minus infinity, and a volume
    that is not a number, give level 0. *)
Theorem volume_level_at_whole_decibels (z : Z) (Hz : (-200 <= z <= 100)%Z) :
  volume_level (decibels z) = decibels (exact_level z) /\
  (0 <= exact_level z <= 100)%Z /\
  (forall z', (z <= z')%Z -> (exact_level z <= exact_level z')%Z) /\
  volume_level neg_infinity = 0%float /\
  volume_level nan = 0%float /\
  volume_level infinity = 100%float.
Proof.
  split; [|split; [|split; [|repeat split; vm_compute; reflexivity]]].
  - pose proof levels_checked as H. rewrite List.Forall_forall in H.
    specialize (H (Z.to_nat (z + 200))).
    replace (Z.of_nat (Z.to_nat (z + 200)) - 200)%Z with z in H by lia.
    apply H. apply in_seq. lia.
  - unfold exact_level. destruct (-35 <? z)%Z eqn:E1; [lia|].
    destruct (-60 <? z)%Z eqn:E; [|lia]. apply Z.ltb_lt in E. apply Z.ltb_ge in E1. lia.
  - intros z' Hle. unfold exact_level.
    destruct (-35 <? z)%Z eqn:E1; destruct (-35 <? z')%Z eqn:E1';
    destruct (-60 <? z)%Z eqn:E2; destruct (-60 <? z')%Z eqn:E2';
    rewrite ?Z.ltb_lt, ?Z.ltb_ge in *; lia.
Qed.

Lemma volume_level_at_whole_decibels_witness :
  volume_level (decibels (-50)) = decibels 40.
Proof.
  assert (Hz : (-200 <= -50 <= 100)%Z) by lia.
  exact (proj1 (volume_level_at_whole_decibels (-50) Hz)).
Defined.

(** * The grant of media for an outgoing call *)

Section Instances.
Context (i : nat).

Lemma exists_upd_inst j f : preserves (exists_inst i) (upd_inst j f).
Proof.
  intros w [x Hx]. unfold exists_inst. simpl.
  destruct (decide (j = i)) as [->|Hne].
  - rewrite list_lookup_alter_eq, Hx. simpl. eauto.
  - rewrite list_lookup_alter_ne by exact Hne. eauto.
Qed.

Lemma exists_new x : preserves (exists_inst i) (modify (fun w => set_insts (insts w ++ [x]) w)).
Proof.
  intros w [y Hy]. unfold exists_inst. simpl. rewrite lookup_app_l; [eauto|].
  apply lookup_lt_Some in Hy. exact Hy.
Qed.

Hint Resolve exists_upd_inst exists_new : pres.

Lemma exists_jingle_terminate j sess r t : preserves (exists_inst i) (jingle_terminate j sess r t).
Proof. unfold_code. pres. Qed.

Hint Resolve exists_jingle_terminate : pres.

Lemma exists_terminate_each j l r t : preserves (exists_inst i) (terminate_each j l r t).
Proof. induction l as [|s l IH]; simpl; pres. Qed.

Lemma exists_mute_each j st what l : preserves (exists_inst i) (mute_each j st what l).
Proof. induction l as [|s l IH]; simpl; pres. Qed.

Hint Resolve exists_terminate_each exists_mute_each : pres.

Lemma exists_step a : preserves (exists_inst i) (step a).
Proof. destruct a; simpl; unfold_code; pres. Qed.
End Instances.

Lemma start_creates i t o my w :
  is_Some (insts w !! i) ->
  exists v, inv_at (List.length (invs w)) v (exec (AStartMediaCall i t o my) w) /\ inv_self v = i.
Proof.
  intros Hi. destruct (startMediaCall_at w i t o my Hi) as (_ & _ & H).
  destruct (gLocalStream w) as [s|] eqn:Es.
  - destruct (startMediaCall_open i t o my w s Es) as (a & d & w1 & E & Hv & _).
    exists (set_timer_armed true (set_handles (Some a) (Some d)
         (set_sessStream (Some (cloneMediaStream s bothMedia)) (fresh_invitation i t o my)))).
    split; [|reflexivity].
    unfold exec. simpl. rewrite final_on_inst. destruct Hi as [x Hx]. rewrite Hx.
    unfold bind. rewrite E. exact Hv.
  - destruct (startMediaCall_closed i t o my w Es) as (w1 & E & Hv & _).
    exists (set_media_pending true (fresh_invitation i t o my)).
    split; [|reflexivity].
    unfold exec. simpl. rewrite final_on_inst. destruct Hi as [x Hx]. rewrite Hx.
    unfold bind. rewrite E. exact Hv.
Qed.

(** Every invitation belongs to an instance that exists. *)
Lemma invitation_instance tr : forall k v,
  inv_at k v (run tr init) -> exists_inst (inv_self v) (run tr init).
Proof.
  induction tr as [|a tr IH] using rev_ind; intros k v Hv.
  - unfold inv_at in Hv. simpl in Hv. rewrite lookup_nil in Hv. discriminate.
  - rewrite run_snoc in *. set (w := run tr init) in *.
    destruct (decide (k < List.length (invs w))) as [Hlt|Hge].
    + destruct (lookup_lt_is_Some_2 (invs w) k Hlt) as [v0 Hv0].
      destruct (addressed_step k (inv_self v0) (targetJid v0) (isBroadcast v0) a w)
        as (v' & Hv' & E1 & _).
      { exists v0. auto. }
      unfold inv_at, exec in *. rewrite Hv in Hv'. inversion Hv'; subst v'.
      rewrite E1. apply exists_step. apply (IH k v0 Hv0).
    + destruct (is_start a) eqn:Es.
      * destruct a; try discriminate.
        destruct (insts w !! i) as [x|] eqn:Ex.
        -- destruct (start_creates i target options my w (ex_intro _ x Ex)) as (v1 & Hv1 & E1).
           assert (Hk : k = List.length (invs w)).
           { apply lookup_lt_Some in Hv.
             assert (Hl : List.length (invs (exec (AStartMediaCall i target options my) w))
                          = S (List.length (invs w))).
             { unfold exec. simpl. rewrite final_on_inst, Ex.
               match goal with |- context [final (bind ?m ?f w)] =>
                 assert (E : final (bind m f w) = final (m w))
                   by (unfold bind; destruct (m w); reflexivity)
               end.
               rewrite E. apply startMediaCall_length. }
             lia. }
           subst k. unfold inv_at in *. rewrite Hv in Hv1. inversion Hv1; subst v1.
           rewrite E1. apply exists_step. exists x. exact Ex.
        -- exfalso. unfold exec in Hv. simpl in Hv. rewrite final_on_inst, Ex in Hv.
           apply lookup_lt_Some in Hv. lia.
      * exfalso. pose proof (invs_length_step (List.length (invs w)) a Es w eq_refl) as Hl.
        unfold invs_length in Hl. apply lookup_lt_Some in Hv. unfold exec in Hv. lia.
Qed.

Lemma granted_globals i s w :
  gLocalStream (granted i s w) = Some s /\ gLocalVid (granted i s w) = Some (local_player s) /\
  gLocalStreamRefcount (granted i s w) = JNum 1 /\
  out (granted i s w) = (out w ++ [OTrigger i (EvLocalStreamObtained s (local_player s))])%list.
Proof. repeat split. Qed.

(** The platform grants the media an outgoing call is waiting for.  If no
    local player exists, the stream becomes the shared stream with count
    one, the player is created and announced, the instance holds a
    reference, and the invitation is sent and awaits its answer.  If a
    player exists (another request was granted before), the stream and the
    count are overwritten all the same, then the assertion of
    [_onMediaReady] throws: nothing is emitted and the invitation stays
    idle. *)
Theorem media_grant_opens_the_stream (tr : list Action) (k : nat) (v : Invitation)
    (s : MediaStream) (Hv : inv_at k v (run tr init)) (Hp : media_pending v = true) :
  let w := run tr init in
  let a := AMediaGranted (ForInvitation k) s in
  match gLocalVid w with
  | None =>
      exists w',
        step a w = Ok RUndefined w' /\
        gLocalStream w' = Some s /\ gLocalVid w' = Some (local_player s) /\
        gLocalStreamRefcount w' = JNum 1 /\ used_of w' (inv_self v) = true /\
        out w' = (out w ++ [OTrigger (inv_self v) (EvLocalStreamObtained s (local_player s));
                            OSend (inv_self v) (mkMsg (targetJid v) "megaCall" None None)])%list /\
        phase_of (tr ++ [a]) k = AwaitingAnswer
  | Some old =>
      exists w',
        step a w = Throw player_exists_error w' /\
        gLocalStream w' = Some s /\ gLocalVid w' = Some old /\
        gLocalStreamRefcount w' = JNum 1 /\ used_of w' (inv_self v) = true /\
        out w' = out w /\
        phase_of (tr ++ [a]) k = Idle
  end.
Proof.
  intros w a.
  assert (Hidle : phase_of tr k = Idle).
  { apply (pending_is_idle w k _ v (refines_reachable tr k) Hv Hp). }
  assert (Hph : phase_of (tr ++ [a]) k =
                spec_next Idle (if is_none (gLocalVid w) then MediaAcquired else MediaFailed)).
  { rewrite phase_snoc. fold w. rewrite Hidle. unfold a. simpl.
    unfold inv_at in Hv. fold w in Hv. rewrite Hv, Hp, Nat.eqb_refl. reflexivity. }
  assert (Hinst : exists x, insts w !! inv_self v = Some x).
  { exact (invitation_instance tr k v Hv). }
  destruct Hinst as [x Hx].
  unfold inv_at in Hv. fold w in Hv.
  destruct (gLocalVid w) as [old|] eqn:Ev;
    unfold a; simpl; unfold undef, media_granted; unfold bind at 1; unfold bind at 1, get;
    rewrite Hv, Hp; unfold bind at 1, upd_inv, modify.
  - erewrite onSuccess_clash by exact Ev.
    eexists. split; [reflexivity|]. simpl.
    repeat match goal with |- _ /\ _ => split end; try reflexivity; try exact Hph.
    unfold used_of. simpl. rewrite list_lookup_alter_eq, Hx. reflexivity.
  - erewrite onSuccess_fresh by exact Ev.
    match goal with |- context [startMediaCall_onMedia k ?c ?w0] =>
      destruct (onMedia_registers k (set_media_pending false v) c w0)
        as (ha & hd & w' & E & _ & Ho & Hs & Hvid & Hc);
      [ apply (upd_inv_at k v (set_media_pending false) w Hv) |];
      pose proof (used_onMedia (inv_self v) k c w0) as Hu
    end.
    rewrite E in *. simpl in Hu.
    exists w'. split; [reflexivity|].
    rewrite Hs, Hvid, Hc, Ho. simpl.
    repeat match goal with |- _ /\ _ => split end; try reflexivity; try exact Hph.
    + apply Hu. unfold used_of. simpl. rewrite list_lookup_alter_eq, Hx. reflexivity.
    + rewrite <- app_assoc. reflexivity.
Qed.

Lemma media_grant_opens_the_stream_witness :
  let a := AMediaGranted (ForInvitation 0) camera in
  exists w',
    step a (run acquiring init) = Ok RUndefined w' /\
    gLocalStream w' = Some camera /\ gLocalStreamRefcount w' = JNum 1 /\
    phase_of (acquiring ++ [a]) 0 = AwaitingAnswer.
Proof.
  intros a.
  assert (Hv : inv_at 0 (set_media_pending true (fresh_invitation 0 bob bothMedia None))
                 (run acquiring init)) by (vm_compute; reflexivity).
  pose proof (media_grant_opens_the_stream acquiring 0 _ camera Hv eq_refl) as H.
  cbv zeta in H. change (gLocalVid (run acquiring init)) with (@None Vid) in H.
  destruct H as (w' & H1 & H2 & _ & H4 & _ & _ & H7).
  exists w'. repeat split; assumption.
Defined.

(** * Handler references of concurrent invitations *)

Section Grown.
Context (i : nat) (L : list nat) (n : nat).

Let P := grown i L n.

Lemma grown_upd_inst j f :
  (forall x, incl (handlers (f x)) (handlers x) /\ next_token (f x) = next_token x) ->
  preserves P (upd_inst j f).
Proof.
  intros Hf w [H1 H2]. unfold P, grown, handlers_of, next_of in *. simpl.
  destruct (decide (j = i)) as [->|Hne].
  - rewrite list_lookup_alter_eq. destruct (insts w !! i) as [x|]; simpl; [|auto].
    destruct (Hf x) as [Hi ->]. split; [exact H1|]. intros h Hh. apply H2, Hi, Hh.
  - rewrite list_lookup_alter_ne by exact Hne. auto.
Qed.

Lemma grown_addHandler j : preserves P (addHandler j).
Proof.
  unfold addHandler. apply preserves_get_bind. intros w [H1 H2].
  destruct (insts w !! j) as [x|] eqn:Ex; [|split; assumption].
  unfold bind, upd_inst, modify, ret. simpl.
  unfold P, grown, handlers_of, next_of in *. simpl.
  destruct (decide (j = i)) as [->|Hne].
  - rewrite list_lookup_alter_eq, Ex in *. simpl. split; [lia|].
    intros h Hh. apply in_app_or in Hh. destruct Hh as [Hh|[<-|[]]].
    + destruct (H2 h Hh) as [?|[? ?]]; [auto | right; lia].
    + right. lia.
  - rewrite list_lookup_alter_ne by exact Hne. auto.
Qed.

Lemma grown_new x :
  handlers x = [] -> preserves P (modify (fun w => set_insts (insts w ++ [x]) w)).
Proof.
  intros Hx w [H1 H2]. unfold P, grown, handlers_of, next_of in *. simpl.
  destruct (insts w !! i) as [y|] eqn:Ey.
  - rewrite lookup_app_l by (apply lookup_lt_Some in Ey; exact Ey). rewrite Ey. auto.
  - split; [lia|]. intros h Hh.
    destruct ((insts w ++ [x])%list !! i) as [z|] eqn:Ez; [|destruct Hh].
    apply lookup_ge_None in Ey.
    assert (Hi : i = List.length (insts w)).
    { apply lookup_lt_Some in Ez. rewrite length_app in Ez. simpl in Ez. lia. }
    subst i. rewrite list_lookup_middle in Ez by reflexivity. inversion Ez; subst z.
    rewrite Hx in Hh. destruct Hh.
Qed.

Hint Resolve grown_addHandler : pres.
Hint Extern 1 (preserves _ (upd_inst _ _)) =>
  (apply grown_upd_inst; intros ?; repeat case_match;
   (split;
    [ first [ apply incl_refl | intros ? Hin; simpl in Hin; apply filter_In in Hin; tauto ]
    | reflexivity ])) : pres.
Hint Extern 1 (preserves _ (modify (fun w => set_insts (insts w ++ _) w))) =>
  (apply grown_new; reflexivity) : pres.

Lemma grown_jingle_terminate j sess r t : preserves P (jingle_terminate j sess r t).
Proof. unfold jingle_terminate, onCallTerminated, removeVideo, _freeLocalStreamIfUnused,
         _unrefLocalStream, trigger. pres. Qed.

Hint Resolve grown_jingle_terminate : pres.

Lemma grown_terminate_each j l r t : preserves P (terminate_each j l r t).
Proof. induction l as [|s l IH]; simpl; pres. Qed.

Lemma grown_mute_each j st what l : preserves P (mute_each j st what l).
Proof. induction l as [|s l IH]; simpl; pres. Qed.

Hint Resolve grown_terminate_each grown_mute_each : pres.

Ltac unfold_but_handlers :=
  unfold _onPresenceUnavailable, onConnectionEvent, destroy, hangup, terminateByJid,
    terminateAll, muteUnmute, _getSessionsForJid, media_granted, media_denied, timer_fires,
    startMediaCall, answer, onIncomingCallRequest;
  unfold getUserMedia_onSuccess, getUserMedia_onError, _myGetUserMedia;
  unfold answer_onMedia, answer_onError, ansFunc, startMediaCall_onMedia,
    startMediaCall_onAnswer, startMediaCall_onDecline, startMediaCall_onTimeout,
    startMediaCall_cancel, _onMediaReady, jingle_terminate, onCallTerminated, removeVideo;
  unfold _freeLocalStreamIfUnused, _unrefLocalStream, _refLocalStream, deleteHandler,
    trigger, send.

Lemma grown_step a : preserves P (step a).
Proof. destruct a; simpl; unfold_but_handlers; unfold jingle_register; pres. Qed.
End Grown.

(** Every registered reference was handed out before. *)
Lemma allocated tr : forall i h,
  In h (handlers_of (run tr init) i) -> h < next_of (run tr init) i.
Proof.
  induction tr as [|a tr IH] using rev_ind; intros i h.
  - unfold handlers_of. simpl. intros [].
  - rewrite run_snoc. set (w := run tr init) in *.
    destruct (grown_step i (handlers_of w i) (next_of w i) a w) as [H1 H2].
    { split; [lia | auto]. }
    intros Hh. destruct (H2 h Hh) as [Hold|[? ?]]; [|assumption].
    specialize (IH i h Hold). unfold exec. lia.
Qed.

Section Listed.
Context (i h : nat).

Let P := listed i h.

Lemma listed_upd_inst j f :
  (forall x, incl (handlers x) (handlers (f x))) -> preserves P (upd_inst j f).
Proof.
  intros Hf w H. unfold P, listed, handlers_of in *. simpl.
  destruct (decide (j = i)) as [->|Hne].
  - rewrite list_lookup_alter_eq. destruct (insts w !! i) as [x|]; simpl; [|exact H].
    apply (Hf x), H.
  - rewrite list_lookup_alter_ne by exact Hne. exact H.
Qed.

Lemma listed_deleteHandler j t :
  (j = i -> t <> Some h) -> preserves P (deleteHandler j t).
Proof.
  intros Hne. destruct t as [t|]; simpl; [|apply preserves_ret].
  intros w H. unfold P, listed, handlers_of in *. simpl.
  destruct (decide (j = i)) as [->|Hji].
  - rewrite list_lookup_alter_eq. destruct (insts w !! i) as [x|]; simpl; [|exact H].
    apply filter_In. split; [exact H|]. apply negb_true_iff, Nat.eqb_neq.
    intros ->. apply (Hne eq_refl). reflexivity.
  - rewrite list_lookup_alter_ne by exact Hji. exact H.
Qed.

Lemma listed_addHandler j : preserves P (addHandler j).
Proof.
  unfold addHandler. apply preserves_get_bind. intros w H.
  destruct (insts w !! j) as [x|] eqn:Ex; [|exact H].
  unfold bind, upd_inst, modify, ret. simpl.
  unfold P, listed, handlers_of in *. simpl.
  destruct (decide (j = i)) as [->|Hne].
  - rewrite list_lookup_alter_eq, Ex in *. simpl. apply in_or_app. left. exact H.
  - rewrite list_lookup_alter_ne by exact Hne. exact H.
Qed.

Lemma listed_new x : preserves P (modify (fun w => set_insts (insts w ++ [x]) w)).
Proof.
  intros w H. unfold P, listed, handlers_of in *. simpl.
  destruct (insts w !! i) as [y|] eqn:Ey; [|destruct H].
  rewrite lookup_app_l by (apply lookup_lt_Some in Ey; exact Ey). rewrite Ey. exact H.
Qed.

Hint Resolve listed_addHandler listed_new : pres.
Hint Extern 1 (preserves _ (upd_inst _ _)) =>
  (apply listed_upd_inst; intros ?; repeat case_match; apply incl_refl) : pres.

Lemma listed_free j : preserves P (_freeLocalStreamIfUnused j).
Proof. unfold _freeLocalStreamIfUnused, _unrefLocalStream, trigger. pres. Qed.

Lemma listed_jingle_terminate j sess r t : preserves P (jingle_terminate j sess r t).
Proof. unfold jingle_terminate, onCallTerminated, removeVideo, _freeLocalStreamIfUnused,
         _unrefLocalStream, trigger. pres. Qed.

Hint Resolve listed_jingle_terminate listed_free : pres.

Lemma listed_terminate_each j l r t : preserves P (terminate_each j l r t).
Proof. induction l as [|s l IH]; simpl; pres. Qed.

Lemma listed_mute_each j st what l : preserves P (mute_each j st what l).
Proof. induction l as [|s l IH]; simpl; pres. Qed.

Hint Resolve listed_terminate_each listed_mute_each : pres.

Lemma listed_quiet a : is_resolving a = false -> preserves P (step a).
Proof.
  destruct a; simpl; try discriminate; intros _;
    unfold _onPresenceUnavailable, onConnectionEvent, destroy, hangup, terminateByJid,
      terminateAll, muteUnmute, _getSessionsForJid, media_granted, media_denied,
      startMediaCall, answer, onIncomingCallRequest, jingle_register;
    unfold getUserMedia_onSuccess, getUserMedia_onError, _myGetUserMedia;
    unfold answer_onMedia, answer_onError, ansFunc, startMediaCall_onMedia,
      _onMediaReady, _unrefLocalStream, _refLocalStream, trigger, send;
    pres.
Qed.
End Listed.

Lemma not_live_ans v h : ~ In h (live v) -> ansHandler v <> Some h.
Proof. intros H E. apply H. unfold live. rewrite E. left. reflexivity. Qed.

Lemma not_live_decl v a h : ansHandler v = Some a -> ~ In h (live v) -> declineHandler v <> Some h.
Proof. intros Ea H E. apply H. unfold live. rewrite Ea, E. right. left. reflexivity. Qed.

Section ListedResolving.
Context (i h : nat).

Let P := listed i h.

Hint Resolve listed_addHandler listed_new listed_free : pres.
Hint Extern 1 (preserves _ (upd_inst _ _)) =>
  (apply listed_upd_inst; intros ?; repeat case_match; apply incl_refl) : pres.

Lemma listed_onAnswer k st w :
  P w -> (forall v, inv_at k v w -> inv_self v = i -> ~ In h (live v)) ->
  P (final (startMediaCall_onAnswer k st w)).
Proof.
  intros H Hn. unfold startMediaCall_onAnswer. unfold bind at 1, get.
  destruct (invs w !! k) as [v|] eqn:Ev; [|exact H].
  destruct (ansHandler v) as [a|] eqn:Ea; [|exact H]. cbv zeta.
  match goal with |- P (final (?m w)) => cut (preserves P m); [intros Hp; apply Hp, H|] end.
  unfold trigger, send. pres.
  all: try (apply listed_deleteHandler; intros Hi; eapply not_live_decl; [exact Ea | exact (Hn v Ev Hi)]).
Qed.

Lemma listed_onDecline k st w :
  P w -> (forall v, inv_at k v w -> inv_self v = i -> ~ In h (live v)) ->
  P (final (startMediaCall_onDecline k st w)).
Proof.
  intros H Hn. unfold startMediaCall_onDecline. unfold bind at 1, get.
  destruct (invs w !! k) as [v|] eqn:Ev; [|exact H].
  destruct (ansHandler v) as [a|] eqn:Ea; [|exact H]. cbv zeta.
  match goal with |- P (final (?m w)) => cut (preserves P m); [intros Hp; apply Hp, H|] end.
  unfold trigger, send. pres.
  all: try (apply listed_deleteHandler; intros Hi; rewrite <- Ea; eapply not_live_ans; exact (Hn v Ev Hi)).
Qed.

Lemma listed_onTimeout k w :
  P w -> (forall v, inv_at k v w -> inv_self v = i -> ~ In h (live v)) ->
  P (final (startMediaCall_onTimeout k w)).
Proof.
  intros H Hn. unfold startMediaCall_onTimeout. unfold bind at 1, get.
  destruct (invs w !! k) as [v|] eqn:Ev; [|exact H].
  destruct (ansHandler v) as [a|] eqn:Ea; [|exact H]. cbv zeta.
  match goal with |- P (final (?m w)) => cut (preserves P m); [intros Hp; apply Hp, H|] end.
  unfold trigger, send. pres.
  all: try (apply listed_deleteHandler; intros Hi;
            first [ rewrite <- Ea; eapply not_live_ans; exact (Hn v Ev Hi)
                  | eapply not_live_decl; [exact Ea | exact (Hn v Ev Hi)] ]).
Qed.

Lemma listed_cancel k w :
  P w -> (forall v, inv_at k v w -> inv_self v = i -> ~ In h (live v)) ->
  P (final (startMediaCall_cancel k w)).
Proof.
  intros H Hn. unfold startMediaCall_cancel. unfold bind at 1, get.
  destruct (invs w !! k) as [v|] eqn:Ev; [|exact H].
  destruct (ansHandler v) as [a|] eqn:Ea; [|exact H]. cbv zeta.
  match goal with |- P (final (?m w)) => cut (preserves P m); [intros Hp; apply Hp, H|] end.
  unfold trigger, send. pres.
  all: try (apply listed_deleteHandler; intros Hi;
            first [ rewrite <- Ea; eapply not_live_ans; exact (Hn v Ev Hi)
                  | eapply not_live_decl; [exact Ea | exact (Hn v Ev Hi)] ]).
Qed.

Lemma listed_timer_fires k w :
  P w -> (forall v, inv_at k v w -> inv_self v = i -> ~ In h (live v)) ->
  P (final (timer_fires k w)).
Proof.
  intros H Hn. unfold timer_fires. unfold bind at 1, get.
  destruct (invs w !! k) as [v|] eqn:Ev; [|exact H].
  destruct (timer_armed v) eqn:Et; [|exact H].
  unfold bind at 1, upd_inv, modify.
  apply listed_onTimeout; [exact H|].
  intros v' Hv' Hi. unfold inv_at in Hv'. simpl in Hv'.
  rewrite list_lookup_alter_eq, Ev in Hv'. inversion Hv'; subst v'.
  exact (Hn v Ev Hi).
Qed.

(** A step keeps every registration, except those a resolving callback
    deletes, which its invitation held. *)
Lemma listed_step a w :
  P w ->
  (is_resolving a = true ->
   forall k v, addresses a = Some k -> inv_at k v w -> inv_self v = i -> ~ In h (live v)) ->
  P (exec a w).
Proof.
  intros H Hn. destruct (is_resolving a) eqn:Er.
  - specialize (Hn eq_refl). unfold exec.
    destruct a; try discriminate; simpl; rewrite ?final_undef, ?final_boolean;
      [ apply listed_onAnswer | apply listed_onDecline | apply listed_timer_fires
      | apply listed_cancel ]; try exact H; intros v Hv; apply (Hn _ v eq_refl Hv).
  - apply (listed_quiet i h a Er w H).
Qed.
End ListedResolving.

Lemma onMedia_tokens k v s w x :
  inv_at k v w -> insts w !! inv_self v = Some x ->
  exists w',
    startMediaCall_onMedia k s w = Ok tt w' /\
    inv_at k (set_timer_armed true
               (set_handles (Some (next_token x)) (Some (S (next_token x)))
                  (set_sessStream (Some s) v))) w' /\
    handlers_of w' (inv_self v) = (handlers x ++ [next_token x; S (next_token x)])%list.
Proof.
  intros H Ex. unfold inv_at in H.
  unfold startMediaCall_onMedia, addHandler, bind, get, upd_inv, upd_inst, modify, send, emit, ret.
  rewrite H. simpl. rewrite Ex. simpl.
  rewrite list_lookup_alter_eq, Ex. simpl.
  eexists. split; [reflexivity|].
  unfold inv_at, handlers_of. simpl.
  rewrite !list_lookup_alter_eq, H, Ex. simpl.
  split; [reflexivity|]. rewrite <- app_assoc. reflexivity.
Qed.

Lemma media_granted_tokens k s w v x :
  inv_at k v w -> media_pending v = true -> gLocalVid w = None ->
  insts w !! inv_self v = Some x ->
  exists v' w',
    media_granted (ForInvitation k) s w = Ok tt w' /\ inv_at k v' w' /\
    live v' = next_pair w (inv_self v) /\
    handlers_of w' (inv_self v) = (handlers_of w (inv_self v) ++ next_pair w (inv_self v))%list.
Proof.
  intros H Ep Ev Ex. unfold media_granted. unfold bind at 1, get. rewrite H, Ep.
  unfold bind at 1. change (upd_inv k (set_media_pending false) w) with (Ok tt (answered k w)).
  cbv iota beta.
  rewrite onSuccess_fresh by exact Ev.
  match goal with |- context [startMediaCall_onMedia k ?s ?w0] =>
    destruct (onMedia_tokens k (set_media_pending false v) s w0 (set_used true x))
      as (w' & Hr & Hi & Hh)
  end.
  { apply (inv_at_invs k _ (answered k w)); [reflexivity | apply inv_at_answered, H]. }
  { simpl. rewrite list_lookup_alter_eq, Ex. reflexivity. }
  rewrite Hr. eexists _, w'. split; [reflexivity|]. split; [exact Hi|].
  unfold next_pair, handlers_of, next_of. rewrite Ex.
  split; [reflexivity | exact Hh].
Qed.

Lemma startMediaCall_tokens i t o my w s x :
  gLocalStream w = Some s -> insts w !! i = Some x ->
  exists v' w',
    startMediaCall i t o my w = Ok (List.length (invs w)) w' /\
    inv_at (List.length (invs w)) v' w' /\ inv_self v' = i /\
    live v' = next_pair w i /\
    handlers_of w' i = (handlers_of w i ++ next_pair w i)%list.
Proof.
  intros E Ex. unfold startMediaCall, bind, get, modify. simpl.
  erewrite myGetUserMedia_open by exact E.
  match goal with |- context [startMediaCall_onMedia ?k ?s ?w0] =>
    destruct (onMedia_tokens k (fresh_invitation i t o my) s w0 (set_used true x))
      as (w' & Hr & Hi & Hh)
  end.
  { unfold inv_at. simpl. apply list_lookup_middle. reflexivity. }
  { simpl. rewrite list_lookup_alter_eq, Ex. reflexivity. }
  rewrite Hr. eexists _, w'. split; [reflexivity|]. split; [exact Hi|].
  unfold next_pair, handlers_of, next_of. rewrite Ex.
  split; [reflexivity|]. split; [reflexivity | exact Hh].
Qed.

(** A resolving callback leaves its invitation without references. *)
Lemma cleared_after a k w :
  (forall v, inv_at k v w -> is_Some (ansHandler v) -> timer_armed v = true) ->
  is_resolving a = true -> addresses a = Some k -> handles_clear (exec a w) k.
Proof.
  intros Harm Hr Ha.
  assert (Hold : handles_clear w k \/ exists v a0, inv_at k v w /\ ansHandler v = Some a0).
  { destruct (invs w !! k) as [v|] eqn:Ev.
    - destruct (ansHandler v) as [a0|] eqn:Ea; [right; eauto|].
      left. intros v0 Hv0. congruence.
    - left. intros v0 Hv0. congruence. }
  unfold exec. destruct a; try discriminate; simpl in *; inversion Ha; subst;
    rewrite ?final_undef, ?final_boolean.
  - destruct Hold as [Hc|(v & a0 & Hv & E)].
    + rewrite onAnswer_stale by exact Hc. exact Hc.
    + intros v' Hv'. pose proof (onAnswer_resolves k v a0 stanza w Hv E) as H.
      unfold inv_at in H. rewrite Hv' in H. inversion H. reflexivity.
  - destruct Hold as [Hc|(v & a0 & Hv & E)].
    + rewrite onDecline_stale by exact Hc. exact Hc.
    + intros v' Hv'. pose proof (onDecline_resolves k v a0 stanza w Hv E) as H.
      unfold inv_at in H. rewrite Hv' in H. inversion H. reflexivity.
  - destruct (invs w !! k) as [v|] eqn:Ev.
    + destruct (timer_armed v) eqn:Et.
      * rewrite (timer_fires_armed k w v Ev Et).
        pose proof (inv_at_expired k v w Ev) as He.
        destruct (ansHandler v) as [a0|] eqn:Ea.
        -- intros v' Hv'.
           pose proof (onTimeout_resolves k _ a0 (expired k w) He Ea) as H.
           unfold inv_at in H. rewrite Hv' in H. inversion H. reflexivity.
        -- assert (Hc : handles_clear (expired k w) k).
           { intros v0 Hv0. unfold inv_at in He. rewrite Hv0 in He. inversion He. exact Ea. }
           rewrite onTimeout_stale by exact Hc. exact Hc.
      * rewrite (timer_fires_unarmed k w v Ev Et).
        destruct Hold as [Hc|(v0 & a0 & Hv0 & E)]; [exact Hc|].
        unfold inv_at in Hv0. rewrite Ev in Hv0. inversion Hv0; subst v0.
        rewrite (Harm v Ev) in Et; [discriminate | rewrite E; eauto].
    + intros v' Hv'. exfalso. unfold timer_fires, bind, get in Hv'. rewrite Ev in Hv'.
      simpl in Hv'. congruence.
  - destruct Hold as [Hc|(v & a0 & Hv & E)].
    + rewrite cancel_stale by exact Hc. exact Hc.
    + intros v' Hv'. pose proof (cancel_resolves k v a0 w Hv E) as H.
      unfold inv_at in H. rewrite Hv' in H. inversion H. reflexivity.
Qed.

(** While an invitation holds its handlers its timer is running. *)
Lemma armed_reachable tr k v :
  inv_at k v (run tr init) -> is_Some (ansHandler v) -> timer_armed v = true.
Proof.
  intros Hv [a0 Ha]. pose proof (refines_reachable tr k) as R.
  unfold inv_at in Hv.
  destruct (phase_of tr k); simpl in R;
    try (destruct R as (v0 & H0 & R); unfold inv_at in H0; rewrite Hv in H0;
         inversion H0; subst v0).
  - apply lookup_lt_Some in Hv. lia.
  - congruence.
  - tauto.
  - destruct R; congruence.
  - destruct R; congruence.
  - destruct R; congruence.
  - destruct R; congruence.
Qed.

Lemma live_clear v : ansHandler v = None -> live v = [].
Proof. intros E. unfold live. rewrite E. reflexivity. Qed.

(** What a step makes of an invitation: it leaves it without references,
    or with those it had, or it is the one invitation whose success
    callback ran, which got the next two references of its connection. *)
Lemma invitation_after a w k' v' :
  (forall k v, inv_at k v w -> exists_inst (inv_self v) w) ->
  (forall k v, inv_at k v w -> is_Some (ansHandler v) -> timer_armed v = true) ->
  inv_at k' v' (exec a w) ->
  live v' = [] \/
  (exists v, inv_at k' v w /\ inv_self v = inv_self v' /\ live v = live v' /\
             (is_resolving a = true -> addresses a <> Some k')) \/
  (fresh_slot a w = Some k' /\ is_resolving a = false /\
   live v' = next_pair w (inv_self v') /\
   handlers_of (exec a w) (inv_self v') =
     (handlers_of w (inv_self v') ++ next_pair w (inv_self v'))%list).
Proof.
  intros Hex Harm Hv'.
  destruct (decide (k' < List.length (invs w))) as [Hlt|Hge].
  - destruct (lookup_lt_is_Some_2 (invs w) k' Hlt) as [v Hv].
    destruct (decide (addresses a = Some k')) as [Ha|Hna].
    + destruct (is_resolving a) eqn:Er.
      * left. apply live_clear. apply (cleared_after a k' w (Harm k') Er Ha v' Hv').
      * unfold exec in Hv'.
        destruct a as [| | [k0|b] | [k0|b] | | | | | | | | | | | | | | |];
          try discriminate; simpl in Ha; inversion Ha; subst k0; simpl in Hv';
          rewrite final_undef in Hv'.
        -- destruct (media_pending v) eqn:Ep.
           ++ destruct (gLocalVid w) as [vid|] eqn:Ev.
              ** destruct (media_granted_clash k' stream w v vid Hv Ep Ev) as (e & w1 & E & Hi & _).
                 rewrite E in Hv'. simpl in Hv'. unfold inv_at in *. rewrite Hv' in Hi.
                 inversion Hi; subst v'. right; left. exists v. repeat split; auto; discriminate.
              ** destruct (Hex k' v Hv) as [x Hx].
                 destruct (media_granted_tokens k' stream w v x Hv Ep Ev Hx)
                   as (v1 & w1 & E & Hi & Hl & Hh).
                 assert (Es : inv_self v' = inv_self v).
                 { destruct (addressed_step k' (inv_self v) (targetJid v) (isBroadcast v)
                               (AMediaGranted (ForInvitation k') stream) w) as (v2 & H2 & E2 & _).
                   { exists v. auto. }
                   unfold exec in H2. simpl in H2. rewrite final_undef in H2.
                   unfold inv_at in *. rewrite Hv' in H2. inversion H2; subst v2. exact E2. }
                 rewrite E in *. simpl in Hv'. unfold inv_at in *. rewrite Hv' in Hi.
                 inversion Hi; subst v1. right; right. rewrite Es.
                 unfold exec. simpl. rewrite final_undef, E. simpl. auto.
           ++ rewrite (media_granted_stale k' stream w v Hv Ep) in Hv'. simpl in Hv'.
              unfold inv_at in *. rewrite Hv' in Hv. inversion Hv; subst v'.
              right; left. exists v. repeat split; auto; discriminate.
        -- destruct (media_pending v) eqn:Ep.
           ++ destruct (media_denied_pending k' error e w v Hv Ep) as (w1 & E & Hi & _).
              rewrite E in Hv'. simpl in Hv'. unfold inv_at in *. rewrite Hv' in Hi.
              inversion Hi; subst v'. right; left. exists v. repeat split; auto; discriminate.
           ++ rewrite (media_denied_stale k' error e w v Hv Ep) in Hv'. simpl in Hv'.
              unfold inv_at in *. rewrite Hv' in Hv. inversion Hv; subst v'.
              right; left. exists v. repeat split; auto; discriminate.
    + pose proof (step_other a k' v Hna w Hv) as H. unfold exec, inv_at in *.
      rewrite Hv' in H. inversion H; subst v'.
      right; left. exists v. repeat split; auto.
  - destruct (is_start a) eqn:Es.
    + destruct a; try discriminate. unfold exec in *. simpl in Hv'. simpl.
      rewrite final_on_inst in *.
      destruct (insts w !! i) as [x|] eqn:Ex.
      * assert (Hk : k' = List.length (invs w)).
        { apply lookup_lt_Some in Hv'.
          unfold bind in Hv'.
          pose proof (startMediaCall_length i target options my w) as Hl.
          destruct (startMediaCall i target options my w); simpl in *; lia. }
        subst k'. destruct (gLocalStream w) as [s|] eqn:Eg.
        -- destruct (startMediaCall_tokens i target options my w s x Eg Ex)
             as (v1 & w1 & E & Hi & Hs & Hl & Hh).
           unfold bind in *. rewrite E in *. simpl in *. unfold inv_at in *.
           rewrite Hv' in Hi. inversion Hi; subst v1. rewrite Hs.
           right; right. auto.
        -- destruct (startMediaCall_closed i target options my w Eg) as (w1 & E & Hi & _).
           unfold bind in *. rewrite E in *. simpl in *. unfold inv_at in *.
           rewrite Hv' in Hi. inversion Hi; subst v'. left. reflexivity.
      * simpl in Hv'. apply lookup_lt_Some in Hv'. lia.
    + exfalso. pose proof (invs_length_step (List.length (invs w)) a Es w eq_refl) as Hl.
      apply lookup_lt_Some in Hv'. unfold invs_length, exec in *. lia.
Qed.

Lemma next_pair_fresh w i h : In h (next_pair w i) -> next_of w i <= h.
Proof. unfold next_pair. simpl. intros [<-|[<-|[]]]; lia. Qed.

Lemma next_pair_NoDup w i : NoDup (next_pair w i).
Proof.
  unfold next_pair. repeat constructor; rewrite ?list_elem_of_In; simpl; try tauto.
  intros [E|[]]. lia.
Qed.

Lemma tidy_step a w :
  (forall i h, In h (handlers_of w i) -> h < next_of w i) ->
  (forall k v, inv_at k v w -> exists_inst (inv_self v) w) ->
  (forall k v, inv_at k v w -> is_Some (ansHandler v) -> timer_armed v = true) ->
  tidy w -> tidy (exec a w).
Proof.
  intros Hal Hex Harm Ht k v' Hv'.
  pose proof (invitation_after a w k v' Hex Harm Hv') as Hc.
  split; [|split].
  - destruct Hc as [E|[(v & Hv & _ & E & _)|(_ & _ & E & _)]].
    + rewrite E. constructor.
    + rewrite <- E. apply (Ht k v Hv).
    + rewrite E. apply next_pair_NoDup.
  - intros h Hh. destruct Hc as [E|[(v & Hv & Es & E & Hr)|(_ & _ & E & Hh')]].
    + rewrite E in Hh. destruct Hh.
    + rewrite <- E in Hh. rewrite <- Es.
      destruct (Ht k v Hv) as (_ & Hl & Hu).
      apply listed_step; [exact (Hl h Hh)|].
      intros Er k0 v0 Ha Hv0 Es0 Hin.
      apply (Hr Er). rewrite Ha. f_equal. exact (Hu k0 v0 h Hv0 Es0 Hh Hin).
    + unfold listed. rewrite Hh'. apply in_or_app. right. rewrite <- E. exact Hh.
  - intros k2 v2 h Hv2 Es2 Hh Hh2.
    pose proof (invitation_after a w k2 v2 Hex Harm Hv2) as Hc2.
    destruct Hc as [E|[(v & Hv & Es & E & Hr)|(Hf & _ & E & _)]].
    { rewrite E in Hh. destruct Hh. }
    + destruct Hc2 as [E2|[(u & Hu & Esu & E2 & _)|(_ & _ & E2 & _)]].
      { rewrite E2 in Hh2. destruct Hh2. }
      * destruct (Ht k v Hv) as (_ & _ & Huniq).
        apply (Huniq k2 u h Hu); [congruence | rewrite E; exact Hh | rewrite E2; exact Hh2].
      * exfalso. rewrite E2 in Hh2. apply next_pair_fresh in Hh2.
        destruct (Ht k v Hv) as (_ & Hl & _). rewrite <- E in Hh.
        pose proof (Hal _ _ (Hl h Hh)) as Hlt.
        rewrite Es, <- Es2 in Hlt. lia.
    + destruct Hc2 as [E2|[(u & Hu & Esu & E2 & _)|(Hf2 & _)]].
      { rewrite E2 in Hh2. destruct Hh2. }
      * exfalso. rewrite E in Hh. apply next_pair_fresh in Hh.
        destruct (Ht k2 u Hu) as (_ & Hl & _). rewrite <- E2 in Hh2.
        pose proof (Hal _ _ (Hl h Hh2)) as Hlt.
        rewrite Esu, Es2 in Hlt. lia.
      * congruence.
Qed.

Lemma tidy_reachable tr : tidy (run tr init).
Proof.
  induction tr as [|a tr IH] using rev_ind.
  - intros k v Hv. unfold inv_at in Hv. simpl in Hv. rewrite lookup_nil in Hv. discriminate.
  - rewrite run_snoc. apply tidy_step.
    + apply allocated.
    + apply invitation_instance.
    + apply armed_reachable.
    + exact IH.
Qed.

(** After any history, an invitation that awaits its answer holds two
    handler references that differ; both are still installed on its
    connection, that is, no callback of any invitation has given them to
    [deleteHandler]; and no other invitation of that connection holds
    either of them, so resolving another call never removes them. *)
Theorem awaiting_handlers_stay_registered (tr : list Action) (k : nat) :
  phase_of tr k = AwaitingAnswer ->
  let w := run tr init in
  exists v a d,
    inv_at k v w /\ ansHandler v = Some a /\ declineHandler v = Some d /\ a <> d /\
    registered w (inv_self v) a /\ registered w (inv_self v) d /\
    forall k' v', k' <> k -> inv_at k' v' w -> inv_self v' = inv_self v ->
      ~ In a (live v') /\ ~ In d (live v').
Proof.
  intros Hph w. pose proof (refines_reachable tr k) as R. rewrite Hph in R.
  destruct R as (v & Hv & [a Ha] & [d Hd] & _).
  destruct (tidy_reachable tr k v Hv) as (Hnd & Hl & Hu).
  assert (El : live v = [a; d]) by (unfold live; rewrite Ha, Hd; reflexivity).
  rewrite El in *.
  assert (Hreg : forall h, In h [a; d] -> registered w (inv_self v) h).
  { intros h Hh. specialize (Hl h Hh). unfold listed, handlers_of in Hl.
    fold w in Hl. unfold registered.
    destruct (insts w !! inv_self v) as [x|]; [eauto | destruct Hl]. }
  exists v, a, d. repeat split; auto.
  - intros ->. apply NoDup_cons in Hnd. destruct Hnd as [Hn _]. apply Hn. left.
  - apply Hreg. simpl. auto.
  - apply Hreg. simpl. auto.
  - intros Hin. apply H. apply (Hu k' v' a H0 H1); simpl; auto.
  - intros Hin. apply H. apply (Hu k' v' d H0 H1); simpl; auto.
Qed.

Lemma awaiting_handlers_stay_registered_witness :
  phase_of two_ringing 1 = AwaitingAnswer /\
  exists v a d,
    inv_at 1 v (run two_ringing init) /\ ansHandler v = Some a /\ declineHandler v = Some d /\
    a <> d /\
    registered (run two_ringing init) (inv_self v) a /\
    registered (run two_ringing init) (inv_self v) d /\
    forall k' v', k' <> 1 -> inv_at k' v' (run two_ringing init) -> inv_self v' = inv_self v ->
      ~ In a (live v') /\ ~ In d (live v').
Proof.
  assert (H : phase_of two_ringing 1 = AwaitingAnswer) by (vm_compute; reflexivity).
  split; [exact H|]. exact (awaiting_handlers_stay_registered two_ringing 1 H).
Defined.
